(** * BTMF: Bayesian Temporal Matrix Factorization (experiments/Imputation-BTMF.ipynb)

    A shallow embedding of the notebook's Python/NumPy code.

    - Arrays are NumPy [ndarray]s: a shape and the elements in C (row-major)
      order.  Every array operation is written through multi-indices
      ([get], [tabulate]) and fails ([None]) where NumPy raises.
    - Floating-point numbers are an interface ([Float]): the model assumes
      no arithmetic law about them.
    - Calls into numpy.linalg, numpy.random and scipy.stats are recorded in
      a log and answered by an environment; arrays that the code mutates in
      place live in a heap of references. *)

From Stdlib Require Import ZArith QArith_base Lia.
From stdpp Require Import base option numbers list.

Set Default Proof Using "Type".
Open Scope nat_scope.

(** ** NumPy arrays *)

Module Np.

Record ndarray (A : Type) := NDArray { shape : list nat; data : list A }.
Arguments NDArray {A} _ _.
Arguments shape {A} _.
Arguments data {A} _.

(** [a.size] for a shape: the product of the dimensions. *)
Definition size_of (s : list nat) : nat := foldr Nat.mul 1 s.

(** An array owns exactly as many elements as its shape announces. *)
Definition wf {A} (a : ndarray A) : Prop := length (data a) = size_of (shape a).

(** All multi-indices of a shape, last axis varying fastest (C order). *)
Fixpoint indices (s : list nat) : list (list nat) :=
  match s with
  | [] => [[]]
  | n :: s' => i ← seq 0 n; (i ::.) <$> indices s'
  end.

(** Offset of a multi-index in C order. *)
Fixpoint ravel (s idx : list nat) : nat :=
  match s, idx with
  | _ :: s', i :: idx' => i * size_of s' + ravel s' idx'
  | _, _ => 0
  end.

(** Offset of a multi-index in Fortran order (first axis varying fastest),
    and the multi-index of an offset. *)
Fixpoint ravel_F (s idx : list nat) : nat :=
  match s, idx with
  | n :: s', i :: idx' => i + n * ravel_F s' idx'
  | _, _ => 0
  end.

Fixpoint unravel_F (s : list nat) (m : nat) : list nat :=
  match s with
  | [] => []
  | n :: s' => (m mod n) :: unravel_F s' (m / n)
  end.

Fixpoint in_bounds (s idx : list nat) : bool :=
  match s, idx with
  | [], [] => true
  | n :: s', i :: idx' => (i <? n) && in_bounds s' idx'
  | _, _ => false
  end.

Section Arrays.
Context {A : Type}.
Implicit Types a : ndarray A.

(** [a[idx]] with a full multi-index; IndexError is [None]. *)
Definition get a (idx : list nat) : option A :=
  if in_bounds (shape a) idx then data a !! ravel (shape a) idx else None.

(** The array of shape [s] whose element at [idx] is [f idx]. *)
Definition tabulate (s : list nat) (f : list nat → option A) : option (ndarray A) :=
  d ← mapM f (indices s); Some (NDArray s d).

(** [np.transpose(a, axes)]: axis [j] of the result is axis [axes[j]] of [a]. *)
Definition scatter (n : nat) (axes idx : list nat) : list nat :=
  foldr (λ p acc, <[p.1 := p.2]> acc) (replicate n 0) (zip axes idx).

Definition np_transpose a (axes : list nat) : option (ndarray A) :=
  s' ← mapM (λ ax, shape a !! ax) axes;
  tabulate s' (λ idx, get a (scatter (length (shape a)) axes idx)).

(** [np.moveaxis(a, source, destination)] for one axis each:
    [order = [n for n in range(a.ndim) if n != source]], then
    [order.insert(destination, source)], then transpose. *)
Definition np_moveaxis a (source destination : nat) : option (ndarray A) :=
  let n := length (shape a) in
  if (source <? n) && (destination <? n) then
    let order := List.filter (λ ax, negb (ax =? source)) (seq 0 n) in
    np_transpose a (take destination order ++ source :: drop destination order)
  else None.

(** A requested dimension of [reshape]: a size, or [-1] ([None]). *)
Definition dim := option nat.

Definition is_unknown (d : dim) : bool := if d is None then true else false.

(** NumPy's inference of the unknown dimension: at most one [-1]; it cannot
    be inferred when the known dimensions multiply to [0] or do not divide
    the size; without [-1] the sizes must agree. *)
Definition fix_unknown_dimension (newshape : list dim) (size : nat) : option (list nat) :=
  let s_known := size_of (omap id newshape) in
  match length (List.filter is_unknown newshape) with
  | 0 => if s_known =? size then Some (omap id newshape) else None
  | 1 => if (s_known =? 0) || negb (size mod s_known =? 0) then None
         else Some (from_option id (size / s_known) <$> newshape)
  | _ => None
  end.

Inductive order := order_C | order_F.

(** [np.reshape(a, newshape, order)]: the elements are read in the given
    index order and placed into the new shape in the same index order. *)
Definition np_reshape a (newshape : list dim) (o : order) : option (ndarray A) :=
  s' ← fix_unknown_dimension newshape (size_of (shape a));
  match o with
  | order_C => Some (NDArray s' (data a))
  | order_F => tabulate s' (λ idx, get a (unravel_F (shape a) (ravel_F s' idx)))
  end.

(** *** Tensor unfolding and matrix folding (notebook cells 5 and 7) *)

(** def ten2mat(tensor, mode):
        return np.reshape(np.moveaxis(tensor, mode, 0), (tensor.shape[mode], -1), order = 'F') *)
Definition ten2mat (tensor : ndarray A) (mode : nat) : option (ndarray A) :=
  moved ← np_moveaxis tensor mode 0;
  n ← shape tensor !! mode;
  np_reshape moved [Some n; None] order_F.

(** def mat2ten(mat, tensor_size, mode):
        index = list()
        index.append(mode)
        for i in range(tensor_size.shape[0]):
            if i != mode:
                index.append(i)
        return np.moveaxis(np.reshape(mat, list(tensor_size[index]), order = 'F'), 0, mode) *)
Definition mat2ten (mat : ndarray A) (tensor_size : list nat) (mode : nat) : option (ndarray A) :=
  let index := mode :: List.filter (λ i, negb (i =? mode)) (seq 0 (length tensor_size)) in
  sizes ← mapM (λ i, tensor_size !! i) index;
  folded ← np_reshape mat (Some <$> sizes) order_F;
  np_moveaxis folded 0 mode.


(** *** Indexing *)

(** A Python index into an axis of length [n]: negative indices count from
    the end, anything outside [-n, n) is an IndexError. *)
Definition norm_index (n : nat) (i : Z) : option nat :=
  if ((0 <=? i) && (i <? Z.of_nat n))%Z then Some (Z.to_nat i)
  else if ((- Z.of_nat n <=? i) && (i <? 0))%Z then Some (Z.to_nat (i + Z.of_nat n))
  else None.

(** [ten2mat] and [mat2ten] for any Python integer [mode].  [np.moveaxis]
    counts a negative axis from the end and refuses one outside [-n, n)
    ([normalize_axis_tuple]), and so does the indexing [tensor.shape[mode]]
    of the shape tuple.  In [mat2ten] the test [i != mode] compares the
    integers as they are, so that a negative [mode] stays in front of all of
    [range(tensor_size.shape[0])]; [tensor_size[index]] counts a negative
    entry of [index] from the end.  For [0 <= mode] these are [ten2mat] and
    [mat2ten] above. *)
Definition np_moveaxis_int a (source destination : Z) : option (ndarray A) :=
  let n := length (shape a) in
  s ← norm_index n source;
  d ← norm_index n destination;
  np_moveaxis a s d.

Definition ten2mat_int (tensor : ndarray A) (mode : Z) : option (ndarray A) :=
  moved ← np_moveaxis_int tensor mode 0;
  n ← (i ← norm_index (length (shape tensor)) mode; shape tensor !! i);
  np_reshape moved [Some n; None] order_F.

Definition mat2ten_int (mat : ndarray A) (tensor_size : list nat) (mode : Z)
    : option (ndarray A) :=
  let index := mode :: List.filter (λ i, negb (i =? mode)%Z)
                                   (Z.of_nat <$> seq 0 (length tensor_size)) in
  sizes ← mapM (λ i, j ← norm_index (length tensor_size) i; tensor_size !! j) index;
  folded ← np_reshape mat (Some <$> sizes) order_F;
  np_moveaxis_int folded 0 mode.

(** Bounds of the Python slice [lo:hi] on an axis of length [n]
    ([slice.indices] with step 1): first index and length. *)
Definition clamp_slice (n : nat) (i : Z) : nat :=
  let i' := (if i <? 0 then i + Z.of_nat n else i)%Z in
  if (i' <? 0)%Z then 0 else if (Z.of_nat n <? i')%Z then n else Z.to_nat i'.

Definition slice_bounds (n : nat) (lo hi : Z) : nat * nat :=
  let start := clamp_slice n lo in
  let stop := clamp_slice n hi in
  (start, stop - start).

(** [a[..., i, ...]]: an integer index at position [axis] of an index
    expression with [nslots] entries, all others being [:]. *)
Definition np_index (nslots axis : nat) a (i : Z) : option (ndarray A) :=
  guard (nslots ≤ length (shape a));;
  n ← shape a !! axis;
  r ← norm_index n i;
  tabulate (delete axis (shape a)) (λ idx, get a (take axis idx ++ r :: drop axis idx)).

(** [a[rows, :]] with an integer array [rows] (fancy indexing on axis 0). *)
Definition np_take_rows a (rows : list Z) : option (ndarray A) :=
  match shape a with
  | n :: (_ :: _) as s' =>
      rs ← mapM (norm_index n) rows;
      tabulate (length rows :: s')
        (λ idx, if idx is i :: idx' then r ← rs !! i; get a (r :: idx') else None)
  | _ => None
  end.

(** [a[lo:hi, :]]. *)
Definition np_slice_rows a (lo hi : Z) : option (ndarray A) :=
  match shape a with
  | n :: (_ :: _) as s' =>
      let '(start, len) := slice_bounds n lo hi in
      tabulate (len :: s')
        (λ idx, if idx is i :: idx' then get a ((start + i) :: idx') else None)
  | _ => None
  end.

(** [a[position]] where [position] comes from [np.where]: the selected
    elements as a 1-d array. *)
Definition np_select a (position : list (list nat)) : option (ndarray A) :=
  d ← mapM (get a) position; Some (NDArray [length position] d).

(** *** Broadcasting *)

Fixpoint broadcast_rev (s1 s2 : list nat) : option (list nat) :=
  match s1, s2 with
  | [], s | s, [] => Some s
  | n1 :: r1, n2 :: r2 =>
      r ← broadcast_rev r1 r2;
      if n1 =? n2 then Some (n1 :: r)
      else if n1 =? 1 then Some (n2 :: r)
      else if n2 =? 1 then Some (n1 :: r)
      else None
  end.

Definition broadcast_shapes (s1 s2 : list nat) : option (list nat) :=
  reverse <$> broadcast_rev (reverse s1) (reverse s2).

(** The index into an operand of shape [s] for the index [idx] of the
    broadcast result. *)
Definition bidx (s idx : list nat) : list nat :=
  zip_with (λ n i, if n =? 1 then 0 else i) s (drop (length idx - length s) idx).

(** [a[..., i, ...] = v]: [v] is broadcast to the selected sub-array. *)
Definition np_set_index (nslots axis : nat) a (i : Z) (v : ndarray A) : option (ndarray A) :=
  guard (nslots ≤ length (shape a));;
  n ← shape a !! axis;
  r ← norm_index n i;
  let sub := delete axis (shape a) in
  guard (broadcast_shapes sub (shape v) = Some sub);;
  tabulate (shape a)
    (λ idx, if bool_decide (idx !! axis = Some r)
            then get v (bidx (shape v) (delete axis idx)) else get a idx).

(** [a[lo:hi, :] = v]. *)
Definition np_set_slice_rows a (lo hi : Z) (v : ndarray A) : option (ndarray A) :=
  match shape a with
  | n :: (_ :: _) as s' =>
      let '(start, len) := slice_bounds n lo hi in
      guard (broadcast_shapes (len :: s') (shape v) = Some (len :: s'));;
      tabulate (shape a)
        (λ idx, if idx is i :: idx'
                then if (start <=? i) && (i <? start + len)
                     then get v (bidx (shape v) ((i - start) :: idx'))
                     else get a idx
                else None)
  | _ => None
  end.

(** [a[position] = x] for a scalar [x]. *)
Definition np_set_select a (position : list (list nat)) (x : A) : option (ndarray A) :=
  tabulate (shape a) (λ idx, if bool_decide (idx ∈ position) then Some x else get a idx).

(** [a.T]: the axes reversed. *)
Definition np_T a : option (ndarray A) :=
  np_transpose a (reverse (seq 0 (length (shape a)))).

(** [np.dstack(arrays)]: every array is viewed with at least three
    dimensions ([()] as [(1,1,1)], [(N,)] as [(1,N,1)], [(M,N)] as
    [(M,N,1)]) and the views are concatenated along the third axis.  The
    notebook only stacks copies of one array; arrays of differing shapes are
    refused here. *)
Definition atleast_3d_shape (s : list nat) : list nat :=
  match s with
  | [] => [1; 1; 1]
  | [n] => [1; n; 1]
  | [m; n] => [m; n; 1]
  | _ => s
  end.

Definition np_dstack (arrays : list (ndarray A)) : option (ndarray A) :=
  match arrays with
  | [] => None
  | a0 :: _ =>
      guard (Forall (λ a, shape a = shape a0) arrays);;
      match atleast_3d_shape (shape a0) with
      | m :: n :: c :: rest =>
          tabulate (m :: n :: (c * length arrays) :: rest)
            (λ idx, if idx is i :: j :: k :: idx'
                    then a ← arrays !! (k `div` c);
                         data a !! ravel (m :: n :: c :: rest) (i :: j :: (k `mod` c) :: idx')
                    else None)
      | _ => None
      end
  end.

(** [a.copy()] is the array itself: values are immutable here, only heap
    cells are mutated. *)
Definition np_copy a : ndarray A := a.

End Arrays.

(** The notebook's own demonstration of [ten2mat] (cell 6). *)
Definition demo_tensor : ndarray Z :=
  NDArray [3; 2; 4]
    [1; 2; 3; 4;  3; 4; 5; 6;
     5; 6; 7; 8;  7; 8; 9; 10;
     9; 10; 11; 12;  11; 12; 13; 14]%Z.

(** Element-wise operations of two arrays, with broadcasting. *)
Definition np_zip_with {A B C} (f : A → B → C) (a : ndarray A) (b : ndarray B) : option (ndarray C) :=
  s ← broadcast_shapes (shape a) (shape b);
  tabulate s (λ idx, x ← get a (bidx (shape a) idx); y ← get b (bidx (shape b) idx); Some (f x y)).

Definition np_map {A B} (f : A → B) (a : ndarray A) : ndarray B :=
  NDArray (shape a) (f <$> data a).

(** A Python scalar as a 0-d array. *)
Definition np_scalar {A} (x : A) : ndarray A := NDArray [] [x].

(** [np.where(mask)]: the multi-indices of the true entries, in C order. *)
Definition np_where (mask : ndarray bool) : list (list nat) :=
  List.filter (λ idx, if get mask idx is Some true then true else false)
              (indices (shape mask)).

(** [np.max] and [np.min] of a 1-d integer array; empty arrays are refused. *)
Definition np_max (l : list Z) : option Z :=
  if l is x :: l' then Some (foldl Z.max x l') else None.
Definition np_min (l : list Z) : option Z :=
  if l is x :: l' then Some (foldl Z.min x l') else None.


(** A loop with an accumulator whose body may fail. *)
Fixpoint foldlM {X Y} (f : Y → X → option Y) (y : Y) (l : list X) : option Y :=
  match l with
  | [] => Some y
  | x :: l' => y' ← f y x; foldlM f y' l'
  end.

(** *** Floating-point numbers

    The operations of Python floats that the notebook uses.  Literals
    (Python integers and decimal constants) enter through [of_Q]. *)
Class Float (R : Type) := {
  of_Q : Q → R;
  fadd : R → R → R;
  fsub : R → R → R;
  fmul : R → R → R;
  fdiv : R → R → R;
  fsqrt : R → R;
  fabs : R → R;
  fne0 : R → bool;   (** [x != 0] *)
}.

Section Numeric.
Context `{Float R}.
Implicit Types a b : ndarray R.

Definition of_Z (z : Z) : R := of_Q (inject_Z z).
Definition of_nat (n : nat) : R := of_Z (Z.of_nat n).

(** Sums are accumulated from the left, starting at [0.0]. *)
Definition fsum (l : list R) : R := foldl fadd (of_Z 0) l.

Definition np_zeros (s : list nat) : ndarray R := NDArray s (replicate (size_of s) (of_Z 0)).

Definition np_eye (n : nat) : ndarray R :=
  NDArray [n; n]
    ((λ idx, if idx is [i; j] then if i =? j then of_Z 1 else of_Z 0 else of_Z 0)
       <$> indices [n; n]).

Definition np_add := np_zip_with fadd.
Definition np_sub := np_zip_with fsub.

(** [c * a] and [a / c] for a Python scalar [c]. *)
Definition np_scale (c : R) a : ndarray R := np_map (fmul c) a.
Definition np_div_scalar a (c : R) : ndarray R := np_map (λ x, fdiv x c) a.

(** [a ** 2]. *)
Definition np_square a : ndarray R := np_map (λ x, fmul x x) a.

(** [np.sum(a)]. *)
Definition np_sum a : R := fsum (data a).

(** [a += b]: [b] is broadcast to the shape of [a], which does not change. *)
Definition np_iadd a b : option (ndarray R) :=
  guard (broadcast_shapes (shape a) (shape b) = Some (shape a));;
  np_add a b.

(** [np.mean(a, axis = 0)]. *)
Definition np_mean_axis0 a : option (ndarray R) :=
  match shape a with
  | n :: s' =>
      tabulate s' (λ idx, xs ← mapM (λ i, get a (i :: idx)) (seq 0 n);
                          Some (fdiv (fsum xs) (of_nat n)))
  | [] => None
  end.

(** [np.matmul(a, b)] for operands with one or two dimensions. *)
Definition dot (k : nat) (x y : nat → option R) : option R :=
  ps ← mapM (λ l, u ← x l; v ← y l; Some (fmul u v)) (seq 0 k); Some (fsum ps).

Definition np_matmul a b : option (ndarray R) :=
  match shape a, shape b with
  | [m; k], [k'; n] =>
      guard (k = k');;
      tabulate [m; n] (λ idx, if idx is [i; j]
                              then dot k (λ l, get a [i; l]) (λ l, get b [l; j]) else None)
  | [m; k], [k'] =>
      guard (k = k');;
      tabulate [m] (λ idx, if idx is [i]
                           then dot k (λ l, get a [i; l]) (λ l, get b [l]) else None)
  | [k], [k'; n] =>
      guard (k = k');;
      tabulate [n] (λ idx, if idx is [j]
                           then dot k (λ l, get a [l]) (λ l, get b [l; j]) else None)
  | [k], [k'] =>
      guard (k = k');;
      np_scalar <$> dot k (λ l, get a [l]) (λ l, get b [l])
  | _, _ => None
  end.

(** [np.outer(u, v)]: both operands are flattened. *)
Definition np_outer a b : option (ndarray R) :=
  tabulate [length (data a); length (data b)]
    (λ idx, if idx is [i; j] then x ← data a !! i; y ← data b !! j; Some (fmul x y) else None).

(** [np.einsum('i, j -> ij', u, v)]. *)
Definition np_einsum_i_j_ij a b : option (ndarray R) :=
  match shape a, shape b with
  | [_], [_] => np_outer a b
  | _, _ => None
  end.

(** [np.einsum('ir, jr -> ijr', a, b)]: the lengths of the two axes
    labelled [r] are broadcast against each other. *)
Definition np_einsum_ir_jr_ijr a b : option (ndarray R) :=
  match shape a, shape b with
  | [m; r], [n; r'] =>
      s ← broadcast_shapes [r] [r'];
      tabulate (m :: n :: s)
        (λ idx, if idx is [i; j; l]
                then x ← get a (i :: bidx [r] [l]); y ← get b (j :: bidx [r'] [l]);
                     Some (fmul x y)
                else None)
  | _, _ => None
  end.

(** def kr_prod(a, b):
        return np.einsum('ir, jr -> ijr', a, b).reshape(a.shape[0] * b.shape[0], -1) *)
Definition kr_prod a b : option (ndarray R) :=
  e ← np_einsum_ir_jr_ijr a b;
  m ← shape a !! 0;
  n ← shape b !! 0;
  np_reshape e [Some (m * n); None] order_C.

(** def cov_mat(mat):
        dim1, dim2 = mat.shape
        new_mat = np.zeros((dim2, dim2))
        mat_bar = np.mean(mat, axis = 0)
        for i in range(dim1):
            new_mat += np.einsum('i, j -> ij', mat[i, :] - mat_bar, mat[i, :] - mat_bar)
        return new_mat *)
Definition cov_mat (mat : ndarray R) : option (ndarray R) :=
  match shape mat with
  | [dim1; dim2] =>
      mat_bar ← np_mean_axis0 mat;
      foldlM (λ new_mat i,
                row ← np_index 2 0 mat (Z.of_nat i);
                c1 ← np_sub row mat_bar;
                c2 ← np_sub row mat_bar;
                o ← np_einsum_i_j_ij c1 c2;
                np_iadd new_mat o)
             (np_zeros [dim2; dim2]) (seq 0 dim1)
  | _ => None
  end.

End Numeric.

End Np.

(** ** The sampler *)

Module Btmf.
Import Np.

Section Model.
Context `{Float R}.

(** Calls that leave the notebook: numpy.linalg, numpy.random, scipy.stats
    and the console. *)
Inductive call :=
| Linalg_inv (a : ndarray R)                 (** [inv(a)] *)
| Linalg_cholesky (a : ndarray R)            (** [np.linalg.cholesky(a)] *)
| Random_rand (d0 d1 : nat)                  (** [np.random.rand(d0, d1)]: uniform on [0, 1) *)
| Random_multivariate_normal (mean cov : ndarray R)   (** [mvnrnd(mean, cov)] *)
| Random_gamma (shape scale : R)             (** [np.random.gamma(shape, scale)] *)
| Wishart_rvs (df : Z) (scale : ndarray R)   (** [wishart(df, scale, seed = None).rvs()] *)
| Invwishart_rvs (df : Z) (scale : ndarray R)
| Print_iter (iter : Z) (rmse : R)           (** the progress lines *)
| Print_final (mape rmse : R).               (** the final summary *)

(** Whether a call consumes the random stream. *)
Definition is_draw (c : call) : bool :=
  match c with
  | Random_rand _ _ | Random_multivariate_normal _ _ | Random_gamma _ _
  | Wishart_rvs _ _ | Invwishart_rvs _ _ => true
  | _ => false
  end.

(** Mutable arrays live in a heap; a reference is a position in it. *)
Definition ref := nat.

Record world := World { heap : list (ndarray R); log : list call }.

(** The libraries: the answer to the [n]-th call, or an exception. *)
Variable lib : nat → call → option (ndarray R).

(** Computations: state passing over the world, [None] for an exception. *)
Definition M (X : Type) : Type := world → option X * world.

Definition ret {X} (x : X) : M X := λ w, (Some x, w).

Definition bind {X Y} (m : M X) (f : X → M Y) : M Y :=
  λ w, match m w with
       | (Some x, w') => f x w'
       | (None, w') => (None, w')
       end.

Definition lift {X} (o : option X) : M X := λ w, (o, w).

Definition call_lib (c : call) : M (ndarray R) :=
  λ w, (lib (length (log w)) c, World (heap w) (log w ++ [c])).

Definition emit (c : call) : M unit :=
  λ w, (Some (), World (heap w) (log w ++ [c])).

Definition alloc (a : ndarray R) : M ref :=
  λ w, (Some (length (heap w)), World (heap w ++ [a]) (log w)).

Definition load (r : ref) : M (ndarray R) := λ w, (heap w !! r, w).

Definition store (r : ref) (a : ndarray R) : M unit :=
  λ w, if r <? length (heap w) then (Some (), World (<[r := a]> (heap w)) (log w))
       else (None, w).


Global Instance M_ret : MRet M := @ret.
Global Instance M_bind : MBind M := λ X Y f m, bind m f.
Global Instance M_fmap : FMap M := λ X Y f m, bind m (λ x, ret (f x)).

Definition inv (a : ndarray R) : M (ndarray R) := call_lib (Linalg_inv a).

(** [for x in l: body(x)] *)
Fixpoint for_ {X} (l : list X) (body : X → M unit) : M unit :=
  match l with
  | [] => ret ()
  | x :: l' => body x;; for_ l' body
  end.

(** A loop that threads local variables through its body. *)
Fixpoint for_fold {X Y} (l : list X) (body : Y → X → M Y) (y : Y) : M Y :=
  match l with
  | [] => ret y
  | x :: l' => y' ← body y x; for_fold l' body y'
  end.

(** [acc += v] on a heap array. *)
Definition iadd_ref (acc : ref) (v : ndarray R) : M unit :=
  a ← load acc;
  a' ← lift (np_iadd a v);
  store acc a'.

(** The single element of the answer of a scalar-valued call. *)
Definition item (a : ndarray R) : option R :=
  if data a is [x] then Some x else None.

(** def mnrnd(M, U, V):
        dim1, dim2 = M.shape
        X0 = np.random.rand(dim1, dim2)
        P = np.linalg.cholesky(U)
        Q = np.linalg.cholesky(V)
        return M + np.matmul(np.matmul(P, X0), Q.T) *)
Definition mnrnd (M0 U V : ndarray R) : M (ndarray R) :=
  match shape M0 with
  | [dim1; dim2] =>
      X0 ← call_lib (Random_rand dim1 dim2);
      P ← call_lib (Linalg_cholesky U);
      Q ← call_lib (Linalg_cholesky V);
      QT ← lift (np_T Q);
      PX ← lift (np_matmul P X0);
      PXQ ← lift (np_matmul PX QT);
      lift (np_add M0 PXQ)
  | _ => lift None
  end.

(** *** BTMF *)

(** The dictionary [init], with its two keys. *)
Record init_dict := Init { init_W : ref; init_X : ref }.

Section BTMF.
Variables (dense_mat sparse_mat : ndarray R) (init : init_dict) (rank : nat)
          (time_lags : list Z) (maxiter1 maxiter2 : Z).

Let W : ref := init_W init.
Let X : ref := init_X init.
Let d : nat := length time_lags.

(** [beta0 = 1], [nu0 = rank], [alpha = 1e-6], [beta = 1e-6]. *)
Definition beta0 : Z := 1.
Definition nu0 : Z := Z.of_nat rank.
Definition alpha : R := of_Q (1 # 1000000).
Definition beta : R := of_Q (1 # 1000000).
Definition W0 : ndarray R := np_eye rank.
Definition S0 : ndarray R := np_eye rank.
Definition Psi0 : ndarray R := np_eye (rank * d).
Definition M0 : ndarray R := np_zeros [rank * d; rank].

(** [iters + 1 > maxiter1 - maxiter2] *)
Definition collecting (iters : nat) : bool :=
  (maxiter1 - maxiter2 <? Z.of_nat iters + 1)%Z.

Section Sweep.
Variables (dim1 dim2 : nat) (pos position : list (list nat)) (binary_mat : ndarray R).
Variables (W_plus X_new_plus A_plus mat_hat_plus : ref).

(** Lines 306-310: the Normal-Wishart update, returning
    [(var_mu_hyper, var_Lambda_hyper)]. *)
Definition sample_W_hyper : M (ndarray R * ndarray R) :=
  Wv ← load W;
  W_bar ← lift (np_mean_axis0 Wv);
  let var_mu_hyper :=
    np_div_scalar (np_scale (of_nat dim1) W_bar) (of_Z (Z.of_nat dim1 + beta0)) in
  iW0 ← inv W0;
  cW ← lift (cov_mat Wv);
  s1 ← lift (np_add iW0 cW);
  o ← lift (np_outer W_bar W_bar);
  s2 ← lift (np_add s1 (np_scale (fdiv (of_Z (Z.of_nat dim1 * beta0))
                                       (of_Z (Z.of_nat dim1 + beta0))) o));
  var_W_hyper ← inv s2;
  var_Lambda_hyper ← call_lib (Wishart_rvs (Z.of_nat dim1 + nu0) var_W_hyper);
  c ← inv (np_scale (of_Z (Z.of_nat dim1 + beta0)) var_Lambda_hyper);
  var_mu_hyper ← call_lib (Random_multivariate_normal var_mu_hyper c);
  mret (var_mu_hyper, var_Lambda_hyper).

(** Lines 316-318, one pass of [for i in range(dim1)]. *)
Definition sample_W_row (var3 var4 : ndarray R) (i : nat) : M unit :=
  P ← lift (np_index 3 2 var3 (Z.of_nat i));
  inv_var_Lambda ← inv P;
  c ← lift (np_index 2 1 var4 (Z.of_nat i));
  mean ← lift (np_matmul inv_var_Lambda c);
  row ← call_lib (Random_multivariate_normal mean inv_var_Lambda);
  Wv ← load W;
  Wv' ← lift (np_set_index 2 0 Wv (Z.of_nat i) row);
  store W Wv'.

(** Lines 306-318: the loading-matrix sampler. *)
Definition sample_W (tau : R) : M unit :=
  '(var_mu_hyper, var_Lambda_hyper) ← sample_W_hyper;
  Xv ← load X;
  var1 ← lift (np_T Xv);
  var2 ← lift (kr_prod var1 var1);
  bT ← lift (np_T binary_mat);
  m3 ← lift (np_matmul var2 bT);
  r3 ← lift (np_reshape m3 [Some rank; Some rank; Some dim1] order_C);
  ds3 ← lift (np_dstack (replicate dim1 var_Lambda_hyper));
  var3 ← lift (np_add (np_scale tau r3) ds3);
  sT ← lift (np_T sparse_mat);
  m4 ← lift (np_matmul var1 sT);
  lm ← lift (np_matmul var_Lambda_hyper var_mu_hyper);
  ds4 ← lift (np_dstack (replicate dim1 lm));
  ds40 ← lift (np_index 3 0 ds4 0);
  var4 ← lift (np_add (np_scale tau m4) ds40);
  for_ (seq 0 dim1) (sample_W_row var3 var4).

(** [X[t - time_lags, :].reshape([rank * d])] *)
Definition lagged_rows (Xv : ndarray R) (t : Z) : option (ndarray R) :=
  rows ← np_take_rows Xv ((λ l, t - l)%Z <$> time_lags);
  np_reshape rows [Some (rank * d)] order_C.

(** Lines 322-332: the Matrix-Normal-Inverse-Wishart update, returning
    [(Sigma, A)]. *)
Definition sample_A : M (ndarray R * ndarray R) :=
  Xv ← load X;
  mx ← lift (np_max time_lags);
  Z_mat ← lift (np_slice_rows Xv mx (Z.of_nat dim2));
  lift (guard (0 ≤ Z.of_nat dim2 - mx)%Z);;
  Q_mat ← lift (foldlM (λ Q_mat t,
                          v ← lagged_rows Xv t;
                          np_set_index 2 0 Q_mat (t - mx) v)
                       (np_zeros [Z.to_nat (Z.of_nat dim2 - mx); rank * d])
                       (seqZ mx (Z.of_nat dim2 - mx)));
  iPsi0 ← inv Psi0;
  QT ← lift (np_T Q_mat);
  QQ ← lift (np_matmul QT Q_mat);
  sPsi ← lift (np_add iPsi0 QQ);
  var_Psi ← inv sPsi;
  iPsi0 ← inv Psi0;
  pm ← lift (np_matmul iPsi0 M0);
  QZ ← lift (np_matmul QT Z_mat);
  sM ← lift (np_add pm QZ);
  var_M ← lift (np_matmul var_Psi sM);
  ZT ← lift (np_T Z_mat);
  ZZ ← lift (np_matmul ZT Z_mat);
  a1 ← lift (np_add S0 ZZ);
  M0T ← lift (np_T M0);
  iPsi0 ← inv Psi0;
  m1 ← lift (np_matmul M0T iPsi0);
  m2 ← lift (np_matmul m1 M0);
  a2 ← lift (np_add a1 m2);
  vMT ← lift (np_T var_M);
  ivPsi ← inv var_Psi;
  m3 ← lift (np_matmul vMT ivPsi);
  m4 ← lift (np_matmul m3 var_M);
  var_S ← lift (np_sub a2 m4);
  Sigma ← call_lib (Invwishart_rvs (nu0 + Z.of_nat dim2 - mx) var_S);
  mn ← mnrnd var_M var_Psi Sigma;
  mnT ← lift (np_T mn);
  A ← lift (mat2ten mnT [rank; rank; d] 0);
  mret (Sigma, A).

(** Lines 347-351: the lag indices [k] for which the body of
    [for k in index] runs at time step [t] (none when the outer test
    [t < dim2 - np.min(time_lags)] fails). *)
Definition forward_lags (t : Z) : option (list nat) :=
  mn ← np_min time_lags;
  mx ← np_max time_lags;
  if (t <? Z.of_nat dim2 - mn)%Z then
    if ((mx <=? t) && (t <? Z.of_nat dim2 - mx))%Z then Some (seq 0 d)
    else Some (List.filter
                 (λ k, if time_lags !! k is Some l
                       then ((mx <=? t + l) && (t + l <? Z.of_nat dim2))%Z else false)
                 (seq 0 d))
  else Some [].

(** Lines 341-346: the backward term [Qt]. *)
Definition backward_term (A Lambda_x : ndarray R) (t : Z) : M (ndarray R) :=
  mx ← lift (np_max time_lags);
  if (t <? mx)%Z then mret (np_zeros [rank])
  else
    A_unf ← lift (ten2mat A 0);
    Xv ← load X;
    v ← lift (lagged_rows Xv t);
    Av ← lift (np_matmul A_unf v);
    lift (np_matmul Lambda_x Av).

(** Lines 352-359: the body of [for k in index], updating [(Mt, Nt)]. *)
Definition forward_term (A Lambda_x : ndarray R) (t : Z)
    (MN : ndarray R * ndarray R) (k : nat) : M (ndarray R * ndarray R) :=
  let '(Mt, Nt) := MN in
  Ak ← lift (np_index 3 2 A (Z.of_nat k));
  AkT ← lift (np_T Ak);
  AL ← lift (np_matmul AkT Lambda_x);
  ALA ← lift (np_matmul AL Ak);
  Mt ← lift (np_iadd Mt ALA);
  A0 ← lift (np_set_index 3 2 (np_copy A) (Z.of_nat k) (np_scalar (of_Z 0)));
  lag ← lift (time_lags !! k);
  Xv ← load X;
  x1 ← lift (np_index 2 0 Xv (t + lag));
  A0_unf ← lift (ten2mat A0 0);
  v ← lift (lagged_rows Xv (t + lag));
  p ← lift (np_matmul A0_unf v);
  var5 ← lift (np_sub x1 p);
  AL ← lift (np_matmul AkT Lambda_x);
  n ← lift (np_matmul AL var5);
  Nt ← lift (np_iadd Nt n);
  mret (Mt, Nt).

(** Lines 360-364: the matrix handed to [inv] at time step [t]. *)
Definition temporal_precision (var3 Mt Lambda_x : ndarray R) (t : Z) : option (ndarray R) :=
  mx ← np_max time_lags;
  v3 ← np_index 3 2 var3 t;
  if (t <? mx)%Z then
    a ← np_add v3 Mt; b ← np_sub a Lambda_x; np_add b (np_eye rank)
  else np_add v3 Mt.

(** Lines 338-365, one pass of [for t in range(dim2)]. *)
Definition sample_X_row (A Lambda_x var3 var4 : ndarray R) (t : nat) : M unit :=
  let t := Z.of_nat t in
  Qt ← backward_term A Lambda_x t;
  index ← lift (forward_lags t);
  '(Mt, Nt) ← for_fold index (forward_term A Lambda_x t)
                       (np_zeros [rank; rank], np_zeros [rank]);
  c ← lift (np_index 2 1 var4 t);
  s ← lift (np_add c Nt);
  var_mu ← lift (np_add s Qt);
  P ← lift (temporal_precision var3 Mt Lambda_x t);
  inv_var_Lambda ← inv P;
  mean ← lift (np_matmul inv_var_Lambda var_mu);
  row ← call_lib (Random_multivariate_normal mean inv_var_Lambda);
  Xv ← load X;
  Xv' ← lift (np_set_index 2 0 Xv t row);
  store X Xv'.

(** Lines 333-365: the temporal latent-matrix sampler. *)
Definition sample_X (A Sigma : ndarray R) (tau : R) : M unit :=
  Lambda_x ← inv Sigma;
  Wv ← load W;
  var1 ← lift (np_T Wv);
  var2 ← lift (kr_prod var1 var1);
  m3 ← lift (np_matmul var2 binary_mat);
  r3 ← lift (np_reshape m3 [Some rank; Some rank; Some dim2] order_C);
  ds3 ← lift (np_dstack (replicate dim2 Lambda_x));
  var3 ← lift (np_add (np_scale tau r3) ds3);
  m4 ← lift (np_matmul var1 sparse_mat);
  let var4 := np_scale tau m4 in
  for_ (seq 0 dim2) (sample_X_row A Lambda_x var3 var4).

(** Lines 368-373: [X_new] in a collecting iteration. *)
Definition extend_X (Xv A : ndarray R) : option (ndarray R) :=
  X_new ← np_set_slice_rows (np_zeros [dim2 + 1; rank]) 0 (Z.of_nat dim2) (np_copy Xv);
  A_unf ← ten2mat A 0;
  v ← lagged_rows X_new (Z.of_nat dim2);
  r ← np_matmul A_unf v;
  np_set_index 2 0 X_new (Z.of_nat dim2) r.

(** Lines 375-376: the parameters of the Gamma draw for [tau]. *)
Definition tau_shape : R :=
  fadd alpha (fmul (of_Q (1 # 2)) (of_nat (length position))).

Definition tau_scale (mat_hat : ndarray R) : option R :=
  diff ← np_sub sparse_mat mat_hat;
  sel ← np_select diff position;
  Some (fdiv (of_Z 1) (fadd beta (fmul (of_Q (1 # 2)) (np_sum (np_square sel))))).

(** Line 377 *)
Definition rmse_of (mat_hat : ndarray R) : option R :=
  ds ← np_select dense_mat pos;
  ms ← np_select mat_hat pos;
  df ← np_sub ds ms;
  Some (fsqrt (fdiv (np_sum (np_square df)) (of_nat (length pos)))).

(** The local variables at the end of one pass of the main loop (for [W]
    and [X], the contents of the arrays). *)
Record sweep := Sweep {
  sw_W : ndarray R;
  sw_X : ndarray R;
  sw_A : ndarray R;
  sw_X_new : ndarray R;
  sw_mat_hat : ndarray R;
  sw_tau : R;
}.

(** Lines 305-381: one pass of [for iters in range(maxiter1)]. *)
Definition iteration (iters : nat) (tau : R) : M sweep :=
  sample_W tau;;
  (if collecting iters then Wv ← load W; iadd_ref W_plus Wv else mret ());;
  '(Sigma, A) ← sample_A;
  (if collecting iters then iadd_ref A_plus A else mret ());;
  sample_X A Sigma tau;;
  Wv ← load W;
  Xv ← load X;
  XT ← lift (np_T Xv);
  mat_hat ← lift (np_matmul Wv XT);
  X_new ← (if collecting iters then
             X_new ← lift (extend_X Xv A);
             iadd_ref X_new_plus X_new;;
             Wv ← load W;
             XnT ← lift (np_T X_new);
             WXn ← lift (np_matmul Wv XnT);
             iadd_ref mat_hat_plus WXn;;
             mret X_new
           else mret (np_zeros [dim2 + 1; rank]));
  sel ← lift (np_select sparse_mat position);
  scale ← lift (tau_scale mat_hat);
  g ← call_lib (Random_gamma tau_shape scale);
  tau ← lift (item g);
  rmse ← lift (rmse_of mat_hat);
  (if bool_decide ((Z.of_nat iters + 1) `mod` 200 = 0)%Z
      && (Z.of_nat iters <? maxiter1 - maxiter2)%Z
   then emit (Print_iter (Z.of_nat iters + 1) rmse) else mret ());;
  Wv ← load W;
  Xv ← load X;
  mret (Sweep Wv Xv A X_new mat_hat tau).

(** The main loop; the sweeps are returned in order. *)
Fixpoint iterations (its : list nat) (tau : R) : M (list sweep) :=
  match its with
  | [] => mret []
  | iters :: its' =>
      sw ← iteration iters tau;
      sws ← iterations its' (sw_tau sw);
      mret (sw :: sws)
  end.

End Sweep.

(** The four results, as references to the arrays returned. *)
Record outputs := Outputs {
  out_mat_hat : ref;
  out_W : ref;
  out_X_new : ref;
  out_A : ref;
}.

(** Lines 288-303: the arrays allocated before the loop. *)
Record accumulators := Accumulators {
  W_plus : ref;
  X_plus : ref;
  X_new_plus : ref;
  A_plus : ref;
  mat_hat_plus : ref;
}.

Definition allocate (dim1 dim2 : nat) : M accumulators :=
  W_plus ← alloc (np_zeros [dim1; rank]);
  X_plus ← alloc (np_zeros [dim2; rank]);
  X_new_plus ← alloc (np_zeros [dim2 + 1; rank]);
  A_plus ← alloc (np_zeros [rank; rank; d]);
  mat_hat_plus ← alloc (np_zeros [dim1; dim2 + 1]);
  mret (Accumulators W_plus X_plus X_new_plus A_plus mat_hat_plus).

(** Lines 383-394: the averages, and the final summary. *)
Definition finish (pos : list (list nat)) (acc : accumulators) : M outputs :=
  Wp ← load (W_plus acc);
  W ← alloc (np_div_scalar Wp (of_Z maxiter2));
  Xp ← load (X_new_plus acc);
  X_new ← alloc (np_div_scalar Xp (of_Z maxiter2));
  Ap ← load (A_plus acc);
  A ← alloc (np_div_scalar Ap (of_Z maxiter2));
  mp ← load (mat_hat_plus acc);
  let mat_hat_v := np_div_scalar mp (of_Z maxiter2) in
  mat_hat ← alloc mat_hat_v;
  (if (100 <=? maxiter1)%Z then
     ds ← lift (np_select dense_mat pos);
     ms ← lift (np_select mat_hat_v pos);
     df ← lift (np_sub ds ms);
     q ← lift (np_zip_with fdiv (np_map fabs df) ds);
     let final_mape := fdiv (np_sum q) (of_nat (length pos)) in
     let final_rmse := fsqrt (fdiv (np_sum (np_square df)) (of_nat (length pos))) in
     emit (Print_final final_mape final_rmse)
   else mret ());;
  mret (Outputs mat_hat W X_new A).

(** [pos = np.where((dense_mat != 0) & (sparse_mat == 0))] *)
Definition held_out : option (list (list nat)) :=
  np_where <$> np_zip_with (λ x y, fne0 x && negb (fne0 y)) dense_mat sparse_mat.

(** [position = np.where(sparse_mat != 0)] *)
Definition observed : list (list nat) := np_where (np_map fne0 sparse_mat).

(** Lines 276-394.  Besides the four results, the sweeps of the main loop
    are handed back so that statements can refer to them. *)
Definition BTMF_trace : M (outputs * list sweep) :=
  match shape sparse_mat with
  | [dim1; dim2] =>
      pos ← lift held_out;
      let position := observed in
      binary_mat ← lift (np_set_select (np_zeros [dim1; dim2]) position (of_Z 1));
      acc ← allocate dim1 dim2;
      sws ← iterations dim1 dim2 pos position binary_mat
                       (W_plus acc) (X_new_plus acc) (A_plus acc) (mat_hat_plus acc)
                       (seq 0 (Z.to_nat maxiter1)) (of_Z 1);
      out ← finish pos acc;
      mret (out, sws)
  | _ => lift None
  end.

Definition BTMF : M outputs := fst <$> BTMF_trace.

End BTMF.
End Model.

Arguments call R : clear implicits.
Arguments world R : clear implicits.
Arguments sweep R : clear implicits.

(** *** Vocabulary for statements about runs *)

Section Vocabulary.
Context `{Float R}.

(** A relation between the worlds before and after holds for every run of
    a computation, whatever its outcome. *)
Definition respects {X} (Rel : relation (world R)) (c : M X) : Prop :=
  ∀ w r w', c w = (r, w') → Rel w w'.

(** Computations that leave the world alone. *)
Definition pure {X} (c : M X) : Prop := respects eq c.

(** The world [w'] differs from [w] by writes to the references [rs] and
    by calls appended to the log; the heap has kept its size. *)
Definition extends (rs : list ref) (w w' : world R) : Prop :=
  length (heap w') = length (heap w) ∧
  (∀ r, r ∉ rs → heap w' !! r = heap w !! r) ∧
  ∃ l, log w' = log w ++ l.

Definition is_cholesky (c : call R) : bool :=
  if c is Linalg_cholesky _ then true else false.

(** The progress lines printed by pass [iters] (lines 378-381). *)
Definition progress_lines (maxiter1 maxiter2 : Z) (iters : nat) (rmse : R) : list (call R) :=
  if bool_decide ((Z.of_nat iters + 1) `mod` 200 = 0)%Z
     && (Z.of_nat iters <? maxiter1 - maxiter2)%Z
  then [Print_iter (Z.of_nat iters + 1) rmse] else [].

(** The running sum [acc += F sw] over a list of sweeps. *)
Definition accumulate (F : sweep R → option (ndarray R)) (a : ndarray R)
    (l : list (sweep R)) : option (ndarray R) :=
  foldlM (λ acc sw, v ← F sw; np_iadd acc v) a l.

(** The value [np.matmul(W, X_new.T)] of a sweep (line 373). *)
Definition sw_recon (sw : sweep R) : option (ndarray R) :=
  XnT ← np_T (sw_X_new sw); np_matmul (sw_W sw) XnT.

(** Row [i] of the array [a] is [row], broadcast to the row's shape. *)
Definition row_is (a : ndarray R) (i : nat) (row : ndarray R) : Prop :=
  ∀ idx, in_bounds (shape a) (i :: idx) = true →
         get a (i :: idx) = get row (bidx (shape row) idx).

(** Row [i] of the array at reference [r] is the answer of a
    multivariate-normal draw made at or after position [n0] of the log. *)
Definition row_drawn (lib : nat → call R → option (ndarray R))
    (r : ref) (n0 : nat) (w' : world R) (i : nat) : Prop :=
  ∃ n mean cov row a,
    n0 ≤ n ∧ log w' !! n = Some (Random_multivariate_normal mean cov) ∧
    lib n (Random_multivariate_normal mean cov) = Some row ∧
    heap w' !! r = Some a ∧ row_is a i row.

(** A loop body that draws a row and stores it at index [i] of the array
    at [r]. *)
Definition draws_row (lib : nat → call R → option (ndarray R))
    (r : ref) (body : nat → M unit) : Prop :=
  ∀ i w w', body i w = (Some (), w') →
    ∃ n mean cov row a a',
      length (log w) ≤ n ∧ log w' !! n = Some (Random_multivariate_normal mean cov) ∧
      lib n (Random_multivariate_normal mean cov) = Some row ∧
      heap w !! r = Some a ∧ np_set_index 2 0 a (Z.of_nat i) row = Some a' ∧
      heap w' !! r = Some a' ∧ ∃ l, log w' = log w ++ l.

(** What a pass does to an accumulator: [acc += v] if it collects. *)
Definition bump (b : bool) (v : option (ndarray R)) (o : option (ndarray R))
    : option (ndarray R) :=
  if b then a ← o; v' ← v; np_iadd a v' else o.

(** The sweeps of the passes [its] that took part in the averages. *)
Definition collected (maxiter1 maxiter2 : Z) (its : list nat) (sws : list (sweep R))
    : list (sweep R) :=
  snd <$> List.filter (λ p, collecting maxiter1 maxiter2 (fst p)) (zip its sws).

(** The log of [w'] is the log of [w] with calls appended. *)
Definition log_grows (w w' : world R) : Prop := ∃ l, log w' = log w ++ l.

(** Kinds of calls. *)
Definition is_progress (c : call R) : bool :=
  if c is Print_iter _ _ then true else false.

Definition is_summary (c : call R) : bool :=
  if c is Print_final _ _ then true else false.

Definition is_inv (c : call R) : bool :=
  if c is Linalg_inv _ then true else false.

(** The pass numbers on the progress lines of a log. *)
Definition printed_passes (l : list (call R)) : list Z :=
  omap (λ c, if c is Print_iter k _ then Some k else None) l.

(** The passes [iters + 1] at which line 378,
    [if (iters + 1) % 200 == 0 and iters < maxiter1 - maxiter2], holds. *)
Definition printing_passes (maxiter1 maxiter2 : Z) : list Z :=
  List.filter (λ k, bool_decide (k `mod` 200 = 0)%Z && (k - 1 <? maxiter1 - maxiter2)%Z)
              ((λ i, Z.of_nat i + 1)%Z <$> seq 0 (Z.to_nat maxiter1)).

(** Every successful run of [c] appends to the log exactly [k] calls of
    the kind [P]. *)
Definition adds {X} (P : call R → bool) (k : nat) (c : M X) : Prop :=
  ∀ w x w', c w = (Some x, w') →
    ∃ l, log w' = log w ++ l ∧ length (List.filter P l) = k.

(** Of a heap that holds at least [N] arrays, the first [N] are still
    there and unchanged, except for those at [rs]; the log has only grown. *)
Definition keeps (N : nat) (rs : list ref) (w w' : world R) : Prop :=
  N ≤ length (heap w) →
  N ≤ length (heap w') ∧
  (∀ r, r < N → r ∉ rs → heap w' !! r = heap w !! r) ∧
  ∃ l, log w' = log w ++ l.

(** The statements of the spec that the code is compared with.

    "Symmetrized as [(M + M^T)/2]": *)
Definition spec_symmetrize (m : ndarray R) : option (ndarray R) :=
  mT ← np_T m; s ← np_add m mT; Some (np_div_scalar s (of_Z 2)).

Definition spec_symmetrized (a : ndarray R) : Prop := ∃ m, spec_symmetrize m = Some a.

(** "Every conditional precision/covariance matrix is symmetrized before it
    is passed to matrix inversion or Cholesky factorization": in a log,
    every matrix handed to a Cholesky factorization, and every precision
    matrix inverted to obtain the covariance of the Gaussian draw that
    follows, is a symmetrized one. *)
Definition spec_factorizations_symmetrized (l : list (call R)) : Prop :=
  ∀ n a,
    l !! n = Some (Linalg_cholesky a) ∨
    (l !! n = Some (Linalg_inv a) ∧
     ∃ mean cov, l !! S n = Some (Random_multivariate_normal mean cov)) →
    spec_symmetrized a.

(** "A fatal error raised before any sampling step": the run started in [w]
    failed, and made no draw. *)
Definition spec_rejected_at_entry {X} (w : world R) (run : option X * world R) : Prop :=
  fst run = None ∧ List.filter is_draw (drop (length (log w)) (log (snd run))) = [].

End Vocabulary.
End Btmf.

(** ** A symbolic instance

    Floats as expression trees (no arithmetic law holds between distinct
    trees) and libraries that answer every well-shaped call with fresh
    symbols: element [pos] of the answer to call number [n] is [Out n pos].
    Runs of this instance show which operations the code performs, in which
    order, on which operands. *)

Module Sym.
Import Np Btmf.

Inductive fterm :=
| Const (q : Q)
| Out (call_no pos : nat)
| Add (x y : fterm)
| Sub (x y : fterm)
| Mul (x y : fterm)
| Div (x y : fterm)
| Sqrt (x : fterm)
| Abs (x : fterm).

Global Instance fterm_float : Float fterm := {
  of_Q := Const;
  fadd := Add;
  fsub := Sub;
  fmul := Mul;
  fdiv := Div;
  fsqrt := Sqrt;
  fabs := Abs;
  fne0 x := if x is Const q then negb (Qeq_bool q 0) else true;
}.

Definition answer (n : nat) (s : list nat) : ndarray fterm :=
  NDArray s (Out n <$> seq 0 (size_of s)).

(** Shapes accepted and returned by the libraries: [inv] and [cholesky]
    want a square matrix; [multivariate_normal] a vector and a matching
    square matrix; the Wishart samplers a square scale, and squeeze a
    1-by-1 draw to a scalar. *)
Definition sym_lib (n : nat) (c : call fterm) : option (ndarray fterm) :=
  match c with
  | Linalg_inv a | Linalg_cholesky a =>
      if shape a is [p; q] then if p =? q then Some (answer n [p; p]) else None else None
  | Random_rand d0 d1 => Some (answer n [d0; d1])
  | Random_multivariate_normal mean cov =>
      match shape mean, shape cov with
      | [p], [q; r] => if (p =? q) && (q =? r) then Some (answer n [p]) else None
      | _, _ => None
      end
  | Random_gamma _ _ => Some (answer n [])
  | Wishart_rvs df scale | Invwishart_rvs df scale =>
      if shape scale is [p; q]
      then if (p =? q) && (Z.of_nat p <=? df)%Z
           then Some (answer n (if p =? 1 then [] else [p; p])) else None
      else None
  | Print_iter _ _ | Print_final _ _ => None
  end.

(** Constant matrices, for concrete runs. *)
Definition matrix_of (rows : list (list Z)) : ndarray fterm :=
  NDArray [length rows; length (default [] (head rows))]
          ((λ z, Const (inject_Z z)) <$> concat rows).

(** *** A small data set

    Two series of three time steps, rank 2, one lag.  [sparse] hides two
    of the entries of [dense]; [W_init] and [X_init] are the caller's
    initial factors, at the references 0 and 1 of the heap. *)
Definition dense : ndarray fterm := matrix_of [[1; 2; 3]; [4; 0; 6]]%Z.
Definition sparse : ndarray fterm := matrix_of [[1; 0; 3]; [4; 0; 0]]%Z.
Definition W_init : ndarray fterm := matrix_of [[1; 1]; [1; 1]]%Z.
Definition X_init : ndarray fterm := matrix_of [[1; 1]; [1; 1]; [1; 1]]%Z.
Definition init : init_dict := Init 0 1.
Definition start : world fterm := World [W_init; X_init] [].

(** [BTMF(dense, sparse, init, 2, np.array([1]), 2, 1)] *)
Definition demo_run : option (outputs * list (sweep fterm)) * world fterm :=
  Eval vm_compute in BTMF_trace sym_lib dense sparse init 2 [1%Z] 2 1 start.

Definition demo_out : outputs :=
  Eval vm_compute in from_option fst (Outputs 0 0 0 0) (fst demo_run).
Definition demo_sweeps : list (sweep fterm) :=
  Eval vm_compute in from_option snd [] (fst demo_run).
Definition demo_end : world fterm := Eval vm_compute in snd demo_run.

(** An [init["X"]] with three columns where [rank = 2]. *)
Definition X_wide : ndarray fterm := matrix_of [[1; 1; 1]; [1; 1; 1]; [1; 1; 1]]%Z.
Definition start_wide : world fterm := World [W_init; X_wide] [].

(** The state after the allocations of lines 288-303, and one collecting
    pass ([iters = 1]) from it. *)
Definition held : list (list nat) := [[0; 1]; [1; 2]].
Definition binary : ndarray fterm := matrix_of [[1; 0; 1]; [1; 0; 0]]%Z.
Definition allocated : world fterm :=
  World [W_init; X_init; np_zeros [2; 2]; np_zeros [3; 2]; np_zeros [4; 2];
         np_zeros [2; 2; 1]; np_zeros [2; 4]] [].

Definition demo_pass : option (sweep fterm) * world fterm :=
  Eval vm_compute in
    iteration sym_lib dense sparse init 2 [1%Z] 2 1 2 3 held (observed sparse) binary
              2 4 5 6 1 (Const 1) allocated.
Definition demo_sweep : sweep fterm :=
  Eval vm_compute in
    default (Sweep W_init W_init W_init W_init W_init (Const 0)) (fst demo_pass).
Definition demo_pass_end : world fterm := Eval vm_compute in snd demo_pass.

(** The coefficient sampler alone, from the start. *)
Definition demo_A : option (ndarray fterm * ndarray fterm) * world fterm :=
  Eval vm_compute in sample_A sym_lib init 2 [1%Z] 3 start.
Definition demo_Sigma : ndarray fterm :=
  Eval vm_compute in from_option fst W_init (fst demo_A).
Definition demo_coef : ndarray fterm :=
  Eval vm_compute in from_option snd W_init (fst demo_A).
Definition demo_A_end : world fterm := Eval vm_compute in snd demo_A.

(** The hyperparameter update of the loading side, when [init["X"]] has
    the wrong number of columns. *)
Definition hyper_wide : option (ndarray fterm * ndarray fterm) * world fterm :=
  Eval vm_compute in sample_W_hyper sym_lib init 2 2 start_wide.
Definition hyper_wide_result : ndarray fterm * ndarray fterm :=
  Eval vm_compute in default (W_init, W_init) (fst hyper_wide).
Definition hyper_wide_end : world fterm := Eval vm_compute in snd hyper_wide.

(** Runs that ask for more collecting passes than passes, and for none. *)
Definition greedy_run : option (outputs * list (sweep fterm)) * world fterm :=
  Eval vm_compute in BTMF_trace sym_lib dense sparse init 2 [1%Z] 1 2 start.
Definition greedy_out : outputs :=
  Eval vm_compute in from_option fst (Outputs 0 0 0 0) (fst greedy_run).
Definition greedy_sweeps : list (sweep fterm) :=
  Eval vm_compute in from_option snd [] (fst greedy_run).
Definition greedy_end : world fterm := Eval vm_compute in snd greedy_run.

Definition idle_run : option (outputs * list (sweep fterm)) * world fterm :=
  Eval vm_compute in BTMF_trace sym_lib dense sparse init 2 [1%Z] 1 0 start.
Definition idle_out : outputs :=
  Eval vm_compute in from_option fst (Outputs 0 0 0 0) (fst idle_run).
Definition idle_sweeps : list (sweep fterm) :=
  Eval vm_compute in from_option snd [] (fst idle_run).
Definition idle_end : world fterm := Eval vm_compute in snd idle_run.

(** The state in which the run with the wide [init["X"]] stops. *)
Definition wide_end : world fterm :=
  Eval vm_compute in snd (BTMF sym_lib dense sparse init 2 [1%Z] 2 1 start_wide).

(** The operands of the notebook's demonstration of [kr_prod] (cell 5), a
    matrix without rows, and the mode-2 unfolding of [demo_tensor]. *)
Definition kr_A : ndarray fterm := matrix_of [[1; 2]; [3; 4]]%Z.
Definition kr_B : ndarray fterm := matrix_of [[5; 6]; [7; 8]; [9; 10]]%Z.
Definition no_rows : ndarray fterm := NDArray [0; 2] [].
Definition demo_unfolding : ndarray Z :=
  NDArray [2; 12] [1; 5; 9; 2; 6; 10; 3; 7; 11; 4; 8; 12;
                   3; 7; 11; 4; 8; 12; 5; 9; 13; 6; 10; 14]%Z.

(** [cov_mat] of the initial loading matrix. *)
Definition scatter_W : ndarray fterm :=
  Eval vm_compute in default W_init (cov_mat W_init).

(** The stacked lagged rows of [X_init] at [t = 0] for the lag 1. *)
Definition stacked_rows : ndarray fterm :=
  Eval vm_compute in default X_init (lagged_rows 2 [1%Z] X_init 0).

(** A tensor whose first axis is empty. *)
Definition empty_mode : ndarray Z := NDArray [0; 2; 3] [].

(** A matrix of six elements, to be folded with a negative mode. *)
Definition six : ndarray Z := NDArray [2; 3] [1; 2; 3; 4; 5; 6]%Z.

(** The inputs of [mnrnd(np.zeros((1, 1)), np.eye(1), np.eye(1))]. *)
Definition zero11 : ndarray fterm := np_zeros [1; 1].
Definition eye1 : ndarray fterm := np_eye 1.

End Sym.

(** ** Long runs

    Integer arithmetic in the place of floats, and libraries that answer
    with constant arrays of the right shape: enough for the control flow
    of a run of some hundred passes, which depends on the shapes and on
    the zero pattern of [sparse_mat] alone. *)

Module Ints.
Import Np Btmf.

Global Instance int_float : Float Z := {
  of_Q q := (Qnum q / Z.pos (Qden q))%Z;
  fadd := Z.add;
  fsub := Z.sub;
  fmul := Z.mul;
  fdiv := Z.div;
  fsqrt := Z.sqrt;
  fabs := Z.abs;
  fne0 x := negb (x =? 0)%Z;
}.

Definition ones (s : list nat) : ndarray Z := NDArray s (replicate (size_of s) 1%Z).

(** The shapes are those of [Sym.sym_lib]. *)
Definition int_lib (n : nat) (c : call Z) : option (ndarray Z) :=
  match c with
  | Linalg_inv a | Linalg_cholesky a =>
      if shape a is [p; q] then if p =? q then Some (np_eye p) else None else None
  | Random_rand d0 d1 => Some (ones [d0; d1])
  | Random_multivariate_normal mean cov =>
      match shape mean, shape cov with
      | [p], [q; r] => if (p =? q) && (q =? r) then Some (ones [p]) else None
      | _, _ => None
      end
  | Random_gamma _ _ => Some (ones [])
  | Wishart_rvs df scale | Invwishart_rvs df scale =>
      if shape scale is [p; q]
      then if (p =? q) && (Z.of_nat p <=? df)%Z
           then Some (if p =? 1 then ones [] else np_eye p) else None
      else None
  | Print_iter _ _ | Print_final _ _ => None
  end.

(** The data of [Sym.dense] and [Sym.sparse], and factors of ones. *)
Definition int_dense : ndarray Z := NDArray [2; 3] [1; 2; 3; 4; 0; 6]%Z.
Definition int_sparse : ndarray Z := NDArray [2; 3] [1; 0; 3; 4; 0; 0]%Z.
Definition int_start : world Z := World [ones [2; 2]; ones [3; 2]] [].

(** [BTMF(dense, sparse, init, 2, np.array([1]), 250, 50)] *)
Definition long_run : option (outputs * list (sweep Z)) * world Z :=
  Eval vm_compute in
    BTMF_trace int_lib int_dense int_sparse (Init 0 1) 2 [1%Z] 250 50 int_start.

Definition long_out : outputs :=
  Eval vm_compute in from_option fst (Outputs 0 0 0 0) (fst long_run).
Definition long_sweeps : list (sweep Z) :=
  Eval vm_compute in from_option snd [] (fst long_run).
Definition long_end : world Z := Eval vm_compute in snd long_run.

End Ints.

(** * Properties *)

Import Np Btmf.

(** ** Recorded outputs of the notebook *)

Example ten2mat_demo_mode1 :
  ten2mat demo_tensor 0 =
  Some (NDArray [3; 8] [1; 3; 2; 4; 3; 5; 4; 6;
                        5; 7; 6; 8; 7; 9; 8; 10;
                        9; 11; 10; 12; 11; 13; 12; 14]%Z).
Proof. reflexivity. Qed.

Example ten2mat_demo_mode2 :
  ten2mat demo_tensor 1 =
  Some (NDArray [2; 12] [1; 5; 9; 2; 6; 10; 3; 7; 11; 4; 8; 12;
                         3; 7; 11; 4; 8; 12; 5; 9; 13; 6; 10; 14]%Z).
Proof. reflexivity. Qed.

Example ten2mat_demo_mode3 :
  ten2mat demo_tensor 2 =
  Some (NDArray [4; 6] [1; 5; 9; 3; 7; 11;
                        2; 6; 10; 4; 8; 12;
                        3; 7; 11; 5; 9; 13;
                        4; 8; 12; 6; 10; 14]%Z).
Proof. reflexivity. Qed.

(** ** Arrays: indexing, reshaping, unfolding *)

Section ArrayLemmas.
Context {A : Type}.
Implicit Types a b : ndarray A.
Implicit Types f g : list nat → option A.

Lemma fmap_bind_list {X Y Z} (f : Y → Z) (g : X → list Y) (l : list X) :
  f <$> (l ≫= g) = l ≫= (λ x, f <$> g x).
Proof. induction l as [|x l IH]; [done|]. by rewrite !bind_cons, fmap_app, IH. Qed.

Lemma bind_seq_block (P start n : nat) :
  (i ← seq start n; (λ j, i * P + j) <$> seq 0 P) = seq (start * P) (n * P).
Proof.
  revert start. induction n as [|n IH]; intros start; [done|].
  cbn [seq]. rewrite bind_cons, IH, fmap_add_seq, Nat.add_0_r.
  replace (S n * P) with (P + n * P) by lia.
  rewrite seq_app. do 2 f_equal. lia.
Qed.

Lemma ravel_indices s : ravel s <$> indices s = seq 0 (size_of s).
Proof.
  induction s as [|n s IH]; [done|].
  cbn [indices size_of foldr]. rewrite fmap_bind_list.
  etrans; [|apply (bind_seq_block (foldr Nat.mul 1 s) 0 n)].
  apply list_bind_ext; [|done]. intros i.
  rewrite <- list_fmap_compose. change (foldr Nat.mul 1 s) with (size_of s).
  rewrite <- IH, <- list_fmap_compose. done.
Qed.

Lemma length_indices s : length (indices s) = size_of s.
Proof. by rewrite <- (length_fmap (ravel s)), ravel_indices, length_seq. Qed.

Lemma elem_of_indices s idx : idx ∈ indices s ↔ in_bounds s idx = true.
Proof.
  revert idx. induction s as [|n s IH]; intros idx; simpl.
  - rewrite list_elem_of_singleton. destruct idx; naive_solver.
  - rewrite list_elem_of_bind. split.
    + intros (i & Hin & Hi). apply list_elem_of_fmap in Hin as (idx' & -> & Hin).
      apply elem_of_seq in Hi. apply IH in Hin. rewrite Hin.
      rewrite andb_true_r. apply Nat.ltb_lt. lia.
    + destruct idx as [|i idx']; [done|]. intros [Hi Hb]%andb_true_iff.
      apply Nat.ltb_lt in Hi. exists i. split.
      * apply list_elem_of_fmap. exists idx'. split; [done|]. by apply IH.
      * apply elem_of_seq. lia.
Qed.

Lemma indices_lookup_ravel s idx :
  in_bounds s idx = true → indices s !! ravel s idx = Some idx.
Proof.
  intros Hb. apply elem_of_indices, list_elem_of_lookup in Hb as [i Hi].
  assert (i = ravel s idx) as <-; [|done].
  pose proof (ravel_indices s) as Hr.
  apply (f_equal (.!! i)) in Hr. rewrite list_lookup_fmap, Hi in Hr. simpl in Hr.
  symmetry in Hr. apply lookup_seq in Hr. lia.
Qed.

Lemma ravel_lt s idx : in_bounds s idx = true → ravel s idx < size_of s.
Proof.
  intros Hb. apply indices_lookup_ravel, lookup_lt_Some in Hb.
  by rewrite length_indices in Hb.
Qed.

Lemma indices_lookup_inv s i idx : indices s !! i = Some idx → ravel s idx = i ∧ in_bounds s idx = true.
Proof.
  intros Hi. pose proof (ravel_indices s) as Hr.
  apply (f_equal (.!! i)) in Hr. rewrite list_lookup_fmap, Hi in Hr. simpl in Hr.
  symmetry in Hr. apply lookup_seq in Hr. split; [lia|].
  apply elem_of_indices, list_elem_of_lookup. eauto.
Qed.

Lemma get_in_bounds a idx :
  in_bounds (shape a) idx = true → get a idx = data a !! ravel (shape a) idx.
Proof. unfold get. by intros ->. Qed.

Lemma get_is_Some a idx : wf a → in_bounds (shape a) idx = true → is_Some (get a idx).
Proof.
  intros Hwf Hb. rewrite get_in_bounds by done. apply lookup_lt_is_Some.
  rewrite Hwf. by apply ravel_lt.
Qed.

(** What [tabulate] builds. *)
Lemma tabulate_spec s f a :
  tabulate s f = Some a →
  shape a = s ∧ wf a ∧ ∀ idx, in_bounds s idx = true → get a idx = f idx.
Proof.
  unfold tabulate. intros Ht. destruct (mapM f (indices s)) as [d|] eqn:Hd; [|done].
  simplify_eq/=. split; [done|]. split.
  - unfold wf. simpl. by rewrite <- (length_mapM _ _ _ Hd), length_indices.
  - intros idx Hb. rewrite get_in_bounds by done. simpl.
    apply mapM_Some_1 in Hd.
    destruct (Forall2_lookup_l _ _ _ _ _ Hd (indices_lookup_ravel _ _ Hb)) as (y & Hy & Hf).
    by rewrite Hy, Hf.
Qed.

Lemma tabulate_total s f :
  (∀ idx, in_bounds s idx = true → is_Some (f idx)) → is_Some (tabulate s f).
Proof.
  intros Hf. unfold tabulate.
  assert (is_Some (mapM f (indices s))) as [d Hd].
  2:{ rewrite Hd. simpl. by eexists. }
  apply mapM_is_Some_2, Forall_forall. intros idx Hin. unfold compose.
  apply Hf. by apply elem_of_indices.
Qed.

Lemma tabulate_ext s f g :
  (∀ idx, in_bounds s idx = true → f idx = g idx) → tabulate s f = tabulate s g.
Proof.
  intros Hfg. unfold tabulate. f_equal. apply Forall_mapM_ext, Forall_forall.
  intros idx Hin. by apply Hfg, elem_of_indices.
Qed.

Lemma tabulate_get a : wf a → tabulate (shape a) (get a) = Some a.
Proof.
  intros Hwf. unfold tabulate.
  rewrite (mapM_Some_2 (get a) (indices (shape a)) (data a)); [by destruct a|].
  apply Forall2_same_length_lookup. split; [by rewrite length_indices|].
  intros i idx y Hi Hy. apply indices_lookup_inv in Hi as [<- Hb].
  by rewrite get_in_bounds.
Qed.

(** Arrays are determined by their shape and their elements. *)
Lemma tabulate_eq_Some s f a :
  wf a → shape a = s → (∀ idx, in_bounds s idx = true → f idx = get a idx) →
  tabulate s f = Some a.
Proof. intros Hwf <- Hf. rewrite <- (tabulate_get a Hwf). by apply tabulate_ext. Qed.


(** *** Fortran-order offsets *)

Lemma size_of_cons n s : size_of (n :: s) = n * size_of s.
Proof. done. Qed.

Lemma in_bounds_cons n s i idx :
  in_bounds (n :: s) (i :: idx) = true ↔ i < n ∧ in_bounds s idx = true.
Proof. simpl. rewrite andb_true_iff, Nat.ltb_lt. done. Qed.

Lemma in_bounds_unravel_F s m : m < size_of s → in_bounds s (unravel_F s m) = true.
Proof.
  revert m. induction s as [|n s IH]; intros m Hm; [done|].
  rewrite size_of_cons in Hm. cbn [unravel_F]. apply in_bounds_cons. split.
  - apply Nat.mod_upper_bound. lia.
  - apply IH, Nat.Div0.div_lt_upper_bound. lia.
Qed.

Lemma ravel_F_unravel_F s m : m < size_of s → ravel_F s (unravel_F s m) = m.
Proof.
  revert m. induction s as [|n s IH]; intros m Hm.
  - simpl in *. lia.
  - rewrite size_of_cons in Hm. cbn [unravel_F ravel_F].
    rewrite IH by (apply Nat.Div0.div_lt_upper_bound; lia).
    pose proof (Nat.div_mod_eq m n). lia.
Qed.

Lemma unravel_F_ravel_F s idx :
  in_bounds s idx = true → unravel_F s (ravel_F s idx) = idx.
Proof.
  revert idx. induction s as [|n s IH]; intros [|i idx] Hb; try done.
  apply in_bounds_cons in Hb as [Hi Hb]. cbn [unravel_F ravel_F]. f_equal.
  - rewrite (Nat.mul_comm n), Nat.Div0.mod_add. by apply Nat.mod_small.
  - rewrite (Nat.mul_comm n), Nat.div_add by lia.
    rewrite Nat.div_small by done. simpl. by apply IH.
Qed.

Lemma ravel_F_lt s idx : in_bounds s idx = true → ravel_F s idx < size_of s.
Proof.
  revert idx. induction s as [|n s IH]; intros [|i idx] Hb; try done.
  - simpl. lia.
  - apply in_bounds_cons in Hb as [Hi Hb]. specialize (IH _ Hb).
    rewrite size_of_cons. cbn [ravel_F]. nia.
Qed.

(** *** reshape *)

Lemma size_of_fill (ns : list dim) u :
  size_of (from_option id u <$> ns) =
  size_of (omap id ns) * u ^ length (List.filter is_unknown ns).
Proof.
  induction ns as [|[n|] ns IH]; [done| |].
  - rewrite fmap_cons, size_of_cons, IH.
    change (omap id (Some n :: ns)) with (n :: omap id ns).
    rewrite size_of_cons. cbn [from_option id List.filter is_unknown].
    apply Nat.mul_assoc.
  - rewrite fmap_cons, size_of_cons, IH.
    change (omap id (None :: ns)) with (omap id ns).
    cbn [from_option id List.filter is_unknown length Nat.pow].
    rewrite !Nat.mul_assoc. f_equal. apply Nat.mul_comm.
Qed.

Lemma fix_unknown_dimension_size ns size s' :
  fix_unknown_dimension ns size = Some s' → size_of s' = size.
Proof.
  unfold fix_unknown_dimension.
  destruct (length (List.filter _ ns)) as [|[|c]] eqn:Hc; [| |done].
  - destruct (_ =? _) eqn:He; [|done]. intros [= <-]. by apply Nat.eqb_eq.
  - destruct (_ || _) eqn:He; [done|]. intros [= <-].
    apply orb_false_iff in He as [Hk Hm].
    apply Nat.eqb_neq in Hk. apply negb_false_iff, Nat.eqb_eq in Hm.
    rewrite size_of_fill, Hc. simpl.
    pose proof (Nat.div_mod_eq size (size_of (omap id ns))). lia.
Qed.

Lemma fix_unknown_dimension_known s size :
  size_of s = size → fix_unknown_dimension (Some <$> s) size = Some s.
Proof.
  intros Hs. unfold fix_unknown_dimension.
  assert (omap id (Some <$> s) = s) as ->.
  { clear Hs. induction s as [|n s IH]; [done|].
    change (omap id (Some <$> n :: s)) with (n :: omap id (Some <$> s)). by rewrite IH. }
  assert (List.filter is_unknown (Some <$> s) = []) as ->.
  { clear Hs. induction s as [|n s IH]; [done|]. apply IH. }
  simpl. by rewrite (proj2 (Nat.eqb_eq _ _) Hs).
Qed.

Lemma np_reshape_F_spec a ns b :
  np_reshape a ns order_F = Some b →
  size_of (shape b) = size_of (shape a) ∧ wf b ∧
  fix_unknown_dimension ns (size_of (shape a)) = Some (shape b) ∧
  ∀ idx, in_bounds (shape b) idx = true →
         get b idx = get a (unravel_F (shape a) (ravel_F (shape b) idx)).
Proof.
  unfold np_reshape. intros Hr.
  destruct (fix_unknown_dimension _ _) as [s'|] eqn:Hs; [|done]. simpl in Hr.
  apply tabulate_spec in Hr as (Hshape & Hwf & Hget). subst s'.
  split; [by apply fix_unknown_dimension_size in Hs|]. done.
Qed.

(** Reshaping in Fortran order and reshaping back to the first shape, in
    Fortran order again, gives the array back. *)
Lemma np_reshape_F_inv a ns b :
  wf a → np_reshape a ns order_F = Some b →
  np_reshape b (Some <$> shape a) order_F = Some a.
Proof.
  intros Hwf (Hsize & Hwfb & _ & Hget)%np_reshape_F_spec.
  unfold np_reshape. rewrite fix_unknown_dimension_known by done. simpl.
  apply tabulate_eq_Some; [done..|]. intros idx Hb.
  pose proof (ravel_F_lt _ _ Hb) as Hlt. rewrite <- Hsize in Hlt.
  rewrite Hget by by apply in_bounds_unravel_F.
  by rewrite ravel_F_unravel_F, unravel_F_ravel_F.
Qed.


(** *** transpose and moveaxis *)

Lemma np_transpose_spec a axes b :
  np_transpose a axes = Some b →
  mapM (λ ax, shape a !! ax) axes = Some (shape b) ∧ wf b ∧
  ∀ idx, in_bounds (shape b) idx = true →
         get b idx = get a (scatter (length (shape a)) axes idx).
Proof.
  unfold np_transpose. intros Ht.
  destruct (mapM _ axes) as [s'|] eqn:Hs; [|done]. simpl in Ht.
  apply tabulate_spec in Ht as (<- & Hwf & Hget). done.
Qed.

Lemma in_bounds3 n0 n1 n2 idx :
  in_bounds [n0; n1; n2] idx = true →
  ∃ i j k, idx = [i; j; k] ∧ i < n0 ∧ j < n1 ∧ k < n2.
Proof.
  intros H. destruct idx as [|i [|j [|k [|]]]]; simpl in H;
    rewrite ?andb_false_r in H; try done.
  rewrite !andb_true_iff, !Nat.ltb_lt in H. destruct H as (? & ? & ? & _).
  by exists i, j, k.
Qed.

Lemma in_bounds3_intro n0 n1 n2 i j k :
  i < n0 → j < n1 → k < n2 → in_bounds [n0; n1; n2] [i; j; k] = true.
Proof. intros. simpl. rewrite !andb_true_iff, !Nat.ltb_lt. done. Qed.

(** Moving an axis of a 3-way array to the front and back again. *)
Lemma np_moveaxis3_inv a m b :
  wf a → length (shape a) = 3 → np_moveaxis a m 0 = Some b →
  np_moveaxis b 0 m = Some a ∧ wf b ∧
  mapM (λ i, shape a !! i) (m :: List.filter (λ i, negb (i =? m)) (seq 0 3)) = Some (shape b).
Proof.
  intros Hwf Hlen Hm. unfold np_moveaxis in Hm. rewrite Hlen in Hm.
  destruct (shape a) as [|n0 [|n1 [|n2 [|]]]] eqn:Hsa; try done.
  destruct m as [|[|[|m]]]; [| | |done]; cbn -[np_transpose] in Hm;
    apply np_transpose_spec in Hm as (Hsb & Hwfb & Hget);
    rewrite Hsa in Hsb, Hget; cbn in Hsb; injection Hsb as Hsb;
    (split; [|split; [done|by rewrite <- Hsb]]);
    unfold np_moveaxis, np_transpose; rewrite <- Hsb in Hget |- *;
    cbn -[tabulate get scatter]; rewrite <- Hsa;
    (apply tabulate_eq_Some; [done|done|]); rewrite Hsa;
    intros idx (i & j & k & -> & Hi & Hj & Hk)%in_bounds3; cbn -[get];
    (rewrite Hget by by apply in_bounds3_intro); done.
Qed.

Lemma np_moveaxis3_total a m :
  wf a → length (shape a) = 3 → m < 3 → is_Some (np_moveaxis a m 0).
Proof.
  intros Hwf Hlen Hm. unfold np_moveaxis, np_transpose. rewrite Hlen.
  destruct (shape a) as [|n0 [|n1 [|n2 [|]]]] eqn:Hsa; try done.
  destruct m as [|[|[|m]]]; [| | |lia]; cbn -[tabulate get scatter];
    apply tabulate_total;
    intros idx (i & j & k & -> & Hi & Hj & Hk)%in_bounds3; cbn -[get];
    apply get_is_Some; [done| |done| |done|]; rewrite Hsa;
    by apply in_bounds3_intro.
Qed.

Lemma np_reshape_F_total a ns s' :
  wf a → fix_unknown_dimension ns (size_of (shape a)) = Some s' →
  is_Some (np_reshape a ns order_F).
Proof.
  intros Hwf Hs. unfold np_reshape. rewrite Hs. simpl.
  apply tabulate_total. intros idx Hb. apply get_is_Some; [done|].
  apply in_bounds_unravel_F. rewrite <- (fix_unknown_dimension_size _ _ _ Hs).
  by apply ravel_F_lt.
Qed.

Lemma fix_unknown_dimension_rows n size :
  n ≠ 0 → size `mod` n = 0 →
  fix_unknown_dimension [Some n; None] size = Some [n; size `div` n].
Proof.
  intros Hn Hmod. unfold fix_unknown_dimension. cbn.
  rewrite Nat.mul_1_r, Hmod. by destruct n.
Qed.

(** C4, for tensors whose unfolded axis is not empty.  For every 3-way
    tensor [T] and every mode [m] in {0, 1, 2} with [shape(T)[m] = n > 0],
    [ten2mat(T, m)] is a matrix with [n] rows and
    [mat2ten(ten2mat(T, m), shape(T), m)] is [T] itself. *)
Theorem mat2ten_ten2mat (T : ndarray A) (m n : nat) :
  wf T → length (shape T) = 3 → shape T !! m = Some n → n ≠ 0 →
  ∃ M, ten2mat T m = Some M ∧
       shape M = [n; size_of (shape T) `div` n] ∧
       mat2ten M (shape T) m = Some T.
Proof.
  intros Hwf Hlen Hn Hn0.
  assert (m < 3) as Hm by (apply lookup_lt_Some in Hn; lia).
  destruct (np_moveaxis3_total T m Hwf Hlen Hm) as [moved Hmoved].
  destruct (np_moveaxis3_inv _ _ _ Hwf Hlen Hmoved) as (Hback & Hwfm & Hsm).
  unfold ten2mat, mat2ten. rewrite Hmoved, Hn, Hlen. cbn [mbind option_bind].
  assert (size_of (shape moved) = size_of (shape T) ∧
          size_of (shape moved) `mod` n = 0) as [Hsize Hmod].
  { destruct (shape T) as [|n0 [|n1 [|n2 [|]]]]; try done.
    destruct m as [|[|[|m]]]; [| | |lia]; cbn in Hsm, Hn;
      injection Hsm as <-; injection Hn as ->; cbn;
      (split; [lia|]); rewrite (Nat.mul_comm n); apply Nat.Div0.mod_mul. }
  pose proof (fix_unknown_dimension_rows n _ Hn0 Hmod) as Hfix.
  destruct (np_reshape_F_total moved _ _ Hwfm Hfix) as [M HM].
  exists M. split; [done|].
  pose proof (np_reshape_F_inv _ _ _ Hwfm HM) as Hinv.
  apply np_reshape_F_spec in HM as (_ & _ & Hfix' & _).
  rewrite Hfix in Hfix'. injection Hfix' as <-. rewrite Hsize. split; [done|].
  rewrite Hsm. cbn [mbind option_bind]. by rewrite Hinv.
Qed.

End ArrayLemmas.

(** ** The forward lags *)

Lemma foldl_max_spec l x :
  (x ≤ foldl Z.max x l)%Z ∧ (∀ y, y ∈ l → y ≤ foldl Z.max x l)%Z ∧
  (foldl Z.max x l = x ∨ foldl Z.max x l ∈ l).
Proof.
  revert x. induction l as [|z l IH]; intros x; simpl.
  - split; [lia|]. split; [|by left]. intros y Hy. by apply elem_of_nil in Hy.
  - destruct (IH (Z.max x z)) as (H1 & H2 & H3). split; [lia|]. split.
    + intros y [->|Hy]%elem_of_cons; [lia|by apply H2].
    + destruct H3 as [H3|H3]; [|right; by constructor].
      rewrite H3. destruct (Z.max_spec x z) as [[_ ->]|[_ ->]]; [right; constructor|by left].
Qed.

Lemma foldl_min_spec l x :
  (foldl Z.min x l ≤ x)%Z ∧ (∀ y, y ∈ l → foldl Z.min x l ≤ y)%Z ∧
  (foldl Z.min x l = x ∨ foldl Z.min x l ∈ l).
Proof.
  revert x. induction l as [|z l IH]; intros x; simpl.
  - split; [lia|]. split; [|by left]. intros y Hy. by apply elem_of_nil in Hy.
  - destruct (IH (Z.min x z)) as (H1 & H2 & H3). split; [lia|]. split.
    + intros y [->|Hy]%elem_of_cons; [lia|by apply H2].
    + destruct H3 as [H3|H3]; [|right; by constructor].
      rewrite H3. destruct (Z.min_spec x z) as [[_ ->]|[_ ->]]; [by left|right; constructor].
Qed.

Lemma np_max_spec l m :
  np_max l = Some m → m ∈ l ∧ ∀ y, y ∈ l → (y ≤ m)%Z.
Proof.
  destruct l as [|x l]; [done|]. intros [= <-].
  destruct (foldl_max_spec l x) as (H1 & H2 & H3). split.
  - destruct H3 as [->|H3]; [constructor|by constructor].
  - intros y [->|Hy]%elem_of_cons; [done|by apply H2].
Qed.

Lemma np_min_spec l m :
  np_min l = Some m → m ∈ l ∧ ∀ y, y ∈ l → (m ≤ y)%Z.
Proof.
  destruct l as [|x l]; [done|]. intros [= <-].
  destruct (foldl_min_spec l x) as (H1 & H2 & H3). split.
  - destruct H3 as [->|H3]; [constructor|by constructor].
  - intros y [->|Hy]%elem_of_cons; [done|by apply H2].
Qed.

Lemma np_min_is_Some l : l ≠ [] → is_Some (np_min l).
Proof. destruct l; [done|]. by eexists. Qed.

(** At time step [t] (with [0 <= t < dim2]) the list [index] holds the lag
    index [k] exactly when [max(time_lags) <= t + time_lags[k] < dim2], and at
    most once, for lags that are not negative. *)
Lemma forward_lags_rule (time_lags : list Z) (dim2 : nat) (t : Z) (k : nat) (lag mx : Z) :
  (∀ l, l ∈ time_lags → 0 ≤ l)%Z →
  (0 ≤ t < Z.of_nat dim2)%Z →
  time_lags !! k = Some lag →
  np_max time_lags = Some mx →
  ∃ index, forward_lags time_lags dim2 t = Some index ∧ NoDup index ∧
           (k ∈ index ↔ (mx ≤ t + lag < Z.of_nat dim2)%Z).
Proof.
  intros Hpos Ht Hk Hmx. unfold forward_lags. rewrite Hmx.
  destruct (np_min_is_Some time_lags) as [mn Hmn]; [by intros ->|]. rewrite Hmn. simpl.
  apply np_max_spec in Hmx as [_ Hmax]. apply np_min_spec in Hmn as [Hmin_in Hmin].
  assert (lag ∈ time_lags) as Hlag by (by eapply list_elem_of_lookup_2).
  pose proof (Hmax _ Hlag). pose proof (Hmin _ Hlag). pose proof (Hpos _ Hlag).
  assert (k < length time_lags) as Hklt by (by eapply lookup_lt_Some).
  destruct (Z.ltb_spec t (Z.of_nat dim2 - mn)) as [Hgate|Hgate].
  - destruct (Z.leb_spec mx t) as [Hlo|Hlo]; simpl.
    + destruct (Z.ltb_spec t (Z.of_nat dim2 - mx)) as [Hhi|Hhi].
      * eexists. split; [done|]. split; [apply NoDup_seq|].
        rewrite elem_of_seq. split; [lia|]. intros _. lia.
      * eexists. split; [done|]. split; [apply NoDup_ListNoDup, List.NoDup_filter, NoDup_ListNoDup, NoDup_seq|].
        rewrite list_elem_of_In, List.filter_In, <- list_elem_of_In, elem_of_seq, Hk.
        rewrite andb_true_iff, Z.leb_le, Z.ltb_lt. split; [lia|]. intros ?. split; lia.
    + eexists. split; [done|]. split; [apply NoDup_ListNoDup, List.NoDup_filter, NoDup_ListNoDup, NoDup_seq|].
      rewrite list_elem_of_In, List.filter_In, <- list_elem_of_In, elem_of_seq, Hk.
      rewrite andb_true_iff, Z.leb_le, Z.ltb_lt. split; [lia|]. intros ?. split; lia.
  - eexists. split; [done|]. split; [constructor|].
    split; [by intros ?%elem_of_nil|]. lia.
Qed.

Lemma filter_all {B} (f : B → bool) (l : list B) :
  (∀ x, x ∈ l → f x = true) → List.filter f l = l.
Proof.
  induction l as [|x l IH]; [done|]. intros Hf. cbn.
  rewrite (Hf x) by left. f_equal. apply IH. intros y Hy. apply Hf. by right.
Qed.

Lemma filter_none {B} (f : B → bool) (l : list B) :
  (∀ x, x ∈ l → f x = false) → List.filter f l = [].
Proof.
  induction l as [|x l IH]; [done|]. intros Hf. cbn.
  rewrite (Hf x) by left. apply IH. intros y Hy. apply Hf. by right.
Qed.

(** The three branches of lines 347-351 build one and the same list: the
    lag indices that satisfy the rule, in increasing order. *)
Lemma forward_lags_filter (time_lags : list Z) (dim2 : nat) (t mx : Z) :
  (∀ l, l ∈ time_lags → 0 ≤ l)%Z →
  (0 ≤ t < Z.of_nat dim2)%Z →
  np_max time_lags = Some mx →
  forward_lags time_lags dim2 t =
  Some (List.filter (λ k, if time_lags !! k is Some lag
                          then ((mx <=? t + lag) && (t + lag <? Z.of_nat dim2))%Z
                          else false)
                    (seq 0 (length time_lags))).
Proof.
  intros Hpos Ht Hmx. unfold forward_lags. rewrite Hmx.
  destruct (np_min_is_Some time_lags) as [mn Hmn]; [by intros ->|]. rewrite Hmn. simpl.
  apply np_max_spec in Hmx as [_ Hmax]. apply np_min_spec in Hmn as [Hmin_in Hmin].
  destruct (Z.ltb_spec t (Z.of_nat dim2 - mn)) as [Hgate|Hgate].
  - destruct (Z.leb_spec mx t) as [Hlo|Hlo]; simpl; [|done].
    destruct (Z.ltb_spec t (Z.of_nat dim2 - mx)) as [Hhi|Hhi]; [|done].
    f_equal. symmetry. apply filter_all. intros k Hk%elem_of_seq.
    destruct (time_lags !! k) as [lag|] eqn:Hlag.
    + assert (lag ∈ time_lags) as Hin by (by eapply list_elem_of_lookup_2).
      pose proof (Hmax _ Hin). pose proof (Hpos _ Hin).
      apply andb_true_iff. rewrite Z.leb_le, Z.ltb_lt. lia.
    + apply lookup_ge_None in Hlag. lia.
  - f_equal. symmetry. apply filter_none. intros k Hk%elem_of_seq.
    destruct (time_lags !! k) as [lag|] eqn:Hlag; [|done].
    assert (lag ∈ time_lags) as Hin by (by eapply list_elem_of_lookup_2).
    pose proof (Hmin _ Hin). apply andb_false_iff. right. apply Z.ltb_ge. lia.
Qed.

(** ** Reasoning about computations *)

Section Monad.
Context `{Float R} (lib : nat → call R → option (ndarray R)).
Implicit Types w : world R.

Lemma M_bind_Some {X Y} (m : M X) (f : X → M Y) w y w' :
  (m ≫= f) w = (Some y, w') ↔ ∃ x w1, m w = (Some x, w1) ∧ f x w1 = (Some y, w').
Proof.
  unfold mbind, M_bind, bind. destruct (m w) as [[x|] w1]; split.
  - eauto.
  - by intros (? & ? & [= <- <-] & ?).
  - done.
  - by intros (? & ? & ? & ?).
Qed.

Lemma M_bind_None {X Y} (m : M X) (f : X → M Y) w w' :
  (m ≫= f) w = (None, w') ↔
  m w = (None, w') ∨ ∃ x w1, m w = (Some x, w1) ∧ f x w1 = (None, w').
Proof.
  unfold mbind, M_bind, bind. destruct (m w) as [[x|] w1]; split.
  - eauto.
  - intros [?|(? & ? & [= <- <-] & ?)]; done.
  - intros [= <-]. by left.
  - intros [[= <-]|(? & ? & ? & ?)]; done.
Qed.

Lemma M_ret_Some {X} (x y : X) w w' : (mret x : M X) w = (Some y, w') ↔ y = x ∧ w' = w.
Proof. unfold mret, M_ret, ret. split; [by intros [= <- <-]|by intros [-> ->]]. Qed.

Lemma lift_Some {X} (o : option X) x w w' : lift o w = (Some x, w') ↔ o = Some x ∧ w' = w.
Proof. unfold lift. split; [by intros [= <- <-]|by intros [-> ->]]. Qed.

Lemma load_Some r a w w' : load r w = (Some a, w') ↔ heap w !! r = Some a ∧ w' = w.
Proof. unfold load. split; [by intros [= -> <-]|by intros [-> ->]]. Qed.

Lemma store_Some r a w w' :
  store r a w = (Some (), w') ↔
  r < length (heap w) ∧ w' = World (<[r := a]> (heap w)) (log w).
Proof.
  unfold store. destruct (Nat.ltb_spec r (length (heap w))); split.
  - by intros [= <-].
  - by intros [_ ->].
  - done.
  - lia.
Qed.

Lemma alloc_Some a r w w' :
  alloc a w = (Some r, w') ↔
  r = length (heap w) ∧ w' = World (heap w ++ [a]) (log w).
Proof. unfold alloc. split; [by intros [= <- <-]|by intros [-> ->]]. Qed.

Lemma call_lib_Some c a w w' :
  call_lib lib c w = (Some a, w') ↔
  lib (length (log w)) c = Some a ∧ w' = World (heap w) (log w ++ [c]).
Proof. unfold call_lib. split; [by intros [= -> <-]|by intros [-> ->]]. Qed.

Lemma emit_Some c w w' :
  emit c w = (Some (), w') ↔ w' = World (heap w) (log w ++ [c]).
Proof. unfold emit. split; [by intros [= <-]|by intros ->]. Qed.


(** *** Properties kept by every step of a computation *)

Section Respects.
Variable Rel : relation (world R).
Hypothesis Rel_refl : ∀ w, Rel w w.
Hypothesis Rel_trans : ∀ w1 w2 w3, Rel w1 w2 → Rel w2 w3 → Rel w1 w3.

Lemma respects_ret {X} (x : X) : respects Rel (mret x : M X).
Proof using Rel_refl. intros w r w' [= <- <-]. done. Qed.

Lemma respects_lift {X} (o : option X) : respects Rel (lift o).
Proof using Rel_refl. intros w r w' [= <- <-]. done. Qed.

Lemma respects_load r : respects Rel (load r).
Proof using Rel_refl. intros w a w' [= <- <-]. done. Qed.

Lemma respects_bind {X Y} (m : M X) (f : X → M Y) :
  respects Rel m → (∀ x, respects Rel (f x)) → respects Rel (m ≫= f).
Proof using Rel_trans.
  intros Hm Hf w r w'. unfold mbind, M_bind, bind.
  destruct (m w) as [[x|] w1] eqn:Hmw.
  - intros Hfx. eapply Rel_trans; [by eapply Hm|by eapply Hf].
  - intros [= <- <-]. by eapply Hm.
Qed.

Lemma respects_for_ {X} (l : list X) (body : X → M unit) :
  (∀ x, respects Rel (body x)) → respects Rel (for_ l body).
Proof using Rel_refl Rel_trans.
  intros Hb. induction l as [|x l IH]; simpl.
  - apply respects_ret.
  - apply respects_bind; [apply Hb|]. intros _. apply IH.
Qed.

Lemma respects_for_fold {X Y} (l : list X) (body : Y → X → M Y) y :
  (∀ y x, respects Rel (body y x)) → respects Rel (for_fold l body y).
Proof using Rel_refl Rel_trans.
  intros Hb. revert y. induction l as [|x l IH]; intros y; simpl.
  - apply respects_ret.
  - apply respects_bind; [apply Hb|]. intros y'. apply IH.
Qed.

Lemma respects_if {X} (b : bool) (c1 c2 : M X) :
  respects Rel c1 → respects Rel c2 → respects Rel (if b then c1 else c2).
Proof. by destruct b. Qed.

End Respects.

Lemma extends_refl rs w : extends rs w w.
Proof. split; [done|]. split; [done|]. exists []. by rewrite app_nil_r. Qed.

Lemma extends_trans rs w1 w2 w3 : extends rs w1 w2 → extends rs w2 w3 → extends rs w1 w3.
Proof.
  intros (Hl1 & Hh1 & l1 & Hlog1) (Hl2 & Hh2 & l2 & Hlog2).
  split; [congruence|]. split.
  - intros r Hr. rewrite Hh2, Hh1; done.
  - exists (l1 ++ l2). by rewrite Hlog2, Hlog1, app_assoc.
Qed.

Lemma extends_mono rs rs' w w' : rs ⊆ rs' → extends rs w w' → extends rs' w w'.
Proof.
  intros Hsub (Hl & Hh & Hlog). split; [done|]. split; [|done].
  intros r Hr. apply Hh. intros ?. apply Hr. by apply Hsub.
Qed.

Lemma respects_call_lib rs c : respects (extends rs) (call_lib lib c).
Proof.
  intros w r w' [= <- <-]. split; [done|]. split; [done|]. by eexists.
Qed.

Lemma respects_emit rs (c : call R) : respects (extends rs) (emit c).
Proof.
  intros w r w' [= <- <-]. split; [done|]. split; [done|]. by eexists.
Qed.

Lemma respects_store rs r (a : ndarray R) : r ∈ rs → respects (extends rs) (store r a).
Proof.
  intros Hr w x w'. unfold store. destruct (_ <? _); intros [= <- <-]; [|apply extends_refl].
  split; [simpl; by rewrite length_insert|]. split.
  - intros r' Hr'. simpl. apply list_lookup_insert_ne. by intros ->.
  - exists []. by rewrite app_nil_r.
Qed.

Lemma pure_extends {X} rs (c : @M R X) : pure c → respects (extends rs) c.
Proof. intros Hc w r w' Hrun. rewrite (Hc _ _ _ Hrun). apply extends_refl. Qed.

Lemma respects_extends_mono {X} rs rs' (c : @M R X) :
  respects (extends rs) c → rs ⊆ rs' → respects (extends rs') c.
Proof. intros Hc Hsub w r w' Hrun. eapply extends_mono; [done|]. by eapply Hc. Qed.

End Monad.

Create HintDb respects.

(** Inversion of a successful run, one step after the other. *)
Ltac minv1 :=
  match goal with
  | u : unit |- _ => destruct u
  | H : @mbind _ _ _ _ _ _ _ = (Some _, _) |- _ =>
      apply M_bind_Some in H as (? & ? & ? & H)
  | H : @mret _ _ _ _ _ = (Some _, _) |- _ => apply M_ret_Some in H as [? ?]
  | H : lift _ _ = (Some _, _) |- _ => apply lift_Some in H as [? ?]
  | H : load _ _ = (Some _, _) |- _ => apply load_Some in H as [? ?]
  | H : store _ _ _ = (Some _, _) |- _ => apply store_Some in H as [? ?]
  | H : alloc _ _ = (Some _, _) |- _ => apply alloc_Some in H as [? ?]
  | H : call_lib _ _ _ = (Some _, _) |- _ => apply call_lib_Some in H as [? ?]
  | H : inv _ _ _ = (Some _, _) |- _ => apply call_lib_Some in H as [? ?]
  | H : emit _ _ = (Some _, _) |- _ => apply emit_Some in H
  | H : (let '(_, _) := ?p in _) _ = (Some _, _) |- _ => destruct p
  end.
Ltac minv := repeat (minv1; simplify_eq/=).

(** Membership and inclusion of explicit lists of references. *)
Ltac solve_elem := by repeat constructor.
Ltac solve_incl :=
  let x := fresh in let Hin := fresh in
  intros x Hin;
  repeat (apply elem_of_cons in Hin as [->|Hin]; [solve_elem|]);
  by apply elem_of_nil in Hin.

(** Proving [respects] along the structure of a computation. *)
Ltac solve_rel :=
  first [ apply extends_refl | apply extends_trans
        | intros ?; reflexivity | intros ? ? ? -> ->; reflexivity ].
Ltac respects_step :=
  match goal with
  | |- respects _ (@mbind _ _ _ _ _ _) =>
      apply respects_bind; [solve_rel| |intros ?]
  | |- respects _ (@mret _ _ _ _) => apply respects_ret; solve_rel
  | |- respects _ (lift _) => apply respects_lift; solve_rel
  | |- respects _ (load _) => apply respects_load; solve_rel
  | |- respects _ (call_lib _ _) => apply respects_call_lib
  | |- respects _ (inv _ _) => apply respects_call_lib
  | |- respects _ (emit _) => apply respects_emit
  | |- respects _ (for_ _ _) => apply respects_for_; [solve_rel|solve_rel|intros ?]
  | |- respects _ (for_fold _ _ _) => apply respects_for_fold; [solve_rel|solve_rel|intros ? ?]
  | |- respects _ (if _ then _ else _) => apply respects_if
  | |- respects _ (let '(_, _) := ?p in _) => destruct p
  | |- respects _ (match ?p with (_, _) => _ end) => destruct p
  | |- respects (extends _) (store _ _) => apply respects_store; solve_elem
  | |- respects (extends _) _ =>
      first [ solve [eauto with respects]
            | eapply respects_extends_mono; [solve [eauto with respects]|solve_incl] ]
  end.
Ltac respects_tac := repeat respects_step.

(** ** What each sampler may touch *)

Section Frames.
Context `{Float R} (lib : nat → call R → option (ndarray R)).
Variables (dense_mat sparse_mat : ndarray R) (init : init_dict) (rank : nat)
          (time_lags : list Z) (maxiter1 maxiter2 : Z).
Variables (dim1 dim2 : nat) (pos position : list (list nat)) (binary_mat : ndarray R).
Implicit Types w : world R.

Local Abbreviation W := (init_W init).
Local Abbreviation X := (init_X init).

Lemma iadd_ref_extends rs acc v : acc ∈ rs → respects (extends rs) (iadd_ref acc v).
Proof. intros. unfold iadd_ref. respects_tac. Qed.

Lemma mnrnd_extends M0 U V : respects (extends []) (mnrnd lib M0 U V).
Proof. unfold mnrnd. repeat case_match; respects_tac. Qed.
#[local] Hint Resolve mnrnd_extends : respects.

Lemma sample_W_hyper_extends :
  respects (extends []) (sample_W_hyper lib init rank dim1).
Proof. unfold sample_W_hyper. respects_tac. Qed.
#[local] Hint Resolve sample_W_hyper_extends : respects.

Lemma sample_W_extends tau :
  respects (extends [W])
    (sample_W lib sparse_mat init rank dim1 binary_mat tau).
Proof. unfold sample_W, sample_W_row. respects_tac. Qed.
#[local] Hint Resolve sample_W_extends : respects.

Lemma sample_A_extends :
  respects (extends []) (sample_A lib init rank time_lags dim2).
Proof. unfold sample_A. respects_tac. Qed.
#[local] Hint Resolve sample_A_extends : respects.

Lemma backward_term_pure A Lambda_x t :
  pure (backward_term init rank time_lags A Lambda_x t).
Proof. unfold pure, backward_term. respects_tac. Qed.

Lemma forward_term_pure A Lambda_x t MN k :
  pure (forward_term init rank time_lags A Lambda_x t MN k).
Proof. unfold pure, forward_term. respects_tac. Qed.

Lemma sample_X_row_extends A Lambda_x var3 var4 t :
  respects (extends [X])
    (sample_X_row lib init rank time_lags dim2 A Lambda_x var3 var4 t).
Proof.
  unfold sample_X_row. respects_tac.
  - apply pure_extends, backward_term_pure.
  - apply pure_extends, forward_term_pure.
Qed.
#[local] Hint Resolve sample_X_row_extends : respects.

Lemma sample_X_extends A Sigma tau :
  respects (extends [X])
    (sample_X lib sparse_mat init rank time_lags dim2 binary_mat A Sigma tau).
Proof. unfold sample_X. respects_tac. Qed.
#[local] Hint Resolve sample_X_extends : respects.

End Frames.

#[global] Hint Resolve mnrnd_extends sample_W_hyper_extends sample_W_extends
  sample_A_extends sample_X_row_extends sample_X_extends : respects.

(** ** What the samplers do *)

Section Specs.
Context `{Float R} (lib : nat → call R → option (ndarray R)).
Variables (dense_mat sparse_mat : ndarray R) (init : init_dict) (rank : nat)
          (time_lags : list Z) (maxiter1 maxiter2 : Z).
Variables (dim1 dim2 : nat).
Implicit Types w : world R.

Local Abbreviation W := (init_W init).
Local Abbreviation X := (init_X init).

(** What a successful call of [mnrnd] does. *)
Lemma mnrnd_Some (M0 U V : ndarray R) w r w' :
  mnrnd lib M0 U V w = (Some r, w') →
  ∃ p q X0 P Q QT PX PXQ,
    shape M0 = [p; q] ∧
    lib (length (log w)) (Random_rand p q) = Some X0 ∧
    lib (length (log w) + 1) (Linalg_cholesky U) = Some P ∧
    lib (length (log w) + 2) (Linalg_cholesky V) = Some Q ∧
    np_T Q = Some QT ∧ np_matmul P X0 = Some PX ∧ np_matmul PX QT = Some PXQ ∧
    np_add M0 PXQ = Some r ∧
    w' = World (heap w) (log w ++ [Random_rand p q; Linalg_cholesky U; Linalg_cholesky V]).
Proof.
  unfold mnrnd. intros Hrun.
  destruct (shape M0) as [|p [|q [|]]] eqn:HM; try by apply lift_Some in Hrun as [? _].
  minv. rewrite !length_app in *. simpl in *. rewrite <- !app_assoc. simpl.
  replace (length (log w) + 1 + 1) with (length (log w) + 2) in * by lia.
  by repeat eexists.
Qed.

(** C5, the part that holds by design.  In every successful run of the
    coefficient sampler, the row covariance [var_Psi] and the column
    covariance [Sigma] reach the two Cholesky factorizations of [mnrnd] as
    the libraries returned them: the run makes exactly two Cholesky calls,
    the first on the answer of a call [inv(...)], the second on the answer of
    the Inverse-Wishart sampler; nothing is done to them in between. *)
Theorem cholesky_inputs_as_returned w Sigma A w' :
  sample_A lib init rank time_lags dim2 w = (Some (Sigma, A), w') →
  ∃ n1 n2 sPsi var_Psi var_S df,
    log w' !! n1 = Some (Linalg_inv sPsi) ∧ lib n1 (Linalg_inv sPsi) = Some var_Psi ∧
    log w' !! n2 = Some (Invwishart_rvs df var_S) ∧
    lib n2 (Invwishart_rvs df var_S) = Some Sigma ∧
    List.filter is_cholesky (drop (length (log w)) (log w')) =
      [Linalg_cholesky var_Psi; Linalg_cholesky Sigma].
Proof.
  unfold sample_A. intros Hrun. minv.
  match goal with H : mnrnd _ _ _ _ _ = _ |- _ => apply mnrnd_Some in H as (p & q & X0 & P & Q & QT & PX & PXQ & ? & ? & ? & ? & ? & ? & ? & ? & ?) end.
  simplify_eq/=. rewrite <- !app_assoc in *. simpl in *.
  rewrite !length_app in *. simpl in *.
  eexists (length (log w) + 1), (length (log w) + 5). do 4 eexists.
  split; [by rewrite lookup_app_r, Nat.add_comm, Nat.add_sub by lia|].
  split; [done|].
  split; [by rewrite lookup_app_r, Nat.add_comm, Nat.add_sub by lia|].
  split; [done|].
  by rewrite drop_app_length.
Qed.

Lemma for_fold_forward_term_pure A Lambda_x t index MN :
  pure (for_fold index (forward_term init rank time_lags A Lambda_x t) MN).
Proof.
  unfold pure. apply respects_for_fold; [solve_rel|solve_rel|]. intros. apply forward_term_pure.
Qed.

(** What a successful pass of [for t in range(dim2)] does (lines 338-365):
    the backward term, the forward terms over the lag indices of
    [forward_lags], the mean, the matrix inverted, the draw and the row
    written. *)
Lemma sample_X_row_Some (A Lambda_x var3 var4 : ndarray R) (t : nat) (mx : Z) w w' :
  np_max time_lags = Some mx →
  sample_X_row lib init rank time_lags dim2 A Lambda_x var3 var4 t w = (Some (), w') →
  ∃ Xv Qt Mt Nt index v3 c s var_mu P iP mean,
    heap w !! X = Some Xv ∧
    (if (Z.of_nat t <? mx)%Z then Qt = np_zeros [rank]
     else ∃ A_unf v Av,
         ten2mat A 0 = Some A_unf ∧
         lagged_rows rank time_lags Xv (Z.of_nat t) = Some v ∧
         np_matmul A_unf v = Some Av ∧ np_matmul Lambda_x Av = Some Qt) ∧
    forward_lags time_lags dim2 (Z.of_nat t) = Some index ∧
    for_fold index (forward_term init rank time_lags A Lambda_x (Z.of_nat t))
             (np_zeros [rank; rank], np_zeros [rank]) w = (Some (Mt, Nt), w) ∧
    np_index 3 2 var3 (Z.of_nat t) = Some v3 ∧
    (if (Z.of_nat t <? mx)%Z
     then ∃ a b, np_add v3 Mt = Some a ∧ np_sub a Lambda_x = Some b ∧
                 np_add b (np_eye rank) = Some P
     else np_add v3 Mt = Some P) ∧
    np_index 2 1 var4 (Z.of_nat t) = Some c ∧
    np_add c Nt = Some s ∧ np_add s Qt = Some var_mu ∧
    lib (length (log w)) (Linalg_inv P) = Some iP ∧
    np_matmul iP var_mu = Some mean ∧
    log w' = log w ++ [Linalg_inv P; Random_multivariate_normal mean iP].
Proof.
  intros Hmx. unfold sample_X_row. intros Hrun.
  apply M_bind_Some in Hrun as (Qt & w1 & HQt & Hrun).
  pose proof (backward_term_pure _ _ _ _ _ _ _ _ _ HQt) as <-.
  apply M_bind_Some in Hrun as (index & w2 & [Hindex <-]%lift_Some & Hrun).
  apply M_bind_Some in Hrun as ([Mt Nt] & w3 & HMN & Hrun).
  pose proof (for_fold_forward_term_pure _ _ _ _ _ _ _ _ HMN) as <-.
  minv. rewrite <- !app_assoc. simpl.
  match goal with Hp : temporal_precision _ _ _ _ _ _ = Some ?P |- _ =>
    unfold temporal_precision in Hp; rewrite Hmx in Hp; simpl in Hp;
    destruct (np_index 3 2 var3 (Z.of_nat t)) as [v3|] eqn:Hv3; [simpl in Hp|done]
  end.
  unfold backward_term in HQt. rewrite Hmx in HQt.
  apply M_bind_Some in HQt as (? & ? & [[= <-] <-]%lift_Some & HQt).
  destruct (Z.of_nat t <? mx)%Z eqn:Hlt.
  - apply M_ret_Some in HQt as [-> _].
    match goal with Hp : @mbind option _ _ _ _ _ = Some _ |- _ =>
      apply bind_Some in Hp as (a & Ha & Hp); apply bind_Some in Hp as (b & Hb & Hp) end.
    eexists _, _, Mt, Nt, index, v3. do 6 eexists. split_and!; try done. by exists a, b.
  - minv. eexists _, _, Mt, Nt, index, v3. do 6 eexists. split_and!; try done.
    by repeat eexists.
Qed.


Variables (pos position : list (list nat)) (binary_mat : ndarray R).
Variables (W_plus X_new_plus A_plus mat_hat_plus : ref).

Local Abbreviation iteration' :=
  (iteration lib dense_mat sparse_mat init rank time_lags maxiter1 maxiter2
             dim1 dim2 pos position binary_mat W_plus X_new_plus A_plus mat_hat_plus).
Local Abbreviation collecting' := (collecting maxiter1 maxiter2).

Local Abbreviation progress_lines := (progress_lines maxiter1 maxiter2).

(** The steps of a successful pass of the main loop. *)
Lemma iteration_Some iters tau w sw w' :
  iteration' iters tau w = (Some sw, w') →
  ∃ w1 w2 w3 w4 w5 w6 Sigma Wv Xv XT scale g rmse,
    sample_W lib sparse_mat init rank dim1 binary_mat tau w = (Some (), w1) ∧
    (if collecting' iters
     then ∃ Wc, heap w1 !! W = Some Wc ∧ iadd_ref W_plus Wc w1 = (Some (), w2)
     else w2 = w1) ∧
    sample_A lib init rank time_lags dim2 w2 = (Some (Sigma, sw_A sw), w3) ∧
    (if collecting' iters
     then iadd_ref A_plus (sw_A sw) w3 = (Some (), w4) else w4 = w3) ∧
    sample_X lib sparse_mat init rank time_lags dim2 binary_mat (sw_A sw) Sigma tau w4
      = (Some (), w5) ∧
    heap w5 !! W = Some Wv ∧ heap w5 !! X = Some Xv ∧
    np_T Xv = Some XT ∧ np_matmul Wv XT = Some (sw_mat_hat sw) ∧
    (if collecting' iters
     then ∃ w5' Wv' XnT WXn,
         extend_X rank time_lags dim2 Xv (sw_A sw) = Some (sw_X_new sw) ∧
         iadd_ref X_new_plus (sw_X_new sw) w5 = (Some (), w5') ∧
         heap w5' !! W = Some Wv' ∧ np_T (sw_X_new sw) = Some XnT ∧
         np_matmul Wv' XnT = Some WXn ∧
         iadd_ref mat_hat_plus WXn w5' = (Some (), w6)
     else sw_X_new sw = np_zeros [dim2 + 1; rank] ∧ w6 = w5) ∧
    tau_scale sparse_mat position (sw_mat_hat sw) = Some scale ∧
    lib (length (log w6)) (Random_gamma (tau_shape position) scale) = Some g ∧
    item g = Some (sw_tau sw) ∧
    rmse_of dense_mat pos (sw_mat_hat sw) = Some rmse ∧
    heap w' = heap w6 ∧
    log w' = log w6 ++ Random_gamma (tau_shape position) scale :: progress_lines iters rmse ∧
    heap w' !! W = Some (sw_W sw) ∧ heap w' !! X = Some (sw_X sw).
Proof.
  unfold iteration, Btmf.progress_lines. intros Hrun.
  destruct (collecting' iters) eqn:Hc; destruct (_ && _) eqn:Hp in Hrun |- *; minv;
    repeat match goal with u : unit |- _ => destruct u end;
    rewrite <- ?app_assoc; simpl;
    do 13 eexists; split_and!; try done; by eauto 10.
Qed.


Lemma collect_tail_extends iters w5 w6 sw Xv :
  (if collecting' iters
   then ∃ w5' Wv' XnT WXn,
       extend_X rank time_lags dim2 Xv (sw_A sw) = Some (sw_X_new sw) ∧
       iadd_ref X_new_plus (sw_X_new sw) w5 = (Some (), w5') ∧
       heap w5' !! W = Some Wv' ∧ np_T (sw_X_new sw) = Some XnT ∧
       np_matmul Wv' XnT = Some WXn ∧
       iadd_ref mat_hat_plus WXn w5' = (Some (), w6)
   else sw_X_new sw = np_zeros [dim2 + 1; rank] ∧ w6 = w5) →
  extends [X_new_plus; mat_hat_plus] w5 w6.
Proof.
  destruct (collecting' iters).
  - intros (w5' & Wv' & XnT & WXn & _ & H1 & _ & _ & _ & H2).
    eapply extends_trans;
      [eapply (iadd_ref_extends [X_new_plus; mat_hat_plus]), H1|
       eapply (iadd_ref_extends [X_new_plus; mat_hat_plus]), H2]; solve_elem.
  - intros [_ ->]. apply extends_refl.
Qed.

Lemma iteration_extends iters tau :
  respects (extends [W; X; W_plus; X_new_plus; A_plus; mat_hat_plus]) (iteration' iters tau).
Proof.
  unfold iteration. respects_tac; apply iadd_ref_extends; solve_elem.
Qed.

End Specs.

(** ** Accumulation *)

Section SetLemmas.
Context {A : Type}.
Implicit Types a v : ndarray A.

Lemma np_set_index_spec nslots axis a i v a' :
  np_set_index nslots axis a i v = Some a' →
  ∃ n r, shape a !! axis = Some n ∧ norm_index n i = Some r ∧
         shape a' = shape a ∧ wf a' ∧
         ∀ idx, in_bounds (shape a) idx = true →
                get a' idx = if bool_decide (idx !! axis = Some r)
                             then get v (bidx (shape v) (delete axis idx))
                             else get a idx.
Proof.
  unfold np_set_index. intros Hset. repeat case_guard; simplify_option_eq.
  match goal with Ht : tabulate _ _ = Some _ |- _ =>
    apply tabulate_spec in Ht as (Hs & Hwf & Hget) end.
  eauto 10.
Qed.

Lemma norm_index_nat n (i : nat) : i < n → norm_index n (Z.of_nat i) = Some i.
Proof.
  intros Hi. unfold norm_index.
  destruct (Z.leb_spec 0 (Z.of_nat i)); [|lia].
  destruct (Z.ltb_spec (Z.of_nat i) (Z.of_nat n)); [|lia]. simpl. by rewrite Nat2Z.id.
Qed.

Lemma norm_index_nat_inv n (i : nat) r : norm_index n (Z.of_nat i) = Some r → r = i ∧ i < n.
Proof.
  unfold norm_index.
  destruct (Z.leb_spec 0 (Z.of_nat i)); [|lia].
  destruct (Z.ltb_spec (Z.of_nat i) (Z.of_nat n)); simpl.
  - intros [= <-]. rewrite Nat2Z.id. split; [done|lia].
  - destruct (Z.leb_spec (- Z.of_nat n) (Z.of_nat i)); simpl; [|done].
    destruct (Z.ltb_spec (Z.of_nat i) 0); [lia|done].
Qed.

End SetLemmas.

Section Numeric.
Context `{Float R}.
Implicit Types a b : ndarray R.




Lemma np_zeros_shape s : shape (np_zeros s) = s.
Proof. done. Qed.


Lemma accumulate_snoc F a l sw :
  accumulate F a (l ++ [sw]) = s ← accumulate F a l; v ← F sw; np_iadd s v.
Proof.
  unfold accumulate. revert a. induction l as [|sw' l IH]; intros a; simpl.
  - destruct (F sw) as [v|]; simpl; [|done]. by destruct (np_iadd a v).
  - destruct (F sw') as [v|]; simpl; [|done].
    destruct (np_iadd a v); simpl; [apply IH|done].
Qed.

End Numeric.

Ltac notin := rewrite ?not_elem_of_cons; split_and?; try apply not_elem_of_nil; congruence.

Ltac nodup_neqs H :=
  repeat (apply NoDup_cons in H as [? H]);
  rewrite ?not_elem_of_cons in *;
  repeat match goal with Hc : _ ∧ _ |- _ => destruct Hc end.

Section Heap.
Context `{Float R} (lib : nat → call R → option (ndarray R)).
Variables (dense_mat sparse_mat : ndarray R) (init : init_dict) (rank : nat)
          (time_lags : list Z) (maxiter1 maxiter2 : Z).
Variables (dim1 dim2 : nat) (pos position : list (list nat)) (binary_mat : ndarray R).
Variables (W_plus X_new_plus A_plus mat_hat_plus : ref).
Implicit Types w : world R.

Local Abbreviation W := (init_W init).
Local Abbreviation X := (init_X init).
Local Abbreviation iteration' :=
  (iteration lib dense_mat sparse_mat init rank time_lags maxiter1 maxiter2
             dim1 dim2 pos position binary_mat W_plus X_new_plus A_plus mat_hat_plus).
Local Abbreviation iterations' :=
  (iterations lib dense_mat sparse_mat init rank time_lags maxiter1 maxiter2
              dim1 dim2 pos position binary_mat W_plus X_new_plus A_plus mat_hat_plus).
Local Abbreviation collecting' := (collecting maxiter1 maxiter2).
Local Abbreviation collected' := (collected maxiter1 maxiter2).

Lemma iadd_ref_Some acc (v : ndarray R) w w' :
  iadd_ref acc v w = (Some (), w') →
  heap w' !! acc = (a ← heap w !! acc; np_iadd a v) ∧ is_Some (heap w' !! acc) ∧
  extends [acc] w w'.
Proof.
  intros Hrun. split; [|split].
  - unfold iadd_ref in Hrun. minv.
    match goal with Hl : heap w !! acc = Some _ |- _ => rewrite Hl end. simpl.
    by rewrite list_lookup_insert_eq.
  - unfold iadd_ref in Hrun. minv. rewrite list_lookup_insert_eq by done. by eexists.
  - eapply iadd_ref_extends, Hrun. solve_elem.
Qed.

Lemma iteration_accumulate iters tau w sw w' :
  NoDup [W; X; W_plus; X_new_plus; A_plus; mat_hat_plus] →
  iteration' iters tau w = (Some sw, w') →
  heap w' !! W_plus = bump (collecting' iters) (Some (sw_W sw)) (heap w !! W_plus) ∧
  heap w' !! A_plus = bump (collecting' iters) (Some (sw_A sw)) (heap w !! A_plus) ∧
  heap w' !! X_new_plus
    = bump (collecting' iters) (Some (sw_X_new sw)) (heap w !! X_new_plus) ∧
  heap w' !! mat_hat_plus
    = bump (collecting' iters) (sw_recon sw) (heap w !! mat_hat_plus) ∧
  (if collecting' iters
   then extend_X rank time_lags dim2 (sw_X sw) (sw_A sw) = Some (sw_X_new sw)
   else sw_X_new sw = np_zeros [dim2 + 1; rank]).
Proof.
  intros Hnd Hrun. nodup_neqs Hnd.
  apply iteration_Some in Hrun
    as (w1 & w2 & w3 & w4 & w5 & w6 & Sigma & Wv & Xv & XT & scale & g & rmse & Hrun).
  destruct Hrun as (HW & HWp & HA & HAp & HX & HWv & HXv & _ & _ & HXn & _ & _ & _ & _
                    & Hheap & _ & HswW & HswX).
  apply sample_W_extends in HW as (_ & HW & _).
  apply sample_A_extends in HA as (_ & HA & _).
  apply sample_X_extends in HX as (_ & HX & _).
  rewrite Hheap in *. clear Hheap. unfold bump, sw_recon.
  destruct (collecting' iters).
  - destruct HWp as (Wc & HWc & (HWp1 & _ & _ & HWp & _)%iadd_ref_Some).
    apply iadd_ref_Some in HAp as (HAp1 & _ & _ & HAp & _).
    destruct HXn as (w5' & Wv' & XnT & WXn & Hext & (HXp1 & _ & _ & HXp & _)%iadd_ref_Some
                     & HWv' & HXnT & HWXn & (HMp1 & _ & _ & HMp & _)%iadd_ref_Some).
    assert (sw_W sw = Wc) as ->.
    { apply (inj Some). rewrite <- HswW, <- HWc.
      rewrite HMp, HXp, HX, HAp, HA, HWp by notin. done. }
    assert (Wv' = Wc) as ->.
    { apply (inj Some). rewrite <- HWv', <- HWc.
      rewrite HXp, HX, HAp, HA, HWp by notin. done. }
    assert (sw_X sw = Xv) as ->.
    { apply (inj Some). rewrite <- HswX, <- HXv. rewrite HMp, HXp by notin. done. }
    split_and!; [| | | |done].
    + rewrite HMp, HXp, HX, HAp, HA by notin. rewrite HWp1, HW by notin. done.
    + rewrite HMp, HXp, HX by notin. rewrite HAp1, HA, HWp, HW by notin. done.
    + rewrite HMp by notin. rewrite HXp1, HX, HAp, HA, HWp, HW by notin. done.
    + rewrite HMp1, HXp, HX, HAp, HA, HWp, HW by notin. rewrite HXnT. simpl.
      by rewrite HWXn.
  - destruct HXn as [HXn ->]. subst w2 w4.
    split_and!; [| | | |done]; rewrite HX, HA, HW by notin; done.
Qed.


Lemma collected_cons it its (sw : sweep R) sws :
  collected' (it :: its) (sw :: sws) =
  if collecting' it then sw :: collected' its sws else collected' its sws.
Proof. unfold collected. simpl. by destruct (collecting' it). Qed.

Lemma bump_accumulate b F (sw : sweep R) l o :
  (a ← bump b (F sw) o; accumulate F a l) =
  (a ← o; accumulate F a (if b then sw :: l else l)).
Proof.
  unfold bump, accumulate. destruct b; [|done]. destruct o as [a|]; [simpl|done].
  destruct (F sw) as [v|]; [simpl|done]. done.
Qed.

(** The accumulators after the passes [its]. *)
Lemma iterations_accumulate its tau w sws w' :
  NoDup [W; X; W_plus; X_new_plus; A_plus; mat_hat_plus] →
  iterations' its tau w = (Some sws, w') →
  length sws = length its ∧
  extends [W; X; W_plus; X_new_plus; A_plus; mat_hat_plus] w w' ∧
  heap w' !! W_plus
    = (a ← heap w !! W_plus; accumulate (λ sw, Some (sw_W sw)) a (collected' its sws)) ∧
  heap w' !! A_plus
    = (a ← heap w !! A_plus; accumulate (λ sw, Some (sw_A sw)) a (collected' its sws)) ∧
  heap w' !! X_new_plus
    = (a ← heap w !! X_new_plus;
       accumulate (λ sw, Some (sw_X_new sw)) a (collected' its sws)) ∧
  heap w' !! mat_hat_plus
    = (a ← heap w !! mat_hat_plus; accumulate sw_recon a (collected' its sws)) ∧
  Forall (λ sw, extend_X rank time_lags dim2 (sw_X sw) (sw_A sw) = Some (sw_X_new sw))
         (collected' its sws) ∧
  (∀ sw, last sws = Some sw →
         heap w' !! W = Some (sw_W sw) ∧ heap w' !! X = Some (sw_X sw)).
Proof.
  intros Hnd. revert tau w sws. induction its as [|it its IH]; intros tau w sws Hrun.
  - apply M_ret_Some in Hrun as [-> ->]. split_and!; try done.
    + apply extends_refl.
    + destruct (heap w !! W_plus); reflexivity.
    + destruct (heap w !! A_plus); reflexivity.
    + destruct (heap w !! X_new_plus); reflexivity.
    + destruct (heap w !! mat_hat_plus); reflexivity.
  - simpl in Hrun.
    apply M_bind_Some in Hrun as (sw & w1 & Hit & Hrun).
    apply M_bind_Some in Hrun as (sws' & w2 & Hits & Hrun).
    apply M_ret_Some in Hrun as [-> ->].
    pose proof Hit as Hext1. apply iteration_extends in Hext1.
    pose proof Hit as Hsome. apply iteration_Some in Hsome
      as (? & ? & ? & ? & ? & ? & ? & ? & ? & ? & ? & ? & ? & Hsome).
    destruct Hsome as (_ & _ & _ & _ & _ & _ & _ & _ & _ & _ & _ & _ & _ & _ & _ & _ & HlW & HlX).
    apply iteration_accumulate in Hit as (HW1 & HA1 & HX1 & HM1 & Hext); [|done].
    pose proof Hits as Hits'.
    apply IH in Hits as (Hlen & Hext2 & HW2 & HA2 & HX2 & HM2 & Hall & Hlast).
    rewrite collected_cons. split_and!.
    + simpl. by rewrite Hlen.
    + by eapply extends_trans.
    + by rewrite HW2, HW1, (bump_accumulate _ (λ sw, Some (sw_W sw))).
    + by rewrite HA2, HA1, (bump_accumulate _ (λ sw, Some (sw_A sw))).
    + by rewrite HX2, HX1, (bump_accumulate _ (λ sw, Some (sw_X_new sw))).
    + by rewrite HM2, HM1, bump_accumulate.
    + destruct (collecting' it); [by constructor|done].
    + intros sw0 Hsw0. destruct sws' as [|sw' sws'].
      * simpl in Hsw0. injection Hsw0 as <-.
        destruct its; [|done]. apply M_ret_Some in Hits' as [_ ->]. done.
      * apply Hlast. by rewrite last_cons_cons in Hsw0.
Qed.

End Heap.

(** ** Rows drawn and the noise precision *)

Section Rows.
Context `{Float R} (lib : nat → call R → option (ndarray R)).
Implicit Types w : world R.
Implicit Types a row : ndarray R.

Lemma set_index_row_is a (i : nat) row a' :
  np_set_index 2 0 a (Z.of_nat i) row = Some a' → row_is a' i row.
Proof.
  intros (n & r & Hn & Hr & Hs & _ & Hget)%np_set_index_spec.
  apply norm_index_nat_inv in Hr as [-> Hi].
  intros idx Hb. rewrite Hs in Hb. rewrite Hget by done. simpl.
  by rewrite bool_decide_eq_true_2.
Qed.

Lemma set_index_row_other a (i j : nat) v row a' :
  np_set_index 2 0 a (Z.of_nat j) v = Some a' → i ≠ j →
  row_is a i row → row_is a' i row.
Proof.
  intros (n & r & Hn & Hr & Hs & _ & Hget)%np_set_index_spec Hij Hrow.
  apply norm_index_nat_inv in Hr as [-> Hj].
  intros idx Hb. rewrite Hs in Hb. rewrite Hget by done. simpl.
  rewrite bool_decide_eq_false_2 by congruence. by apply Hrow.
Qed.

Lemma for_rows_log r body l w w' :
  draws_row lib r body → for_ l body w = (Some (), w') → ∃ k, log w' = log w ++ k.
Proof.
  intros Hbody. revert w. induction l as [|j l IH]; intros w Hrun; simpl in Hrun.
  - apply M_ret_Some in Hrun as [_ ->]. exists []. by rewrite app_nil_r.
  - apply M_bind_Some in Hrun as ([] & w1 & Hj & Hrun).
    apply Hbody in Hj as (_ & _ & _ & _ & _ & _ & _ & _ & _ & _ & _ & _ & k1 & Hk1).
    apply IH in Hrun as [k2 Hk2]. exists (k1 ++ k2). by rewrite Hk2, Hk1, app_assoc.
Qed.

Lemma for_rows_preserved r body l w w' i a row :
  draws_row lib r body → for_ l body w = (Some (), w') → i ∉ l →
  heap w !! r = Some a → row_is a i row →
  ∃ a', heap w' !! r = Some a' ∧ row_is a' i row.
Proof.
  intros Hbody. revert w a. induction l as [|j l IH]; intros w a Hrun Hi Ha Hrow;
    simpl in Hrun.
  - apply M_ret_Some in Hrun as [_ ->]. eauto.
  - apply M_bind_Some in Hrun as ([] & w1 & Hj & Hrun).
    apply not_elem_of_cons in Hi as [Hij Hi].
    apply Hbody in Hj as (_ & _ & _ & v & a0 & a1 & _ & _ & _ & Ha0 & Hset & Ha1 & _).
    rewrite Ha in Ha0. injection Ha0 as <-.
    eapply IH; [done..|]. by eapply set_index_row_other.
Qed.

Lemma for_rows_drawn r body l w w' :
  draws_row lib r body → NoDup l → for_ l body w = (Some (), w') →
  ∀ i, i ∈ l → row_drawn lib r (length (log w)) w' i.
Proof.
  intros Hbody. revert w. induction l as [|j l IH]; intros w Hnd Hrun i Hi;
    simpl in Hrun.
  - by apply elem_of_nil in Hi.
  - apply M_bind_Some in Hrun as ([] & w1 & Hj & Hrun).
    apply NoDup_cons in Hnd as [Hjl Hnd].
    pose proof (for_rows_log _ _ _ _ _ Hbody Hrun) as [k Hk].
    apply Hbody in Hj as (n & mean & cov & row & a0 & a1 & Hn & Hlog & Hlib & Ha0 & Hset
                          & Ha1 & k1 & Hk1).
    apply elem_of_cons in Hi as [->|Hi].
    + destruct (for_rows_preserved _ _ _ _ _ j a1 row Hbody Hrun Hjl Ha1) as (a' & Ha' & Hrow);
        [by eapply set_index_row_is|].
      exists n, mean, cov, row, a'. split_and!; try done.
      rewrite Hk. by apply lookup_app_l_Some.
    + destruct (IH _ Hnd Hrun i Hi) as (n' & mean' & cov' & row' & a' & Hn' & ?).
      exists n', mean', cov', row', a'. split; [|done].
      rewrite Hk1, length_app in Hn'. lia.
Qed.


Variables (dense_mat sparse_mat : ndarray R) (init : init_dict) (rank : nat)
          (time_lags : list Z) (maxiter1 maxiter2 : Z).
Variables (dim1 dim2 : nat) (pos position : list (list nat)) (binary_mat : ndarray R).
Variables (W_plus X_new_plus A_plus mat_hat_plus : ref).

Local Abbreviation W := (init_W init).
Local Abbreviation X := (init_X init).

Lemma sample_W_row_draws var3 var4 :
  draws_row lib W (sample_W_row lib init var3 var4).
Proof.
  intros i w w' Hrun. unfold sample_W_row in Hrun. minv.
  rewrite length_app in *. simpl in *.
  eexists (length (log w) + 1), _, _, _, _, _. split_and!; try done.
  - lia.
  - rewrite <- app_assoc. simpl. by rewrite lookup_app_r, Nat.add_comm, Nat.add_sub by lia.
  - by rewrite list_lookup_insert_eq.
  - rewrite <- app_assoc. by eexists.
Qed.

Lemma sample_X_row_draws A Lambda_x var3 var4 :
  draws_row lib X (sample_X_row lib init rank time_lags dim2 A Lambda_x var3 var4).
Proof.
  intros t w w' Hrun. unfold sample_X_row in Hrun.
  apply M_bind_Some in Hrun as (Qt & w1 & HQt & Hrun).
  pose proof (backward_term_pure _ _ _ _ _ _ _ _ _ HQt) as Hw1. subst w1.
  apply M_bind_Some in Hrun as (index & w2 & [Hindex Hw2]%lift_Some & Hrun). subst w2.
  apply M_bind_Some in Hrun as ([Mt Nt] & w3 & HMN & Hrun).
  pose proof (for_fold_forward_term_pure _ _ _ _ _ _ _ _ _ _ _ HMN) as Hw3. subst w3.
  minv. rewrite length_app in *. simpl in *.
  eexists (length (log w) + 1), _, _, _, _, _. split_and!; try done.
  - lia.
  - rewrite <- app_assoc. simpl. by rewrite lookup_app_r, Nat.add_comm, Nat.add_sub by lia.
  - by rewrite list_lookup_insert_eq.
  - rewrite <- app_assoc. by eexists.
Qed.

Lemma sample_W_rows tau w w' :
  sample_W lib sparse_mat init rank dim1 binary_mat tau w = (Some (), w') →
  ∀ i, i < dim1 → row_drawn lib W (length (log w)) w' i.
Proof.
  intros Hrun i Hi. unfold sample_W in Hrun.
  apply M_bind_Some in Hrun as ([mu Lam] & w1 & Hhyp & Hrun).
  apply sample_W_hyper_extends in Hhyp as (_ & _ & k & Hk).
  minv.
  match goal with Hf : for_ _ _ _ = _ |- _ =>
    destruct (for_rows_drawn W _ _ _ _ (sample_W_row_draws _ _) (NoDup_seq _ _) Hf i)
      as (n & mean & cov & row & a & Hn & Hrest); [apply elem_of_seq; lia|] end.
  exists n, mean, cov, row, a. split; [|done]. rewrite Hk, length_app in Hn. lia.
Qed.

Lemma sample_X_rows A Sigma tau w w' :
  sample_X lib sparse_mat init rank time_lags dim2 binary_mat A Sigma tau w = (Some (), w') →
  ∀ t, t < dim2 → row_drawn lib X (length (log w)) w' t.
Proof.
  intros Hrun t Ht. unfold sample_X in Hrun. minv.
  match goal with Hf : for_ _ _ _ = _ |- _ =>
    destruct (for_rows_drawn X _ _ _ _ (sample_X_row_draws _ _ _ _) (NoDup_seq _ _) Hf t)
      as (n & mean & cov & row & a & Hn & Hrest); [apply elem_of_seq; lia|] end.
  exists n, mean, cov, row, a. split; [|done]. simpl in Hn. rewrite length_app in Hn. lia.
Qed.


Local Abbreviation iteration' :=
  (iteration lib dense_mat sparse_mat init rank time_lags maxiter1 maxiter2
             dim1 dim2 pos position binary_mat W_plus X_new_plus A_plus mat_hat_plus).
Local Abbreviation iterations' :=
  (iterations lib dense_mat sparse_mat init rank time_lags maxiter1 maxiter2
              dim1 dim2 pos position binary_mat W_plus X_new_plus A_plus mat_hat_plus).

Lemma row_drawn_transport r n0 n0' w w' i :
  row_drawn lib r n0 w i → n0' ≤ n0 →
  (∃ k, log w' = log w ++ k) → heap w' !! r = heap w !! r →
  row_drawn lib r n0' w' i.
Proof.
  intros (n & mean & cov & row & a & Hn & Hlog & Hlib & Ha & Hrow) Hle [k Hk] Hheap.
  exists n, mean, cov, row, a. split_and!; try done.
  - lia.
  - rewrite Hk. by apply lookup_app_l_Some.
  - by rewrite Hheap.
Qed.

(** The phases of a pass: the loading sampler, then steps that write to
    [W_plus] and [A_plus] only, then the temporal sampler, then steps that
    write to [X_new_plus] and [mat_hat_plus] only. *)
Lemma iteration_phases iters tau w sw w' :
  iteration' iters tau w = (Some sw, w') →
  ∃ w1 w4 w5 Sigma,
    sample_W lib sparse_mat init rank dim1 binary_mat tau w = (Some (), w1) ∧
    extends [W_plus; A_plus] w1 w4 ∧
    sample_X lib sparse_mat init rank time_lags dim2 binary_mat (sw_A sw) Sigma tau w4
      = (Some (), w5) ∧
    extends [X_new_plus; mat_hat_plus] w5 w'.
Proof.
  intros Hrun. apply iteration_Some in Hrun
    as (w1 & w2 & w3 & w4 & w5 & w6 & Sigma & Wv & Xv & XT & scale & g & rmse & Hrun).
  destruct Hrun as (HW & HWp & HA & HAp & HX & _ & _ & _ & _ & HXn & _ & _ & _ & _
                    & Hheap & Hlog & _).
  exists w1, w4, w5, Sigma. split_and!; try done.
  - eapply extends_trans.
    { destruct (collecting _ _ _); [|subst; apply extends_refl].
      destruct HWp as (Wc & _ & HWp). eapply iadd_ref_extends, HWp. solve_elem. }
    eapply extends_trans; [eapply extends_mono, sample_A_extends, HA; solve_incl|].
    destruct (collecting _ _ _); [|subst; apply extends_refl].
    eapply iadd_ref_extends, HAp. solve_elem.
  - eapply extends_trans; [by eapply collect_tail_extends|].
    split; [by rewrite Hheap|]. split; [by rewrite Hheap|]. by eexists.
Qed.

Lemma iteration_rows iters tau w sw w' :
  NoDup [W; X; W_plus; X_new_plus; A_plus; mat_hat_plus] →
  iteration' iters tau w = (Some sw, w') →
  (∀ i, i < dim1 → row_drawn lib W (length (log w)) w' i) ∧
  (∀ t, t < dim2 → row_drawn lib X (length (log w)) w' t).
Proof.
  intros Hnd Hrun. nodup_neqs Hnd.
  apply iteration_phases in Hrun as (w1 & w4 & w5 & Sigma & HW & Hmid & HX & Hend).
  pose proof HW as HW'. apply sample_W_extends in HW' as (_ & _ & k1 & Hk1).
  pose proof HX as HX'. apply sample_X_extends in HX' as (_ & HXh & kX & HkX).
  destruct Hmid as (_ & H14h & k14 & Hk14). destruct Hend as (_ & H5h & k5 & Hk5).
  split.
  - intros i Hi. eapply row_drawn_transport; [by eapply sample_W_rows|done| |].
    + exists (k14 ++ kX ++ k5). by rewrite Hk5, HkX, Hk14, <- !app_assoc.
    + rewrite H5h, HXh, H14h by notin. reflexivity.
  - intros t Ht. eapply row_drawn_transport; [by eapply sample_X_rows| | |].
    + rewrite Hk14, Hk1, !length_app, <- Nat.add_assoc. apply Nat.le_add_r.
    + by exists k5.
    + rewrite H5h by notin. reflexivity.
Qed.

Lemma iterations_last_rows its tau w sws w' :
  NoDup [W; X; W_plus; X_new_plus; A_plus; mat_hat_plus] →
  iterations' its tau w = (Some sws, w') → its ≠ [] →
  (∀ i, i < dim1 → row_drawn lib W (length (log w)) w' i) ∧
  (∀ t, t < dim2 → row_drawn lib X (length (log w)) w' t).
Proof.
  intros Hnd. revert tau w sws. induction its as [|it its IH]; intros tau w sws Hrun Hne;
    [done|].
  simpl in Hrun.
  apply M_bind_Some in Hrun as (sw & w1 & Hit & Hrun).
  apply M_bind_Some in Hrun as (sws' & w2 & Hits & Hrun).
  apply M_ret_Some in Hrun as [-> ->].
  destruct its as [|it' its].
  - apply M_ret_Some in Hits as [_ ->]. by eapply iteration_rows.
  - apply iteration_extends in Hit as (_ & _ & k & Hk).
    apply IH in Hits as [HW HX]; [|done].
    split; intros i Hi; [destruct (HW i Hi) as (n & ? & ? & ? & ? & Hn & ?)
                        |destruct (HX i Hi) as (n & ? & ? & ? & ? & Hn & ?)];
      exists n; do 4 eexists; (split; [|done]); rewrite Hk, length_app in Hn; lia.
Qed.


(** The draw of [tau] at the end of a pass. *)
Lemma iteration_tau iters tau w sw w' :
  W ∉ [X_new_plus; mat_hat_plus] → X ∉ [X_new_plus; mat_hat_plus] →
  iteration' iters tau w = (Some sw, w') →
  ∃ pre XT diff sel g rmse,
    np_T (sw_X sw) = Some XT ∧ np_matmul (sw_W sw) XT = Some (sw_mat_hat sw) ∧
    np_sub sparse_mat (sw_mat_hat sw) = Some diff ∧
    np_select diff position = Some sel ∧
    let a := fadd (of_Q (1 # 1000000)) (fmul (of_Q (1 # 2)) (of_nat (length position))) in
    let scale := fdiv (of_Z 1)
                      (fadd (of_Q (1 # 1000000))
                            (fmul (of_Q (1 # 2)) (np_sum (np_square sel)))) in
    log w' = log w ++ pre ++ Random_gamma a scale :: progress_lines maxiter1 maxiter2 iters rmse ∧
    lib (length (log w ++ pre)) (Random_gamma a scale) = Some g ∧
    item g = Some (sw_tau sw).
Proof.
  intros HWn HXn Hrun.
  apply iteration_Some in Hrun
    as (w1 & w2 & w3 & w4 & w5 & w6 & Sigma & Wv & Xv & XT & scale & g & rmse & Hrun).
  destruct Hrun as (HW & HWp & HA & HAp & HX & HWv & HXv & HXT & Hmh & HXn' & Hscale & Hg
                    & Hitem & _ & Hheap & Hlog & HswW & HswX).
  apply collect_tail_extends in HXn' as (_ & Htail & k6 & Hk6).
  rewrite Hheap, Htail in HswW, HswX by done.
  rewrite HWv in HswW. rewrite HXv in HswX. injection HswW as <-. injection HswX as <-.
  unfold tau_scale in Hscale.
  apply bind_Some in Hscale as (diff & Hdiff & Hscale).
  apply bind_Some in Hscale as (sel & Hsel & [= <-]).
  assert (extends [W; X; W_plus; A_plus] w w5) as (_ & _ & k5 & Hk5).
  { eapply extends_trans; [eapply extends_mono, sample_W_extends, HW; solve_incl|].
    eapply extends_trans.
    { destruct (collecting _ _ _); [|subst; apply extends_refl].
      destruct HWp as (Wc & _ & HWp). eapply iadd_ref_extends, HWp. solve_elem. }
    eapply extends_trans; [eapply extends_mono, sample_A_extends, HA; solve_incl|].
    eapply extends_trans.
    { destruct (collecting _ _ _); [|subst; apply extends_refl].
      eapply iadd_ref_extends, HAp. solve_elem. }
    eapply extends_mono, sample_X_extends, HX. solve_incl. }
  exists (k5 ++ k6), XT, diff, sel, g, rmse. cbv zeta.
  unfold tau_shape, alpha, beta in *. split_and!; try done.
  - by rewrite Hlog, Hk6, Hk5, <- !app_assoc.
  - by rewrite app_assoc, <- Hk5, <- Hk6.
Qed.

End Rows.

(** ** The whole run *)

Ltac notin_lia :=
  rewrite ?not_elem_of_cons; split_and?; try apply not_elem_of_nil; lia.

Section Run.
Context `{Float R} (lib : nat → call R → option (ndarray R)).
Variables (dense_mat sparse_mat : ndarray R) (init : init_dict) (rank : nat)
          (time_lags : list Z) (maxiter1 maxiter2 : Z).
Implicit Types w : world R.

Local Abbreviation W := (init_W init).
Local Abbreviation X := (init_X init).
Local Abbreviation d := (length time_lags).

Lemma collected_seq (s n : nat) (sws : list (sweep R)) :
  length sws = n →
  collected maxiter1 maxiter2 (seq s n) sws
  = drop (Z.to_nat (maxiter1 - maxiter2) - s) sws.
Proof.
  revert s sws. induction n as [|n IH]; intros s [|sw sws] Hlen; try done.
  - by rewrite drop_nil.
  - cbn [seq]. rewrite collected_cons, IH by (simpl in Hlen; lia).
    unfold collecting. destruct (Z.ltb_spec (maxiter1 - maxiter2) (Z.of_nat s + 1)).
    + replace (Z.to_nat (maxiter1 - maxiter2) - S s) with 0 by lia.
      replace (Z.to_nat (maxiter1 - maxiter2) - s) with 0 by lia. done.
    + replace (Z.to_nat (maxiter1 - maxiter2) - s)
        with (S (Z.to_nat (maxiter1 - maxiter2) - S s)) by lia. done.
Qed.

Lemma allocate_Some dim1 dim2 w acc w' :
  allocate rank time_lags dim1 dim2 w = (Some acc, w') →
  let n := length (heap w) in
  acc = Accumulators n (n + 1) (n + 2) (n + 3) (n + 4) ∧
  w' = World (heap w ++ [np_zeros [dim1; rank]; np_zeros [dim2; rank];
                         np_zeros [dim2 + 1; rank]; np_zeros [rank; rank; d];
                         np_zeros [dim1; dim2 + 1]]) (log w).
Proof.
  unfold allocate. intros Hrun. minv. rewrite !length_app. simpl.
  rewrite <- !app_assoc. simpl. split; [|done]. f_equal; lia.
Qed.

Lemma finish_Some pos acc w out w' :
  W_plus acc < length (heap w) → X_new_plus acc < length (heap w) →
  A_plus acc < length (heap w) → mat_hat_plus acc < length (heap w) →
  finish dense_mat maxiter1 maxiter2 pos acc w = (Some out, w') →
  ∃ Wp Xp Ap mp,
    heap w !! W_plus acc = Some Wp ∧ heap w !! X_new_plus acc = Some Xp ∧
    heap w !! A_plus acc = Some Ap ∧ heap w !! mat_hat_plus acc = Some mp ∧
    let m := length (heap w) in
    out = Outputs (m + 3) m (m + 1) (m + 2) ∧
    heap w' = heap w ++ [np_div_scalar Wp (of_Z maxiter2); np_div_scalar Xp (of_Z maxiter2);
                         np_div_scalar Ap (of_Z maxiter2); np_div_scalar mp (of_Z maxiter2)] ∧
    ∃ l, log w' = log w ++ l.
Proof.
  unfold finish. intros HvW HvX HvA HvM Hrun.
  destruct (100 <=? maxiter1)%Z; minv;
    rewrite ?length_app in *; simpl in *;
    repeat match goal with
    | Hl : (_ ++ _) !! _ = Some _ |- _ =>
        rewrite lookup_app_l in Hl by (rewrite ?length_app; simpl; lia)
    end;
    do 4 eexists;
    (split_and!; [done..|f_equal; lia|by rewrite <- !app_assoc|]);
    [by eexists|exists []; by rewrite app_nil_r].
Qed.


Local Abbreviation BTMF_trace' :=
  (BTMF_trace lib dense_mat sparse_mat init rank time_lags maxiter1 maxiter2).

Lemma BTMF_trace_Some w out sws w' :
  BTMF_trace' w = (Some (out, sws), w') →
  ∃ dim1 dim2 pos binary_mat w2,
    shape sparse_mat = [dim1; dim2] ∧ held_out dense_mat sparse_mat = Some pos ∧
    np_set_select (np_zeros [dim1; dim2]) (observed sparse_mat) (of_Z 1) = Some binary_mat ∧
    let n := length (heap w) in
    let w1 := World (heap w ++ [np_zeros [dim1; rank]; np_zeros [dim2; rank];
                                np_zeros [dim2 + 1; rank]; np_zeros [rank; rank; d];
                                np_zeros [dim1; dim2 + 1]]) (log w) in
    iterations lib dense_mat sparse_mat init rank time_lags maxiter1 maxiter2
               dim1 dim2 pos (observed sparse_mat) binary_mat n (n + 2) (n + 3) (n + 4)
               (seq 0 (Z.to_nat maxiter1)) (of_Z 1) w1 = (Some sws, w2) ∧
    finish dense_mat maxiter1 maxiter2 pos (Accumulators n (n + 1) (n + 2) (n + 3) (n + 4)) w2
      = (Some out, w').
Proof.
  unfold BTMF_trace. intros Hrun.
  destruct (shape sparse_mat) as [|dim1 [|dim2 [|]]] eqn:Hs;
    try by apply lift_Some in Hrun as [? _].
  apply M_bind_Some in Hrun as (pos & ? & [Hpos <-]%lift_Some & Hrun).
  apply M_bind_Some in Hrun as (binary_mat & ? & [Hb <-]%lift_Some & Hrun).
  apply M_bind_Some in Hrun as (acc & w1 & [-> ->]%allocate_Some & Hrun).
  apply M_bind_Some in Hrun as (sws' & w2 & Hits & Hrun).
  apply M_bind_Some in Hrun as (out' & w3 & Hfin & Hrun).
  apply M_ret_Some in Hrun as [[= <- <-] ->]. simpl in Hits.
  by exists dim1, dim2, pos, binary_mat, w2.
Qed.

(** Everything that is known at the end of a successful run. *)
Lemma BTMF_trace_end w out sws w' dim1 dim2 :
  W < length (heap w) → X < length (heap w) → W ≠ X →
  shape sparse_mat = [dim1; dim2] →
  BTMF_trace' w = (Some (out, sws), w') →
  let coll := drop (Z.to_nat (maxiter1 - maxiter2)) sws in
  let n := length (heap w) in
  length sws = Z.to_nat maxiter1 ∧
  (∃ Wsum Asum Xsum Msum,
    accumulate (λ sw, Some (sw_W sw)) (np_zeros [dim1; rank]) coll = Some Wsum ∧
    accumulate (λ sw, Some (sw_A sw)) (np_zeros [rank; rank; d]) coll = Some Asum ∧
    accumulate (λ sw, Some (sw_X_new sw)) (np_zeros [dim2 + 1; rank]) coll = Some Xsum ∧
    accumulate sw_recon (np_zeros [dim1; dim2 + 1]) coll = Some Msum ∧
    heap w' !! out_W out = Some (np_div_scalar Wsum (of_Z maxiter2)) ∧
    heap w' !! out_A out = Some (np_div_scalar Asum (of_Z maxiter2)) ∧
    heap w' !! out_X_new out = Some (np_div_scalar Xsum (of_Z maxiter2)) ∧
    heap w' !! out_mat_hat out = Some (np_div_scalar Msum (of_Z maxiter2))) ∧
  Forall (λ sw, extend_X rank time_lags dim2 (sw_X sw) (sw_A sw) = Some (sw_X_new sw)) coll ∧
  out = Outputs (n + 8) (n + 5) (n + 6) (n + 7) ∧
  (∀ r, r < n → r ≠ W → r ≠ X → heap w' !! r = heap w !! r) ∧
  (∃ k, log w' = log w ++ k) ∧
  (∀ sw, last sws = Some sw →
         heap w' !! W = Some (sw_W sw) ∧ heap w' !! X = Some (sw_X sw)) ∧
  ((0 < maxiter1)%Z →
     (∀ i, i < dim1 → row_drawn lib W (length (log w)) w' i) ∧
     (∀ t, t < dim2 → row_drawn lib X (length (log w)) w' t)).
Proof.
  intros HvW HvX Hne Hshape Hrun.
  apply BTMF_trace_Some in Hrun
    as (dim1' & dim2' & pos & binary_mat & w2 & Hs & _ & _ & Hits & Hfin).
  rewrite Hshape in Hs. injection Hs as <- <-.
  set (n := length (heap w)) in *.
  assert (NoDup [W; X; n; n + 2; n + 3; n + 4]) as Hnd.
  { repeat (apply NoDup_cons; split; [notin_lia|]). apply NoDup_nil_2. }
  pose proof Hits as Hits'.
  apply iterations_accumulate in Hits
    as (Hlen & (Hhl & Hframe & kl & Hkl) & HW & HA & HX & HM & Hall & Hlast); [|done].
  rewrite length_seq in Hlen. simpl in Hhl, Hframe, Hkl, HW, HA, HX, HM.
  rewrite collected_seq, Nat.sub_0_r in HW, HA, HX, HM, Hall by done.
  rewrite lookup_app_r in HW, HA, HX, HM by (fold n; lia). fold n in HW, HA, HX, HM.
  replace (n - n) with 0 in HW by lia. replace (n + 3 - n) with 3 in HA by lia.
  replace (n + 2 - n) with 2 in HX by lia. replace (n + 4 - n) with 4 in HM by lia.
  simpl in HW, HA, HX, HM. rewrite length_app in Hhl. simpl in Hhl. fold n in Hhl.
  apply finish_Some in Hfin
    as (Wp & Xp & Ap & mp & HWp & HXp & HAp & Hmp & -> & Hheap & kf & Hkf);
    simpl; [|lia..]. simpl in HWp, HXp, HAp, Hmp.
  rewrite HWp in HW. rewrite HAp in HA. rewrite HXp in HX. rewrite Hmp in HM.
  split; [done|]. split.
  { exists Wp, Ap, Xp, mp. rewrite Hheap, Hhl. split_and!; try done.
    - rewrite lookup_app_r, Hhl by lia. by replace (n + 5 - (n + 5)) with 0 by lia.
    - rewrite lookup_app_r, Hhl by lia. by replace (n + 5 + 2 - (n + 5)) with 2 by lia.
    - rewrite lookup_app_r, Hhl by lia. by replace (n + 5 + 1 - (n + 5)) with 1 by lia.
    - rewrite lookup_app_r, Hhl by lia. by replace (n + 5 + 3 - (n + 5)) with 3 by lia. }
  split; [done|]. split.
  { rewrite Hhl. f_equal; lia. }
  split.
  { intros r Hr HrW HrX. rewrite Hheap, lookup_app_l by lia.
    rewrite Hframe by notin_lia. by apply lookup_app_l. }
  split.
  { exists (kl ++ kf). by rewrite Hkf, Hkl, app_assoc. }
  split.
  { intros sw Hsw. destruct (Hlast sw Hsw) as [HlW HlX].
    rewrite Hheap, !lookup_app_l by lia. done. }
  intros Hpos.
  apply iterations_last_rows in Hits' as [HrW HrX]; [|done|].
  2:{ destruct (Z.to_nat maxiter1) eqn:Hm; [lia|done]. }
  split; intros i Hi; (eapply row_drawn_transport;
    [first [by apply HrW|by apply HrX]|done|by exists kf|]);
    rewrite Hheap, lookup_app_l by lia; done.
Qed.

(** C3. The accumulators start at zero; each of the passes whose index
    satisfies [iters + 1 > maxiter1 - maxiter2] (the last [maxiter2] ones
    when [0 <= maxiter2 <= maxiter1]) adds its [W], its [A], its extended
    [X_new] and its extended reconstruction [W X_new^T] once, no other pass
    adds anything, and the four results are these sums divided by
    [maxiter2]. *)
Theorem averages_over_collection_window w out sws w' dim1 dim2 :
  W < length (heap w) → X < length (heap w) → W ≠ X →
  shape sparse_mat = [dim1; dim2] →
  (0 ≤ maxiter2 ≤ maxiter1)%Z →
  BTMF_trace' w = (Some (out, sws), w') →
  let coll := drop (Z.to_nat (maxiter1 - maxiter2)) sws in
  length sws = Z.to_nat maxiter1 ∧ length coll = Z.to_nat maxiter2 ∧
  ∃ Wsum Asum Xsum Msum,
    accumulate (λ sw, Some (sw_W sw)) (np_zeros [dim1; rank]) coll = Some Wsum ∧
    accumulate (λ sw, Some (sw_A sw)) (np_zeros [rank; rank; d]) coll = Some Asum ∧
    accumulate (λ sw, Some (sw_X_new sw)) (np_zeros [dim2 + 1; rank]) coll = Some Xsum ∧
    accumulate sw_recon (np_zeros [dim1; dim2 + 1]) coll = Some Msum ∧
    heap w' !! out_W out = Some (np_div_scalar Wsum (of_Z maxiter2)) ∧
    heap w' !! out_A out = Some (np_div_scalar Asum (of_Z maxiter2)) ∧
    heap w' !! out_X_new out = Some (np_div_scalar Xsum (of_Z maxiter2)) ∧
    heap w' !! out_mat_hat out = Some (np_div_scalar Msum (of_Z maxiter2)).
Proof.
  intros HvW HvX Hne Hshape Hm Hrun.
  destruct (BTMF_trace_end _ _ _ _ _ _ HvW HvX Hne Hshape Hrun) as (Hlen & Hsums & _).
  split; [done|]. split; [|done]. rewrite length_drop. lia.
Qed.

End Run.

(** ** Results *)

Section SliceLemmas.
Context {A : Type}.
Implicit Types a v : ndarray A.




End SliceLemmas.

Section Extend.
Context `{Float R}.
Variables (rank : nat) (time_lags : list Z) (dim2 : nat).


End Extend.

Section Results.
Context `{Float R} (lib : nat → call R → option (ndarray R)).
Variables (dense_mat sparse_mat : ndarray R) (init : init_dict) (rank : nat)
          (time_lags : list Z) (maxiter1 maxiter2 : Z).
Implicit Types w : world R.

Local Abbreviation W := (init_W init).
Local Abbreviation X := (init_X init).
Local Abbreviation d := (length time_lags).
Local Abbreviation BTMF_trace' :=
  (BTMF_trace lib dense_mat sparse_mat init rank time_lags maxiter1 maxiter2).


(** C10. The arrays passed as [init["W"]] and [init["X"]] are the cells
    that the sampler writes to: when BTMF returns, each of the first [dim1]
    rows of the caller's [W] and each of the first [dim2] rows of the
    caller's [X] is the answer of a multivariate-normal draw made during the
    run, and the two arrays are those of the last pass.  The four results
    are cells that did not exist before the call, distinct from one another;
    no other array of the caller has changed. *)
Theorem inputs_overwritten_outputs_fresh w out sws w' dim1 dim2 :
  W < length (heap w) → X < length (heap w) → W ≠ X →
  shape sparse_mat = [dim1; dim2] → (0 < maxiter1)%Z →
  BTMF_trace' w = (Some (out, sws), w') →
  (∀ i, i < dim1 → row_drawn lib W (length (log w)) w' i) ∧
  (∀ t, t < dim2 → row_drawn lib X (length (log w)) w' t) ∧
  (∃ sw, last sws = Some sw ∧
         heap w' !! W = Some (sw_W sw) ∧ heap w' !! X = Some (sw_X sw)) ∧
  Forall (λ r, length (heap w) ≤ r ∧ is_Some (heap w' !! r))
         [out_mat_hat out; out_W out; out_X_new out; out_A out] ∧
  NoDup [out_mat_hat out; out_W out; out_X_new out; out_A out] ∧
  (∀ r, r < length (heap w) → r ≠ W → r ≠ X → heap w' !! r = heap w !! r).
Proof.
  intros HvW HvX Hne Hshape Hpos Hrun.
  destruct (BTMF_trace_end _ _ _ _ _ _ _ _ _ _ _ _ _ _ HvW HvX Hne Hshape Hrun)
    as (Hlen & (Wsum & Asum & Xsum & Msum & _ & _ & _ & _ & HoW & HoA & HoX & HoM)
        & _ & Hout & Hframe & _ & Hlast & Hrows).
  destruct (Hrows Hpos) as [HrW HrX]. split_and!; try done.
  - destruct (last sws) as [sw|] eqn:Hsw.
    + exists sw. by destruct (Hlast sw eq_refl).
    + apply last_None in Hsw. subst sws. simpl in Hlen. lia.
  - subst out. simpl in *. repeat (apply Forall_cons; split; [split; [lia|by eexists]|]).
    apply Forall_nil_2.
  - subst out. simpl. repeat (apply NoDup_cons; split; [notin_lia|]). apply NoDup_nil_2.
Qed.

End Results.

(** ** Entry *)

Section Entry.
Context `{Float R} (lib : nat → call R → option (ndarray R)).
Variables (dense_mat sparse_mat : ndarray R) (init : init_dict) (rank : nat)
          (time_lags : list Z) (maxiter1 maxiter2 : Z).
Implicit Types w : world R.

Local Abbreviation W := (init_W init).
Local Abbreviation X := (init_X init).

Lemma log_grows_refl w : log_grows w w.
Proof. exists []. by rewrite app_nil_r. Qed.

Lemma log_grows_trans w1 w2 w3 : log_grows w1 w2 → log_grows w2 w3 → log_grows w1 w3.
Proof. intros [l1 H1] [l2 H2]. exists (l1 ++ l2). by rewrite H2, H1, app_assoc. Qed.

Lemma extends_log_grows {X} rs (c : @M R X) :
  respects (extends rs) c → respects log_grows c.
Proof. intros Hc w r w' Hrun. by destruct (Hc _ _ _ Hrun) as (_ & _ & ?). Qed.

Lemma alloc_log_grows (a : ndarray R) : respects log_grows (alloc a).
Proof. intros w r w' [= <- <-]. exists []. simpl. by rewrite app_nil_r. Qed.

Lemma emit_log_grows (c : call R) : respects log_grows (emit c).
Proof. intros w r w' [= <- <-]. by eexists. Qed.

(** The calls logged by the first part of a computation stay in the log. *)
Lemma bind_log_prefix {X Y} (m : @M R X) (k : X → M Y) w l :
  (∀ x, respects log_grows (k x)) →
  (∃ rest, log (snd (m w)) = l ++ rest) →
  ∃ rest, log (snd ((m ≫= k) w)) = l ++ rest.
Proof.
  intros Hk [rest Hm]. unfold mbind, M_bind, bind.
  destruct (m w) as [[x|] w1] eqn:Hmw; simpl in *; [|by eexists].
  destruct (k x w1) as [r w2] eqn:Hkx. destruct (Hk _ _ _ _ Hkx) as [l2 Hl2].
  exists (rest ++ l2). simpl. by rewrite Hl2, Hm, app_assoc.
Qed.

Ltac log_step :=
  match goal with
  | |- respects _ (@mbind _ _ _ _ _ _) =>
      apply respects_bind; [exact log_grows_trans| |intros ?]
  | |- respects _ (@mret _ _ _ _) => apply respects_ret; exact log_grows_refl
  | |- respects _ (lift _) => apply respects_lift; exact log_grows_refl
  | |- respects _ (load _) => apply respects_load; exact log_grows_refl
  | |- respects _ (alloc _) => apply alloc_log_grows
  | |- respects _ (emit _) => apply emit_log_grows
  | |- respects _ (if _ then _ else _) => apply respects_if
  end.

Lemma finish_log_grows pos acc :
  respects log_grows (finish dense_mat maxiter1 maxiter2 pos acc).
Proof. unfold finish. repeat log_step. Qed.

Lemma iterations_log_grows dim1 dim2 pos position binary_mat Wp Xp Ap mp its tau :
  respects log_grows
    (iterations lib dense_mat sparse_mat init rank time_lags maxiter1 maxiter2
                dim1 dim2 pos position binary_mat Wp Xp Ap mp its tau).
Proof.
  revert tau. induction its as [|iters its IH]; intros tau; simpl; repeat log_step.
  - eapply extends_log_grows, iteration_extends.
  - apply IH.
Qed.

(** The hyperparameter update of the loading side reads the array of
    [init["W"]] and the library, nothing else. *)
Lemma sample_W_hyper_frame dim1 w v :
  heap w !! W = heap v !! W → log w = log v →
  fst (sample_W_hyper lib init rank dim1 w) = fst (sample_W_hyper lib init rank dim1 v) ∧
  log (snd (sample_W_hyper lib init rank dim1 w))
    = log (snd (sample_W_hyper lib init rank dim1 v)).
Proof.
  destruct w as [hw lw], v as [hv lv]. simpl. intros Hh ->.
  unfold sample_W_hyper, inv, call_lib, load, lift, mbind, M_bind, bind, mret, M_ret, ret.
  simpl. rewrite Hh.
  repeat (case_match; simplify_eq/=; try done).
Qed.

Lemma sample_W_hyper_log dim1 w r w1 :
  sample_W_hyper lib init rank dim1 w = (Some r, w1) →
  is_Some (heap w !! W) ∧
  ∃ a b df Sc c mu cov,
    log w1 = log w ++ [Linalg_inv a; Linalg_inv b; Wishart_rvs df Sc; Linalg_inv c;
                       Random_multivariate_normal mu cov].
Proof.
  unfold sample_W_hyper. intros Hrun. minv. split; [by eexists|].
  rewrite <- !app_assoc. simpl. by repeat eexists.
Qed.

Lemma binary_mat_total dim1 dim2 position :
  is_Some (np_set_select (np_zeros [dim1; dim2]) position (of_Z 1)).
Proof.
  unfold np_set_select. apply tabulate_total. intros idx Hb.
  case_bool_decide; [by eexists|]. apply get_is_Some; [|done].
  unfold wf. simpl. by rewrite length_replicate.
Qed.

Lemma bind_Some_eq {X Y} (m : @M R X) (k : X → M Y) w x w' :
  m w = (Some x, w') → (m ≫= k) w = k x w'.
Proof. unfold mbind, M_bind, bind. by intros ->. Qed.

(** C9, as the code has it.  BTMF checks nothing at entry.  Whenever the
    loading-side hyperparameter update succeeds from the caller's state (it
    reads [init["W"]] and the libraries, neither [init["X"]] nor
    [time_lags]), it has made a Wishart and a multivariate-normal draw, and
    the log of the whole run of BTMF starts with the log of that update,
    however the run ends. *)
Theorem sampling_starts_unchecked w dim1 dim2 r w1 :
  shape sparse_mat = [dim1; dim2] → is_Some (held_out dense_mat sparse_mat) →
  (0 < maxiter1)%Z →
  sample_W_hyper lib init rank dim1 w = (Some r, w1) →
  ∃ df Sc mu cov rest,
    List.filter is_draw (drop (length (log w)) (log w1))
      = [Wishart_rvs df Sc; Random_multivariate_normal mu cov] ∧
    log (snd (BTMF lib dense_mat sparse_mat init rank time_lags maxiter1 maxiter2 w))
      = log w1 ++ rest.
Proof.
  intros Hshape [pos Hpos] Hm Hrun.
  destruct (sample_W_hyper_log _ _ _ _ Hrun) as ([Wv HWv] & a & b & df & Sc & c & mu & cov & Hlog).
  exists df, Sc, mu, cov.
  cut (∃ rest, log (snd (BTMF lib dense_mat sparse_mat init rank time_lags
                              maxiter1 maxiter2 w)) = log w1 ++ rest).
  { intros [rest Hrest]. exists rest. split; [|done]. by rewrite Hlog, drop_app_length. }
  unfold BTMF, fmap, M_fmap. apply bind_log_prefix.
  { intros x. apply respects_ret, log_grows_refl. }
  unfold BTMF_trace. rewrite Hshape, Hpos.
  erewrite (bind_Some_eq (lift _)) by reflexivity.
  destruct (binary_mat_total dim1 dim2 (observed sparse_mat)) as [bm Hbm]. rewrite Hbm.
  erewrite (bind_Some_eq (lift _)) by reflexivity.
  erewrite (bind_Some_eq (allocate _ _ _ _)) by reflexivity.
  apply bind_log_prefix.
  { intros sws. repeat log_step. apply finish_log_grows. }
  destruct (Z.to_nat maxiter1) as [|m] eqn:Hm1; [lia|].
  change (seq 0 (S m)) with (0 :: seq 1 m). cbn [iterations].
  apply bind_log_prefix.
  { intros sw. repeat log_step. apply iterations_log_grows. }
  unfold iteration. apply bind_log_prefix.
  { intros []. eapply (extends_log_grows [W; X; _; _; _; _]).
    respects_tac; apply iadd_ref_extends; solve_elem. }
  unfold sample_W. apply bind_log_prefix.
  { intros [mu0 L0]. apply (extends_log_grows [W]). unfold sample_W_row. respects_tac. }
  match goal with |- ∃ rest, log (snd (sample_W_hyper _ _ _ _ ?w2)) = _ =>
    destruct (sample_W_hyper_frame dim1 w2 w) as [_ Hl] end.
  - simpl. rewrite <- !app_assoc. apply lookup_app_l. by eapply lookup_lt_Some.
  - done.
  - rewrite Hl, Hrun. exists []. simpl. by rewrite app_nil_r.
Qed.

End Entry.

(** ** The temporal sampler, step by step *)

Section Sampler.
Context `{Float R} (lib : nat → call R → option (ndarray R)).
Variables (dense_mat sparse_mat : ndarray R) (init : init_dict) (rank : nat)
          (time_lags : list Z) (maxiter1 maxiter2 : Z).
Variables (dim1 dim2 : nat) (pos position : list (list nat)) (binary_mat : ndarray R).
Variables (W_plus X_new_plus A_plus mat_hat_plus : ref).
Implicit Types w : world R.

Local Abbreviation W := (init_W init).
Local Abbreviation X := (init_X init).

(** Every element of the list of a successful loop had its pass. *)
Lemma for__elem {B} (body : B → M unit) (l : list B) w w' x :
  (∀ y, respects log_grows (body y)) →
  for_ l body w = (Some (), w') → x ∈ l →
  ∃ wi wi', body x wi = (Some (), wi') ∧ log_grows w wi ∧ log_grows wi' w'.
Proof.
  intros Hbody. revert w. induction l as [|y l IH]; intros w Hrun Hx.
  { by apply elem_of_nil in Hx. }
  simpl in Hrun. apply M_bind_Some in Hrun as ([] & w1 & Hy & Hrun).
  assert (respects log_grows (for_ l body)) as Hrest.
  { apply respects_for_; [exact log_grows_refl|exact log_grows_trans|done]. }
  apply elem_of_cons in Hx as [->|Hx].
  - exists w, w1. split_and!; [done|apply log_grows_refl|by eapply Hrest].
  - destruct (IH _ Hrun Hx) as (wi & wi' & Hi & Hpre & Hpost).
    exists wi, wi'. split_and!; [done| |done].
    eapply log_grows_trans; [by eapply Hbody|done].
Qed.

(** The loop over the lag indices (lines 352-359) reads [X] and nothing
    else of the state; with [Xv] the contents of [X], it is this fold. *)
Lemma for_fold_forward_term A Lambda_x (t : Z) index MN MN' w w' Xv :
  heap w !! X = Some Xv →
  for_fold index (forward_term init rank time_lags A Lambda_x t) MN w = (Some MN', w') →
  foldlM (λ '(Mt, Nt) k,
            Ak ← np_index 3 2 A (Z.of_nat k);
            AkT ← np_T Ak;
            AL ← np_matmul AkT Lambda_x;
            ALA ← np_matmul AL Ak;
            Mt' ← np_iadd Mt ALA;
            A0 ← np_set_index 3 2 (np_copy A) (Z.of_nat k) (np_scalar (of_Z 0));
            lag ← time_lags !! k;
            x1 ← np_index 2 0 Xv (t + lag);
            A0_unf ← ten2mat A0 0;
            v ← lagged_rows rank time_lags Xv (t + lag);
            p ← np_matmul A0_unf v;
            var5 ← np_sub x1 p;
            n ← np_matmul AL var5;
            Nt' ← np_iadd Nt n;
            Some (Mt', Nt')) MN index = Some MN'.
Proof.
  intros HX. revert MN. induction index as [|k index IH]; intros MN Hrun; cbn [for_fold] in Hrun.
  { by apply M_ret_Some in Hrun as [-> _]. }
  apply M_bind_Some in Hrun as (MN1 & w1 & Hstep & Hrun).
  assert (w = w1) as <- by (eapply forward_term_pure, Hstep).
  apply IH in Hrun. destruct MN as [Mt Nt]. simpl. unfold forward_term in Hstep. minv.
  by simplify_option_eq.
Qed.

(** The steps of a successful run of the temporal sampler (lines 335-365). *)
Lemma sample_X_Some A Sigma tau w w' :
  sample_X lib sparse_mat init rank time_lags dim2 binary_mat A Sigma tau w = (Some (), w') →
  ∃ Lambda_x Wv var1 var2 m3 r3 ds3 var3 m4,
    lib (length (log w)) (Linalg_inv Sigma) = Some Lambda_x ∧
    heap w !! W = Some Wv ∧ np_T Wv = Some var1 ∧ kr_prod var1 var1 = Some var2 ∧
    np_matmul var2 binary_mat = Some m3 ∧
    np_reshape m3 [Some rank; Some rank; Some dim2] order_C = Some r3 ∧
    np_dstack (replicate dim2 Lambda_x) = Some ds3 ∧
    np_add (np_scale tau r3) ds3 = Some var3 ∧
    np_matmul var1 sparse_mat = Some m4 ∧
    ∀ t, t < dim2 →
      ∃ wt wt' mid post,
        sample_X_row lib init rank time_lags dim2 A Lambda_x var3 (np_scale tau m4) t wt
          = (Some (), wt') ∧
        log wt = log w ++ Linalg_inv Sigma :: mid ∧ log w' = log wt' ++ post.
Proof.
  unfold sample_X. intros Hrun.
  apply M_bind_Some in Hrun as (Lambda_x & w1 & [HL ->]%call_lib_Some & Hrun).
  simpl in Hrun.
  apply M_bind_Some in Hrun as (Wv & ? & [HWv ->]%load_Some & Hrun).
  apply M_bind_Some in Hrun as (var1 & ? & [Hv1 ->]%lift_Some & Hrun).
  apply M_bind_Some in Hrun as (var2 & ? & [Hv2 ->]%lift_Some & Hrun).
  apply M_bind_Some in Hrun as (m3 & ? & [Hm3 ->]%lift_Some & Hrun).
  apply M_bind_Some in Hrun as (r3 & ? & [Hr3 ->]%lift_Some & Hrun).
  apply M_bind_Some in Hrun as (ds3 & ? & [Hds3 ->]%lift_Some & Hrun).
  apply M_bind_Some in Hrun as (var3 & ? & [Hvar3 ->]%lift_Some & Hrun).
  apply M_bind_Some in Hrun as (m4 & ? & [Hm4 ->]%lift_Some & Hrun).
  do 9 eexists. split_and!; [done..|]. intros t Ht.
  eapply for__elem in Hrun as (wt & wt' & Hrow & [mid Hmid] & [post Hpost]).
  - exists wt, wt', mid, post. split_and!; [done| |done].
    rewrite Hmid. simpl. by rewrite <- app_assoc.
  - intros y. eapply extends_log_grows, sample_X_row_extends.
  - apply elem_of_seq. lia.
Qed.

Local Abbreviation iteration' :=
  (iteration lib dense_mat sparse_mat init rank time_lags maxiter1 maxiter2
             dim1 dim2 pos position binary_mat W_plus X_new_plus A_plus mat_hat_plus).

(** The coefficient sampler and the temporal sampler of a pass: the second
    is run on what the first returned, with the [tau] of the pass. *)
Lemma iteration_sample_X iters tau w sw w' :
  iteration' iters tau w = (Some sw, w') →
  ∃ w1 w2 w3 w4 w5 Sigma pre post,
    sample_W lib sparse_mat init rank dim1 binary_mat tau w = (Some (), w1) ∧
    sample_A lib init rank time_lags dim2 w2 = (Some (Sigma, sw_A sw), w3) ∧
    sample_X lib sparse_mat init rank time_lags dim2 binary_mat (sw_A sw) Sigma tau w4
      = (Some (), w5) ∧
    log w4 = log w ++ pre ∧ log w' = log w5 ++ post.
Proof.
  intros Hrun.
  apply iteration_Some in Hrun
    as (w1 & w2 & w3 & w4 & w5 & w6 & Sigma & Wv & Xv & XT & scale & g & rmse & Hrun).
  destruct Hrun as (HW & HWp & HA & HAp & HX & _ & _ & _ & _ & HXn & _ & _ & _ & _ & _ & Hlog & _).
  apply collect_tail_extends in HXn as (_ & _ & k6 & Hk6).
  assert (extends [W; X; W_plus; A_plus] w w4) as (_ & _ & k4 & Hk4).
  { eapply extends_trans; [eapply extends_mono, sample_W_extends, HW; solve_incl|].
    eapply extends_trans.
    { destruct (collecting _ _ _); [|subst; apply extends_refl].
      destruct HWp as (Wc & _ & HWp). eapply iadd_ref_extends, HWp. solve_elem. }
    eapply extends_trans; [eapply extends_mono, sample_A_extends, HA; solve_incl|].
    destruct (collecting _ _ _); [|subst; apply extends_refl].
    eapply iadd_ref_extends, HAp. solve_elem. }
  exists w1, w2, w3, w4, w5, Sigma, k4. eexists. split_and!; [done..|].
  by rewrite Hlog, Hk6, <- app_assoc.
Qed.

(** C1. In every successful pass of the main loop, at every time step
    [t < dim2] of the temporal sampler, the forward terms [Mt] and [Nt] are
    the sums, started at zero, of the contributions of exactly the lag
    indices [k] with [max(time_lags) <= t + time_lags[k] < dim2], each taken
    once, in increasing order: for such a [k], with [Ak = A[:, :, k]],
    [Mt += (Ak.T Lambda_x) Ak] and
    [Nt += (Ak.T Lambda_x) (X[t + lag] - ten2mat(A0, 0) X[t + lag - time_lags])],
    [A0] being [A] with slab [k] set to zero; the other lag indices add
    nothing.  [Mt] is part of the matrix that is inverted, [Nt] of the mean
    [inv(...) (var4[:, t] + Nt + Qt)] of the draw.  [A] is the tensor drawn
    in this pass and [Lambda_x] the inverse of the [Sigma] drawn with it.
    The lags are taken not to be negative. *)
Theorem forward_terms_follow_rule iters tau (mx : Z) w sw w' :
  (∀ l, l ∈ time_lags → 0 ≤ l)%Z →
  np_max time_lags = Some mx →
  iteration' iters tau w = (Some sw, w') →
  ∃ w2 w3 w4 pre Sigma Lambda_x var3 var4,
    sample_A lib init rank time_lags dim2 w2 = (Some (Sigma, sw_A sw), w3) ∧
    log w4 = log w ++ pre ∧
    lib (length (log w4)) (Linalg_inv Sigma) = Some Lambda_x ∧
    ∀ t, t < dim2 →
      let included :=
        List.filter (λ k, if time_lags !! k is Some lag
                          then ((mx <=? Z.of_nat t + lag)
                                && (Z.of_nat t + lag <? Z.of_nat dim2))%Z
                          else false)
                    (seq 0 (length time_lags)) in
      ∃ wt mid post Xv Mt Nt Qt v3 c s var_mu P iP mean,
        log wt = log w4 ++ Linalg_inv Sigma :: mid ∧
        heap wt !! X = Some Xv ∧
        foldlM (λ '(Mt, Nt) k,
                  Ak ← np_index 3 2 (sw_A sw) (Z.of_nat k);
                  AkT ← np_T Ak;
                  AL ← np_matmul AkT Lambda_x;
                  ALA ← np_matmul AL Ak;
                  Mt' ← np_iadd Mt ALA;
                  A0 ← np_set_index 3 2 (np_copy (sw_A sw)) (Z.of_nat k) (np_scalar (of_Z 0));
                  lag ← time_lags !! k;
                  x1 ← np_index 2 0 Xv (Z.of_nat t + lag);
                  A0_unf ← ten2mat A0 0;
                  v ← lagged_rows rank time_lags Xv (Z.of_nat t + lag);
                  p ← np_matmul A0_unf v;
                  var5 ← np_sub x1 p;
                  n ← np_matmul AL var5;
                  Nt' ← np_iadd Nt n;
                  Some (Mt', Nt'))
               (np_zeros [rank; rank], np_zeros [rank]) included = Some (Mt, Nt) ∧
        np_index 3 2 var3 (Z.of_nat t) = Some v3 ∧
        (if (Z.of_nat t <? mx)%Z
         then ∃ a b, np_add v3 Mt = Some a ∧ np_sub a Lambda_x = Some b ∧
                     np_add b (np_eye rank) = Some P
         else np_add v3 Mt = Some P) ∧
        np_index 2 1 var4 (Z.of_nat t) = Some c ∧
        np_add c Nt = Some s ∧ np_add s Qt = Some var_mu ∧
        lib (length (log wt)) (Linalg_inv P) = Some iP ∧
        np_matmul iP var_mu = Some mean ∧
        log w' = log wt ++ [Linalg_inv P; Random_multivariate_normal mean iP] ++ post.
Proof.
  intros Hpos Hmx Hrun.
  apply iteration_sample_X in Hrun
    as (w1 & w2 & w3 & w4 & w5 & Sigma & pre & post5 & _ & HA & HX & Hpre & Hpost5).
  apply sample_X_Some in HX
    as (Lambda_x & Wv & var1 & var2 & m3 & r3 & ds3 & var3 & m4 & HL & _ & _ & _ & _ & _ & _ & _ & _ & Hrows).
  exists w2, w3, w4, pre, Sigma, Lambda_x, var3, (np_scale tau m4).
  split_and!; [done..|]. intros t Ht included.
  destruct (Hrows t Ht) as (wt & wt' & mid & post & Hrow & Hmid & Hpost).
  eapply sample_X_row_Some in Hrow
    as (Xv & Qt & Mt & Nt & index & v3 & c & s & var_mu & P & iP & mean & HXv & _ & Hindex
        & Hfold & Hv3 & HP & Hc & Hs & Hmu & HiP & Hmean & Hlog); [|done].
  rewrite (forward_lags_filter time_lags dim2 (Z.of_nat t) mx) in Hindex by (done || lia).
  injection Hindex as <-.
  eapply for_fold_forward_term in Hfold; [|done].
  exists wt, mid, (post ++ post5), Xv, Mt, Nt, Qt, v3, c, s, var_mu, P, iP, mean.
  split_and!; try done.
  by rewrite Hpost5, Hpost, Hlog, <- !app_assoc.
Qed.

(** C6. In every successful pass of the main loop, the temporal sampler
    inverts the [Sigma] drawn in this pass, [Lambda_x = inv(Sigma)], and
    builds [var3 = tau * (kr_prod(W.T, W.T) binary_mat).reshape(rank, rank, dim2)
    + dstack([Lambda_x] * dim2)], so that [var3[:, :, t]] is the data term
    plus [Lambda_x], and [var4 = tau * (W.T sparse_mat)].  At a time step
    [t < max(time_lags)] the backward term [Qt] is the zero vector and the
    matrix inverted is [var3[:, :, t] + Mt - Lambda_x + np.eye(rank)]; at
    [t >= max(time_lags)] the backward term is
    [Lambda_x (ten2mat(A, 0) X[t - time_lags])] and the matrix inverted is
    [var3[:, :, t] + Mt].  In both cases the row is drawn with mean
    [inv(...) (var4[:, t] + Nt + Qt)] and covariance [inv(...)], [Mt] and
    [Nt] being the forward terms of the step. *)
Theorem temporal_conditional_cases iters tau (mx : Z) w sw w' :
  np_max time_lags = Some mx →
  iteration' iters tau w = (Some sw, w') →
  ∃ w2 w3 w4 pre Sigma Lambda_x Wv var1 var2 m3 r3 ds3 var3 m4,
    sample_A lib init rank time_lags dim2 w2 = (Some (Sigma, sw_A sw), w3) ∧
    log w4 = log w ++ pre ∧
    lib (length (log w4)) (Linalg_inv Sigma) = Some Lambda_x ∧
    heap w4 !! W = Some Wv ∧ np_T Wv = Some var1 ∧ kr_prod var1 var1 = Some var2 ∧
    np_matmul var2 binary_mat = Some m3 ∧
    np_reshape m3 [Some rank; Some rank; Some dim2] order_C = Some r3 ∧
    np_dstack (replicate dim2 Lambda_x) = Some ds3 ∧
    np_add (np_scale tau r3) ds3 = Some var3 ∧
    np_matmul var1 sparse_mat = Some m4 ∧
    ∀ t, t < dim2 →
      ∃ wt mid post Xv index Mt Nt Qt v3 c s var_mu P iP mean,
        log wt = log w4 ++ Linalg_inv Sigma :: mid ∧
        heap wt !! X = Some Xv ∧
        forward_lags time_lags dim2 (Z.of_nat t) = Some index ∧
        for_fold index (forward_term init rank time_lags (sw_A sw) Lambda_x (Z.of_nat t))
                 (np_zeros [rank; rank], np_zeros [rank]) wt = (Some (Mt, Nt), wt) ∧
        np_index 3 2 var3 (Z.of_nat t) = Some v3 ∧
        (if (Z.of_nat t <? mx)%Z
         then Qt = np_zeros [rank] ∧
              ∃ a b, np_add v3 Mt = Some a ∧ np_sub a Lambda_x = Some b ∧
                     np_add b (np_eye rank) = Some P
         else (∃ A_unf v Av,
                  ten2mat (sw_A sw) 0 = Some A_unf ∧
                  lagged_rows rank time_lags Xv (Z.of_nat t) = Some v ∧
                  np_matmul A_unf v = Some Av ∧ np_matmul Lambda_x Av = Some Qt) ∧
              np_add v3 Mt = Some P) ∧
        np_index 2 1 (np_scale tau m4) (Z.of_nat t) = Some c ∧
        np_add c Nt = Some s ∧ np_add s Qt = Some var_mu ∧
        lib (length (log wt)) (Linalg_inv P) = Some iP ∧
        np_matmul iP var_mu = Some mean ∧
        log w' = log wt ++ [Linalg_inv P; Random_multivariate_normal mean iP] ++ post.
Proof.
  intros Hmx Hrun.
  apply iteration_sample_X in Hrun
    as (w1 & w2 & w3 & w4 & w5 & Sigma & pre & post5 & _ & HA & HX & Hpre & Hpost5).
  apply sample_X_Some in HX
    as (Lambda_x & Wv & var1 & var2 & m3 & r3 & ds3 & var3 & m4 & HL & HWv & Hv1 & Hv2 & Hm3
        & Hr3 & Hds3 & Hvar3 & Hm4 & Hrows).
  exists w2, w3, w4, pre, Sigma, Lambda_x, Wv, var1, var2, m3, r3, ds3, var3, m4.
  split_and!; [done..|]. intros t Ht.
  destruct (Hrows t Ht) as (wt & wt' & mid & post & Hrow & Hmid & Hpost).
  eapply sample_X_row_Some in Hrow
    as (Xv & Qt & Mt & Nt & index & v3 & c & s & var_mu & P & iP & mean & HXv & HQt & Hindex
        & Hfold & Hv3 & HP & Hc & Hs & Hmu & HiP & Hmean & Hlog); [|done].
  exists wt, mid, (post ++ post5), Xv, index, Mt, Nt, Qt, v3, c, s, var_mu, P, iP, mean.
  split_and!; try done.
  - by destruct (Z.of_nat t <? mx)%Z.
  - by rewrite Hpost5, Hpost, Hlog, <- !app_assoc.
Qed.

End Sampler.

(** ** The noise precision, from pass to pass *)

Section Chain.
Context `{Float R} (lib : nat → call R → option (ndarray R)).
Variables (dense_mat sparse_mat : ndarray R) (init : init_dict) (rank : nat)
          (time_lags : list Z) (maxiter1 maxiter2 : Z).
Implicit Types w : world R.

Local Abbreviation W := (init_W init).
Local Abbreviation X := (init_X init).

(** Every sweep of the main loop is the result of one pass, run with the
    [tau] of the sweep before it (the first with the [tau] given). *)
Lemma iterations_passes dim1 dim2 pos position binary_mat Wp Xp Ap mp its tau w sws w' :
  iterations lib dense_mat sparse_mat init rank time_lags maxiter1 maxiter2
             dim1 dim2 pos position binary_mat Wp Xp Ap mp its tau w = (Some sws, w') →
  length sws = length its ∧
  ∀ k sw, sws !! k = Some sw →
    ∃ iters tau_in wk wk',
      its !! k = Some iters ∧
      match k with
      | 0 => tau_in = tau
      | S j => ∃ prev, sws !! j = Some prev ∧ tau_in = sw_tau prev
      end ∧
      iteration lib dense_mat sparse_mat init rank time_lags maxiter1 maxiter2
                dim1 dim2 pos position binary_mat Wp Xp Ap mp iters tau_in wk = (Some sw, wk') ∧
      log_grows w wk ∧ log_grows wk' w'.
Proof.
  revert tau w sws. induction its as [|iters its IH]; intros tau w sws Hrun; simpl in Hrun.
  { apply M_ret_Some in Hrun as [-> _]. split; [done|]. intros k sw Hk. by destruct k. }
  apply M_bind_Some in Hrun as (sw0 & w1 & Hpass & Hrun).
  apply M_bind_Some in Hrun as (sws' & w2 & Hrest & Hrun).
  apply M_ret_Some in Hrun as [-> ->].
  assert (log_grows w1 w2) as Hgrow by (eapply iterations_log_grows, Hrest).
  assert (log_grows w w1) as Hfirst.
  { eapply extends_log_grows; [apply iteration_extends|apply Hpass]. }
  destruct (IH _ _ _ Hrest) as [Hlen Hpasses]. split; [simpl; by f_equal|].
  intros [|j] sw Hk; simpl in Hk.
  - injection Hk as <-. exists iters, tau, w, w1.
    split_and!; [done..|apply log_grows_refl|done].
  - destruct (Hpasses _ _ Hk) as (it & tau_in & wk & wk' & Hit & Htau & Hrunk & Hpre & Hpost).
    exists it, tau_in, wk, wk'. split_and!; [done| |done|by eapply log_grows_trans|done].
    destruct j as [|i]; [exists sw0; by subst|done].
Qed.

Local Abbreviation BTMF_trace' :=
  (BTMF_trace lib dense_mat sparse_mat init rank time_lags maxiter1 maxiter2).

(** C7. In a successful run of BTMF every pass of the main loop ends by
    drawing [tau] anew: its last library call (only the progress lines may
    follow it) is [np.random.gamma] with shape [alpha + 0.5 * n], [n] the
    number of nonzero entries of [sparse_mat], and scale
    [1 / (beta + 0.5 * s)], [s] the sum of the squares of
    [sparse_mat - W X^T] over these entries, [W] and [X] being the factors
    as the pass leaves them and [alpha = beta = 1e-6]; the answer is the
    [tau] of the sweep.  The pass itself samples with the [tau] drawn by the
    pass before it, the first pass with [tau = 1]: this is the [tau] handed
    to the sampler of the loading matrix and to the temporal sampler. *)
Theorem tau_redrawn_each_pass dim1 dim2 w out sws w' :
  W < length (heap w) → X < length (heap w) →
  shape sparse_mat = [dim1; dim2] →
  BTMF_trace' w = (Some (out, sws), w') →
  length sws = Z.to_nat maxiter1 ∧
  ∃ binary_mat,
    np_set_select (np_zeros [dim1; dim2]) (observed sparse_mat) (of_Z 1) = Some binary_mat ∧
    ∀ k sw, sws !! k = Some sw →
      ∃ tau_in wk w1 Sigma w4 w5 before pre XT diff sel g rmse after,
        match k with
        | 0 => tau_in = of_Z 1
        | S j => ∃ prev, sws !! j = Some prev ∧ tau_in = sw_tau prev
        end ∧
        log wk = log w ++ before ∧
        sample_W lib sparse_mat init rank dim1 binary_mat tau_in wk = (Some (), w1) ∧
        sample_X lib sparse_mat init rank time_lags dim2 binary_mat (sw_A sw) Sigma tau_in w4
          = (Some (), w5) ∧
        np_T (sw_X sw) = Some XT ∧ np_matmul (sw_W sw) XT = Some (sw_mat_hat sw) ∧
        np_sub sparse_mat (sw_mat_hat sw) = Some diff ∧
        np_select diff (observed sparse_mat) = Some sel ∧
        let a := fadd (of_Q (1 # 1000000))
                      (fmul (of_Q (1 # 2)) (of_nat (length (observed sparse_mat)))) in
        let scale := fdiv (of_Z 1)
                          (fadd (of_Q (1 # 1000000))
                                (fmul (of_Q (1 # 2)) (np_sum (np_square sel)))) in
        log w' = log wk ++ pre ++ Random_gamma a scale
                   :: progress_lines maxiter1 maxiter2 k rmse ++ after ∧
        lib (length (log wk ++ pre)) (Random_gamma a scale) = Some g ∧
        item g = Some (sw_tau sw).
Proof.
  intros HvW HvX Hshape Hrun.
  apply BTMF_trace_Some in Hrun
    as (dim1' & dim2' & pos & binary_mat & w2 & Hshape' & _ & Hb & Hits & Hfin).
  rewrite Hshape in Hshape'. injection Hshape' as <- <-.
  apply finish_log_grows in Hfin as [lfin Hfin].
  apply iterations_passes in Hits as [Hlen Hpasses].
  rewrite length_seq in Hlen. split; [done|]. exists binary_mat. split; [done|].
  intros k sw Hk.
  destruct (Hpasses _ _ Hk)
    as (iters & tau_in & wk & wk' & Hiters & Htau & Hpass & [before Hbefore] & [rest Hrest]).
  apply lookup_seq in Hiters as [-> _]. simpl in Hbefore.
  pose proof Hpass as Htaus. apply iteration_tau in Htaus
    as (pre & XT & diff & sel & g & rmse & HXT & Hmh & Hdiff & Hsel & Hlog & Hg & Hitem);
    [|simpl; notin_lia..].
  apply iteration_sample_X in Hpass
    as (w1 & _ & _ & w4 & w5 & Sigma & _ & _ & HW & _ & HX & _).
  exists tau_in, wk, w1, Sigma, w4, w5, before, pre, XT, diff, sel, g, rmse, (rest ++ lfin).
  cbv zeta in *. split_and!; try done.
  by rewrite Hfin, Hrest, Hlog, <- !app_assoc.
Qed.

End Chain.

(** ** Unfolding and folding, entry by entry *)

Section Unfolding.
Context {A : Type}.
Implicit Types a b T M : ndarray A.

(** Moving the first axis of a 3-way array to position [m] and back. *)
Lemma np_moveaxis3_from0 a m s0 s1 s2 :
  wf a → shape a = [s0; s1; s2] → m < 3 →
  ∃ b, np_moveaxis a 0 m = Some b ∧ wf b ∧ np_moveaxis b m 0 = Some a ∧
       shape b = match m with 0 => [s0; s1; s2] | 1 => [s1; s0; s2] | _ => [s1; s2; s0] end.
Proof.
  intros Hwf Hsa Hm.
  assert (is_Some (np_moveaxis a 0 m)) as [b Hb].
  { unfold np_moveaxis, np_transpose. rewrite Hsa.
    destruct m as [|[|[|m]]]; [| | |lia]; cbn -[tabulate get scatter];
      apply tabulate_total;
      intros idx (i & j & k & -> & Hi & Hj & Hk)%in_bounds3; cbn -[get];
      apply get_is_Some; [done| |done| |done|]; rewrite Hsa;
      by apply in_bounds3_intro. }
  exists b. split; [done|].
  unfold np_moveaxis in Hb. rewrite Hsa in Hb.
  destruct m as [|[|[|m]]]; [| | |lia]; cbn -[np_transpose] in Hb;
    apply np_transpose_spec in Hb as (Hsb & Hwfb & Hget);
    rewrite Hsa in Hsb, Hget; cbn in Hsb; injection Hsb as Hsb;
    (split; [done|]); (split; [|done]);
    unfold np_moveaxis, np_transpose; rewrite <- Hsb in Hget |- *;
    cbn -[tabulate get scatter]; rewrite <- Hsa;
    (apply tabulate_eq_Some; [done|done|]); rewrite Hsa;
    intros idx (i & j & k & -> & Hi & Hj & Hk)%in_bounds3; cbn -[get];
    (rewrite Hget by by apply in_bounds3_intro); done.
Qed.

Lemma fix_unknown_dimension_rows_inv n size s' :
  fix_unknown_dimension [Some n; None] size = Some s' →
  n ≠ 0 ∧ size `mod` n = 0 ∧ s' = [n; size `div` n].
Proof.
  unfold fix_unknown_dimension. cbn. rewrite Nat.mul_1_r.
  destruct (n =? 0) eqn:Hn; [done|]. apply Nat.eqb_neq in Hn.
  destruct (size `mod` n =? 0) eqn:Hmod; [|done]. apply Nat.eqb_eq in Hmod.
  cbn. by intros [= <-].
Qed.

(** X1. The unfoldings of a 3-way tensor [T] of shape [n0 x n1 x n2], entry
    by entry: [ten2mat(T, 0)[i, j + n1*k]], [ten2mat(T, 1)[j, i + n0*k]] and
    [ten2mat(T, 2)[k, i + n0*j]] are all [T[i, j, k]]; the two remaining axes
    are run through in their original order, the earlier one fastest. *)
Theorem ten2mat_entries T m M n0 n1 n2 :
  shape T = [n0; n1; n2] → ten2mat T m = Some M →
  ∀ i j k, i < n0 → j < n1 → k < n2 →
    get M (match m with
           | 0 => [i; j + n1 * k]
           | 1 => [j; i + n0 * k]
           | _ => [k; i + n0 * j]
           end) = get T [i; j; k].
Proof.
  intros HsT Hten i j k Hi Hj Hk. unfold ten2mat in Hten.
  destruct (np_moveaxis T m 0) as [moved|] eqn:Hmoved; [|done].
  cbn [mbind option_bind] in Hten.
  destruct (shape T !! m) as [n|] eqn:Hn; [|done]. cbn [mbind option_bind] in Hten.
  apply np_reshape_F_spec in Hten as (_ & _ & Hfix & HgetM).
  apply fix_unknown_dimension_rows_inv in Hfix as (Hn0 & _ & HsM).
  unfold np_moveaxis in Hmoved. rewrite HsT in Hmoved, Hn.
  destruct m as [|[|[|m]]]; [| | |done]; cbn -[np_transpose] in Hmoved;
    apply np_transpose_spec in Hmoved as (Hsm & _ & Hgetm);
    rewrite HsT in Hsm, Hgetm; cbn in Hsm; injection Hsm as Hsm;
    cbn in Hn; injection Hn as <-;
    rewrite <- Hsm in HsM, Hgetm, HgetM; rewrite HsM in HgetM;
    cbn [size_of foldr] in HgetM, HsM.
  - rewrite HgetM.
    + replace (ravel_F _ [i; j + n1 * k]) with (ravel_F [n0; n1; n2] [i; j; k])
        by (cbn; lia).
      rewrite unravel_F_ravel_F by by apply in_bounds3_intro.
      rewrite Hgetm by by apply in_bounds3_intro. done.
    + apply in_bounds_cons. split; [done|]. apply in_bounds_cons. split; [|done].
      rewrite Nat.mul_1_r, (Nat.mul_comm n0), Nat.div_mul by done. nia.
  - rewrite HgetM.
    + replace (ravel_F _ [j; i + n0 * k]) with (ravel_F [n1; n0; n2] [j; i; k])
        by (cbn; lia).
      rewrite unravel_F_ravel_F by by apply in_bounds3_intro.
      rewrite Hgetm by by apply in_bounds3_intro. done.
    + apply in_bounds_cons. split; [done|]. apply in_bounds_cons. split; [|done].
      rewrite Nat.mul_1_r, (Nat.mul_comm n1), Nat.div_mul by done. nia.
  - rewrite HgetM.
    + replace (ravel_F _ [k; i + n0 * j]) with (ravel_F [n2; n0; n1] [k; i; j])
        by (cbn; lia).
      rewrite unravel_F_ravel_F by by apply in_bounds3_intro.
      rewrite Hgetm by by apply in_bounds3_intro. done.
    + apply in_bounds_cons. split; [done|]. apply in_bounds_cons. split; [|done].
      rewrite Nat.mul_1_r, (Nat.mul_comm n2), Nat.div_mul by done. nia.
Qed.

(** On a 3-way tensor, [ten2mat(T, m)] at an axis counted from the front
    returns exactly when [m] is one of the axes and that axis is not empty. *)
Lemma ten2mat_returns_iff T m :
  wf T → length (shape T) = 3 →
  is_Some (ten2mat T m) ↔ ∃ n, shape T !! m = Some n ∧ n ≠ 0.
Proof.
  intros Hwf Hlen. split.
  - intros [M HM]. unfold ten2mat in HM.
    destruct (np_moveaxis T m 0) as [moved|]; [|done]. cbn [mbind option_bind] in HM.
    destruct (shape T !! m) as [n|]; [|done]. cbn [mbind option_bind] in HM.
    exists n. split; [done|].
    apply np_reshape_F_spec in HM as (_ & _ & Hfix & _).
    by apply fix_unknown_dimension_rows_inv in Hfix as (? & _).
  - intros (n & Hn & Hn0).
    assert (m < 3) as Hm by (apply lookup_lt_Some in Hn; lia).
    destruct (np_moveaxis3_total T m Hwf Hlen Hm) as [moved Hmoved].
    destruct (np_moveaxis3_inv _ _ _ Hwf Hlen Hmoved) as (_ & Hwfm & Hsm).
    unfold ten2mat. rewrite Hmoved, Hn. cbn [mbind option_bind].
    eapply np_reshape_F_total; [done|]. apply fix_unknown_dimension_rows; [done|].
    destruct (shape T) as [|n0 [|n1 [|n2 [|]]]]; try done.
    destruct m as [|[|[|m]]]; [| | |lia]; cbn in Hsm, Hn;
      injection Hsm as <-; injection Hn as ->; cbn;
      rewrite (Nat.mul_comm n); apply Nat.Div0.mod_mul.
Qed.

Lemma np_reshape_F_same a ns ns' :
  fix_unknown_dimension ns (size_of (shape a)) = fix_unknown_dimension ns' (size_of (shape a)) →
  np_reshape a ns order_F = np_reshape a ns' order_F.
Proof. unfold np_reshape. by intros ->. Qed.

(** X3. Folding, then unfolding: for a matrix [M] with [n = size[m] > 0]
    rows and [prod(size) / n] columns, [mat2ten(M, size, m)] is a tensor of
    shape [size], and [ten2mat] of it at mode [m] is [M] again. *)
Theorem ten2mat_mat2ten M (size : list nat) (m n : nat) :
  wf M → length size = 3 → size !! m = Some n → n ≠ 0 →
  shape M = [n; size_of size `div` n] →
  ∃ T, mat2ten M size m = Some T ∧ shape T = size ∧ ten2mat T m = Some M.
Proof.
  intros Hwf Hlen Hn Hn0 HsM.
  assert (m < 3) as Hm by (apply lookup_lt_Some in Hn; lia).
  destruct size as [|t0 [|t1 [|t2 [|]]]]; try done.
  assert (∃ q, size_of [t0; t1; t2] = q * n) as [q Hq].
  { destruct m as [|[|[|m]]]; [| | |lia]; cbn in Hn; injection Hn as <-.
    - exists (t1 * t2). cbn. lia.
    - exists (t0 * t2). cbn. lia.
    - exists (t0 * t1). cbn. lia. }
  rewrite Hq, Nat.div_mul in HsM by done.
  unfold mat2ten. cbn [length].
  assert (∃ sizes, mapM (λ i, [t0; t1; t2] !! i)
                        (m :: List.filter (λ i, negb (i =? m)) (seq 0 3)) = Some sizes ∧
                   size_of sizes = size_of (shape M) ∧
                   sizes = match m with
                           | 0 => [t0; t1; t2] | 1 => [t1; t0; t2] | _ => [t2; t0; t1]
                           end) as (sizes & -> & Hsz & Hsizes).
  { rewrite HsM. cbn in Hq.
    destruct m as [|[|[|m]]]; [| | |lia];
      eexists; (split; [reflexivity|]); (split; [|reflexivity]); cbn; lia. }
  cbn [mbind option_bind].
  pose proof (fix_unknown_dimension_known sizes _ Hsz) as Hfix.
  destruct (np_reshape_F_total M _ _ Hwf Hfix) as [folded Hfolded]. rewrite Hfolded.
  cbn [mbind option_bind].
  pose proof (np_reshape_F_inv _ _ _ Hwf Hfolded) as Hinv.
  apply np_reshape_F_spec in Hfolded as (Hsize & Hwff & Hfix' & _).
  rewrite Hfix in Hfix'. injection Hfix' as Hsf.
  assert (∃ s0 s1 s2, shape folded = [s0; s1; s2]) as (s0 & s1 & s2 & Hsf3).
  { rewrite <- Hsf, Hsizes. destruct m as [|[|]]; by eexists _, _, _. }
  destruct (np_moveaxis3_from0 folded m _ _ _ Hwff Hsf3 Hm) as (T & HT & HwfT & Hback & HsT).
  exists T. split; [done|].
  assert (shape T = [t0; t1; t2]) as HsT'.
  { rewrite HsT. rewrite <- Hsf, Hsizes in Hsf3.
    destruct m as [|[|]]; by injection Hsf3 as <- <- <-. }
  split; [done|].
  unfold ten2mat. rewrite Hback, HsT', Hn. cbn [mbind option_bind].
  rewrite <- Hinv. apply np_reshape_F_same.
  rewrite HsM. cbn [fmap list_fmap].
  assert (size_of (shape folded) = q * n) as Hsq.
  { rewrite Hsize, HsM. cbn. lia. }
  rewrite Hsq, fix_unknown_dimension_rows; [|done|apply Nat.Div0.mod_mul].
  rewrite (fix_unknown_dimension_known [n; q]); [|cbn; lia].
  by rewrite Nat.div_mul.
Qed.

Lemma fix_unknown_dimension_known_inv s size s' :
  fix_unknown_dimension (Some <$> s) size = Some s' → s' = s ∧ size_of s = size.
Proof.
  intros Hfix. destruct (decide (size_of s = size)) as [Heq|Hne].
  - rewrite fix_unknown_dimension_known in Hfix by done. by injection Hfix as <-.
  - exfalso. revert Hfix. unfold fix_unknown_dimension.
    assert (omap id (Some <$> s) = s) as ->.
    { clear Hne. induction s as [|x s IH]; [done|].
      change (omap id (Some <$> x :: s)) with (x :: omap id (Some <$> s)). by rewrite IH. }
    assert (List.filter is_unknown (Some <$> s) = []) as ->.
    { clear Hne. induction s as [|x s IH]; [done|]. apply IH. }
    cbn. by apply Nat.eqb_neq in Hne as ->.
Qed.

(** For a [tensor_size] of three entries and a mode counted from the front,
    [mat2ten(mat, tensor_size, mode)] returns exactly when [mode < 3] and
    [mat] has [prod(tensor_size)] elements, whatever its own shape; what it
    returns has the shape [tensor_size]. *)
Lemma mat2ten_returns_iff M (size : list nat) (m : nat) :
  wf M → length size = 3 →
  (is_Some (mat2ten M size m) ↔ m < 3 ∧ size_of (shape M) = size_of size) ∧
  (∀ T, mat2ten M size m = Some T → shape T = size).
Proof.
  intros Hwf Hlen. destruct size as [|t0 [|t1 [|t2 [|]]]]; try done.
  assert (∀ T, mat2ten M [t0; t1; t2] m = Some T →
               m < 3 ∧ size_of (shape M) = size_of [t0; t1; t2] ∧ shape T = [t0; t1; t2])
    as Hfwd.
  { intros T HT. unfold mat2ten in HT. cbn [length] in HT.
    destruct m as [|[|[|m]]]; [| | |by cbn in HT]; cbn -[np_reshape np_moveaxis] in HT;
      (destruct (np_reshape M _ order_F) as [folded|] eqn:Hf; [|done]);
      cbn [mbind option_bind] in HT;
      apply np_reshape_F_spec in Hf as (Hsize & Hwff & Hfix & _);
      apply (fix_unknown_dimension_known_inv [_; _; _]) in Hfix as [Hsf Hsz];
      (split; [lia|]); (split; [rewrite <- Hsz; cbn; lia|]).
    - destruct (np_moveaxis3_from0 folded 0 _ _ _ Hwff Hsf) as (T' & HT' & _ & _ & HsT');
        [lia|]. rewrite HT in HT'. by injection HT' as <-.
    - destruct (np_moveaxis3_from0 folded 1 _ _ _ Hwff Hsf) as (T' & HT' & _ & _ & HsT');
        [lia|]. rewrite HT in HT'. by injection HT' as <-.
    - destruct (np_moveaxis3_from0 folded 2 _ _ _ Hwff Hsf) as (T' & HT' & _ & _ & HsT');
        [lia|]. rewrite HT in HT'. by injection HT' as <-. }
  split; [|by intros T (_ & _ & ?)%Hfwd].
  split; [by intros [T (? & ? & _)%Hfwd]|].
  intros [Hm Hsz]. unfold mat2ten. cbn [length].
  assert (∃ sizes, mapM (λ i, [t0; t1; t2] !! i)
                        (m :: List.filter (λ i, negb (i =? m)) (seq 0 3)) = Some sizes ∧
                   size_of sizes = size_of (shape M) ∧ length sizes = 3)
    as (sizes & -> & Hsz' & Hl).
  { rewrite Hsz. destruct m as [|[|[|m]]]; [| | |lia];
      eexists; (split; [reflexivity|]); (split; [|reflexivity]); cbn; lia. }
  cbn [mbind option_bind].
  pose proof (fix_unknown_dimension_known sizes _ Hsz') as Hfix.
  destruct (np_reshape_F_total M _ _ Hwf Hfix) as [folded Hfolded]. rewrite Hfolded.
  cbn [mbind option_bind].
  apply np_reshape_F_spec in Hfolded as (_ & Hwff & Hfix' & _).
  rewrite Hfix in Hfix'. injection Hfix' as Hsf.
  destruct sizes as [|s0 [|s1 [|s2 [|]]]]; try done. symmetry in Hsf.
  destruct (np_moveaxis3_from0 folded m _ _ _ Hwff Hsf Hm) as (T & HT & _). by exists T.
Qed.

(** Modes that are Python integers. *)
Lemma norm_index_of_nat n (i : nat) :
  norm_index n (Z.of_nat i) = if i <? n then Some i else None.
Proof.
  unfold norm_index.
  destruct (Nat.ltb_spec i n), (Z.leb_spec 0 (Z.of_nat i)), (Z.ltb_spec (Z.of_nat i) (Z.of_nat n));
    try lia; simpl; [by rewrite Nat2Z.id|].
  destruct (Z.ltb_spec (Z.of_nat i) 0); [lia|]. by rewrite andb_false_r.
Qed.

Lemma norm_index_Some n (i : Z) r :
  norm_index n i = Some r ↔
  (0 ≤ i < Z.of_nat n)%Z ∧ r = Z.to_nat i ∨
  (- Z.of_nat n ≤ i < 0)%Z ∧ r = Z.to_nat (i + Z.of_nat n).
Proof.
  unfold norm_index.
  destruct (Z.leb_spec 0 i), (Z.ltb_spec i (Z.of_nat n)); simpl.
  1:{ split; [intros [= <-]; by left|intros [[_ ->]|[? _]]; [done|lia]]. }
  all: destruct (Z.leb_spec (- Z.of_nat n) i), (Z.ltb_spec i 0); simpl;
    (split; [try done; intros [= <-]; right; (split; [lia|done])
            |intros [[? ->]|[? ->]]; (done || (exfalso; lia))]).
Qed.

Lemma np_moveaxis_int_of_nat a (s d : nat) :
  np_moveaxis_int a (Z.of_nat s) (Z.of_nat d) = np_moveaxis a s d.
Proof.
  unfold np_moveaxis_int, np_moveaxis. cbv zeta. rewrite !norm_index_of_nat.
  destruct (s <? length (shape a)) eqn:Hs; [|done]. cbn [mbind option_bind].
  destruct (d <? length (shape a)) eqn:Hd; [|done]. cbn [mbind option_bind].
  by rewrite ?Hs, ?Hd.
Qed.

Lemma ten2mat_int_norm T (mode : Z) :
  ten2mat_int T mode = r ← norm_index (length (shape T)) mode; ten2mat T r.
Proof.
  unfold ten2mat_int, np_moveaxis_int, ten2mat.
  destruct (norm_index _ mode) as [r|] eqn:Hr; [|done]. cbn [mbind option_bind].
  assert (0 < length (shape T)) as Hpos by (apply norm_index_Some in Hr; lia).
  change 0%Z with (Z.of_nat 0). rewrite norm_index_of_nat.
  by destruct (Nat.ltb_spec 0 (length (shape T))); [|lia].
Qed.

(** X2. On a 3-way tensor, [ten2mat(T, mode)] returns exactly when
    [-3 <= mode < 3] and the axis [mode], counted from the end when
    negative, is not empty; in every other case it raises. *)
Theorem ten2mat_int_returns_iff T (mode : Z) :
  wf T → length (shape T) = 3 →
  is_Some (ten2mat_int T mode) ↔
  (-3 ≤ mode < 3)%Z ∧ ∃ n, shape T !! Z.to_nat (mode `mod` 3) = Some n ∧ n ≠ 0.
Proof.
  intros Hwf Hlen. rewrite ten2mat_int_norm, Hlen.
  destruct (norm_index 3 mode) as [r|] eqn:Hr.
  - cbn [mbind option_bind]. rewrite (ten2mat_returns_iff T r Hwf Hlen).
    apply norm_index_Some in Hr.
    assert ((-3 ≤ mode < 3)%Z ∧ r = Z.to_nat (mode `mod` 3)) as [Hrange ->].
    { destruct Hr as [[? ->]|[? ->]]; (split; [lia|f_equal]).
      - by rewrite Z.mod_small by lia.
      - rewrite <- (Z.mod_add mode 1 3) by lia. rewrite Z.mod_small by lia. lia. }
    split; [by intros ?|by intros [_ ?]].
  - split; [by intros [? ?]|]. intros [Hrange _]. exfalso.
    assert (is_Some (norm_index 3 mode)) as [r Hr']; [|by rewrite Hr in Hr'].
    destruct (decide (0 ≤ mode)%Z).
    + exists (Z.to_nat mode). apply norm_index_Some. left. split; [lia|done].
    + exists (Z.to_nat (mode + Z.of_nat 3)). apply norm_index_Some. right. split; [lia|done].
Qed.

Lemma filter_of_nat (m : nat) (l : list nat) :
  List.filter (λ i, negb (i =? Z.of_nat m)%Z) (Z.of_nat <$> l)
  = Z.of_nat <$> List.filter (λ i, negb (i =? m)) l.
Proof.
  induction l as [|x l IH]; [done|]. cbn.
  destruct (Z.eqb_spec (Z.of_nat x) (Z.of_nat m)), (Nat.eqb_spec x m); try lia; cbn;
    by rewrite IH.
Qed.

Lemma filter_negative (mode : Z) (l : list nat) :
  (mode < 0)%Z →
  List.filter (λ i, negb (i =? mode)%Z) (Z.of_nat <$> l) = Z.of_nat <$> l.
Proof.
  intros Hneg. induction l as [|x l IH]; [done|]. cbn.
  destruct (Z.eqb_spec (Z.of_nat x) mode); [lia|]. cbn. by rewrite IH.
Qed.

Lemma mapM_norm_index (size : list nat) (l : list nat) :
  mapM (λ i, j ← norm_index (length size) i; size !! j) (Z.of_nat <$> l)
  = mapM (λ i, size !! i) l.
Proof.
  induction l as [|x l IH]; [done|]. cbn. rewrite norm_index_of_nat.
  replace (mapM _ (Z.of_nat <$> l)) with (mapM (λ i, size !! i) l) by done.
  destruct (Nat.ltb_spec x (length size)); [done|].
  cbn. by rewrite (lookup_ge_None_2 size x) by lia.
Qed.

Lemma mat2ten_int_of_nat M (size : list nat) (m : nat) :
  mat2ten_int M size (Z.of_nat m) = mat2ten M size m.
Proof.
  unfold mat2ten_int, mat2ten.
  rewrite filter_of_nat. change (Z.of_nat m :: (Z.of_nat <$> ?l)) with (Z.of_nat <$> (m :: l)).
  rewrite mapM_norm_index.
  destruct (mapM _ _) as [sizes|]; [|done]. cbn [mbind option_bind].
  destruct (np_reshape M _ order_F) as [folded|]; [|done]. cbn [mbind option_bind].
  change 0%Z with (Z.of_nat 0). apply np_moveaxis_int_of_nat.
Qed.

Lemma in_bounds4 n0 n1 n2 n3 idx :
  in_bounds [n0; n1; n2; n3] idx = true →
  ∃ i j k l, idx = [i; j; k; l] ∧ i < n0 ∧ j < n1 ∧ k < n2 ∧ l < n3.
Proof.
  intros Hb. destruct idx as [|i [|j [|k [|l [|]]]]]; simpl in Hb;
    rewrite ?andb_false_r in Hb; try done.
  rewrite !andb_true_iff, !Nat.ltb_lt in Hb. destruct Hb as (? & ? & ? & ? & _).
  by exists i, j, k, l.
Qed.

(** Moving the first axis of a 4-way array to a later position. *)
Lemma np_moveaxis4_from0 a m s0 s1 s2 s3 :
  wf a → shape a = [s0; s1; s2; s3] → 0 < m < 4 →
  ∃ b, np_moveaxis a 0 m = Some b ∧
       shape b = match m with
                 | 1 => [s1; s0; s2; s3] | 2 => [s1; s2; s0; s3] | _ => [s1; s2; s3; s0]
                 end.
Proof.
  intros Hwf Hsa Hm.
  assert (is_Some (np_moveaxis a 0 m)) as [b Hb].
  { unfold np_moveaxis, np_transpose. rewrite Hsa.
    destruct m as [|[|[|[|m]]]]; [lia| | | |lia]; cbn -[tabulate get scatter];
      apply tabulate_total;
      intros idx (i & j & k & l & -> & Hi & Hj & Hk & Hl)%in_bounds4; cbn -[get];
      apply get_is_Some; [done| |done| |done|]; rewrite Hsa;
      rewrite !in_bounds_cons; done. }
  exists b. split; [done|]. unfold np_moveaxis in Hb. rewrite Hsa in Hb.
  destruct m as [|[|[|[|m]]]]; [lia| | | |lia]; cbn -[np_transpose] in Hb;
    apply np_transpose_spec in Hb as (Hsb & _); rewrite Hsa in Hsb; cbn in Hsb;
    by injection Hsb as <-.
Qed.

(** X4. For a [tensor_size] of three entries: with [0 <= mode],
    [mat2ten(mat, tensor_size, mode)] returns exactly when [mode < 3] and
    [mat] has [prod(tensor_size)] elements, whatever its own shape, and what
    it returns has the shape [tensor_size].  With [mode < 0] the index list
    is [[mode, 0, 1, 2]]: the call returns exactly when [-3 <= mode] and
    [mat] has [tensor_size[mode] * prod(tensor_size)] elements, and what it
    returns has four axes. *)
Theorem mat2ten_int_returns_iff M (size : list nat) (mode : Z) :
  wf M → length size = 3 →
  ((0 ≤ mode)%Z →
     (is_Some (mat2ten_int M size mode) ↔
        (mode < 3)%Z ∧ size_of (shape M) = size_of size) ∧
     (∀ T, mat2ten_int M size mode = Some T → shape T = size)) ∧
  ((mode < 0)%Z →
     (is_Some (mat2ten_int M size mode) ↔
        (-3 ≤ mode)%Z ∧ ∃ n, size !! Z.to_nat (mode + 3) = Some n ∧
                              size_of (shape M) = n * size_of size) ∧
     (∀ T, mat2ten_int M size mode = Some T → length (shape T) = 4)).
Proof.
  intros Hwf Hlen. split; intros Hmode.
  - rewrite <- (Z2Nat.id mode) by done. rewrite mat2ten_int_of_nat.
    destruct (mat2ten_returns_iff M size (Z.to_nat mode) Hwf Hlen) as [Hiff Hshape].
    split; [|done]. rewrite Hiff. split; intros [? ?]; (split; [lia|done]).
  - assert (∀ T, mat2ten_int M size mode = Some T →
                 (-3 ≤ mode)%Z ∧
                 (∃ n, size !! Z.to_nat (mode + 3) = Some n ∧
                       size_of (shape M) = n * size_of size) ∧
                 length (shape T) = 4) as Hfwd.
    { intros T HT. unfold mat2ten_int in HT. rewrite filter_negative in HT by done.
      rewrite Hlen in HT. cbn [mapM seq fmap list_fmap] in HT.
      destruct size as [|t0 [|t1 [|t2 [|]]]]; try done.
      destruct (norm_index 3 mode) as [r|] eqn:Hr; [|by cbn in HT].
      apply norm_index_Some in Hr as [[? _]|[Hrange ->]]; [lia|].
      change (Z.of_nat 3) with 3%Z in *. cbn [mbind option_bind] in HT.
      destruct ([t0; t1; t2] !! Z.to_nat (mode + 3)) as [n|] eqn:Hn; [|by cbn in HT].
      rewrite !norm_index_of_nat in HT. cbn -[np_reshape np_moveaxis_int] in HT.
      destruct (np_reshape M _ order_F) as [folded|] eqn:Hf; [|done].
      cbn [mbind option_bind] in HT.
      apply np_reshape_F_spec in Hf as (_ & Hwff & Hfix & _).
      apply (fix_unknown_dimension_known_inv [_; _; _; _]) in Hfix as [Hsf Hsz].
      split; [lia|]. split.
      { exists n. split; [done|]. rewrite <- Hsz. cbn. lia. }
      unfold np_moveaxis_int in HT. rewrite Hsf in HT. cbn [length] in HT.
      change 0%Z with (Z.of_nat 0) in HT. rewrite norm_index_of_nat in HT.
      cbn [Nat.ltb Nat.leb mbind option_bind] in HT.
      destruct (norm_index 4 mode) as [q|] eqn:Hq; [|done].
      apply norm_index_Some in Hq as [[? _]|[_ ->]]; [lia|].
      cbn [mbind option_bind] in HT.
      destruct (np_moveaxis4_from0 folded (Z.to_nat (mode + Z.of_nat 4)) _ _ _ _ Hwff Hsf)
        as (T' & HT' & HsT'); [lia|].
      rewrite HT in HT'. injection HT' as <-. rewrite HsT'.
      generalize (Z.to_nat (mode + Z.of_nat 4)). by intros [|[|[|?]]]. }
    split; [|by intros T (_ & _ & ?)%Hfwd].
    split; [by intros [T (? & ? & _)%Hfwd]|].
    intros (Hrange & n & Hn & Hsz).
    unfold mat2ten_int. rewrite filter_negative by done.
    rewrite Hlen. cbn [mapM seq fmap list_fmap].
    assert (norm_index 3 mode = Some (Z.to_nat (mode + 3))) as ->.
    { apply norm_index_Some. right. split; [lia|done]. }
    cbn [mbind option_bind]. rewrite Hn. cbn [mbind option_bind].
    destruct size as [|t0 [|t1 [|t2 [|]]]]; try done.
    rewrite !norm_index_of_nat. cbn -[np_reshape np_moveaxis_int].
    assert (size_of [n; t0; t1; t2] = size_of (shape M)) as Hsz' by (rewrite Hsz; cbn; lia).
    pose proof (fix_unknown_dimension_known _ _ Hsz') as Hfix.
    destruct (np_reshape_F_total M _ _ Hwf Hfix) as [folded Hfolded].
    change (Some <$> [n; t0; t1; t2]) with [Some n; Some t0; Some t1; Some t2] in Hfolded, Hfix.
    rewrite Hfolded. cbn [mbind option_bind].
    apply np_reshape_F_spec in Hfolded as (_ & Hwff & Hfix' & _).
    rewrite Hfix in Hfix'. injection Hfix' as Hsf. symmetry in Hsf.
    unfold np_moveaxis_int. rewrite Hsf. cbn [length].
    change 0%Z with (Z.of_nat 0). rewrite norm_index_of_nat.
    cbn [Nat.ltb Nat.leb mbind option_bind].
    assert (norm_index 4 mode = Some (Z.to_nat (mode + 4))) as ->.
    { apply norm_index_Some. right. split; [lia|done]. }
    cbn [mbind option_bind].
    destruct (np_moveaxis4_from0 folded (Z.to_nat (mode + 4)) _ _ _ _ Hwff Hsf)
      as (T & HT & _); [lia|]. by exists T.
Qed.

End Unfolding.

(** ** The Khatri-Rao product and the scatter matrix *)

Section Products.
Context `{Float R}.
Implicit Types a b c : ndarray R.

Lemma in_bounds2 n0 n1 i j : in_bounds [n0; n1] [i; j] = true ↔ i < n0 ∧ j < n1.
Proof. rewrite !in_bounds_cons. split; [by intros (? & ? & _)|by intros [? ?]]. Qed.

Lemma in_bounds1 n0 i : in_bounds [n0] [i] = true ↔ i < n0.
Proof. rewrite in_bounds_cons. split; [by intros [? _]|done]. Qed.

Lemma broadcast_rev_same s : broadcast_rev s s = Some s.
Proof.
  induction s as [|n s IH]; [done|]. cbn. rewrite IH. cbn. by rewrite Nat.eqb_refl.
Qed.

Lemma broadcast_shapes_same s : broadcast_shapes s s = Some s.
Proof. unfold broadcast_shapes. rewrite broadcast_rev_same. cbn. by rewrite reverse_involutive. Qed.

Lemma bidx_same s idx : in_bounds s idx = true → bidx s idx = idx.
Proof.
  unfold bidx. intros Hb.
  assert (length idx = length s) as Hlen.
  { revert idx Hb. induction s as [|n s IH]; intros [|i idx] Hb; try done.
    apply in_bounds_cons in Hb as [_ Hb]. cbn. f_equal. by apply IH. }
  rewrite Hlen, Nat.sub_diag, drop_0. clear Hlen.
  revert idx Hb. induction s as [|n s IH]; intros [|i idx] Hb; try done.
  apply in_bounds_cons in Hb as [Hi Hb]. cbn. rewrite IH by done. f_equal.
  destruct (n =? 1) eqn:Hn; [|done]. apply Nat.eqb_eq in Hn. lia.
Qed.

(** X5. For [a] of shape [m x r] and [b] of shape [n x r] with [m * n > 0],
    [kr_prod(a, b)] has shape [(m * n) x r], and its row [i * n + j] is the
    element-wise product of row [i] of [a] and row [j] of [b]. *)
Theorem kr_prod_entries a b m n r :
  wf a → wf b → shape a = [m; r] → shape b = [n; r] → m * n ≠ 0 →
  ∃ c, kr_prod a b = Some c ∧ shape c = [m * n; r] ∧
       ∀ i j l, i < m → j < n → l < r →
         ∃ x y, get a [i; l] = Some x ∧ get b [j; l] = Some y ∧
                get c [i * n + j; l] = Some (fmul x y).
Proof.
  intros Hwfa Hwfb Hsa Hsb Hmn. unfold kr_prod, np_einsum_ir_jr_ijr. rewrite Hsa, Hsb.
  rewrite broadcast_shapes_same. cbn [mbind option_bind].
  assert (∀ i j l, i < m → j < n → l < r →
            ∃ x y, get a [i; l] = Some x ∧ get b [j; l] = Some y) as Hxy.
  { intros i j l Hi Hj Hl.
    destruct (get_is_Some a [i; l] Hwfa) as [x Hx]; [rewrite Hsa; by apply in_bounds2|].
    destruct (get_is_Some b [j; l] Hwfb) as [y Hy]; [rewrite Hsb; by apply in_bounds2|].
    by exists x, y. }
  match goal with |- context [tabulate ?s ?f] => destruct (tabulate_total s f) as [e He] end.
  { intros idx (i & j & l & -> & Hi & Hj & Hl)%in_bounds3.
    rewrite bidx_same by by apply in_bounds1.
    destruct (Hxy i j l Hi Hj Hl) as (x & y & -> & ->). by eexists. }
  rewrite He. change ([m; r] !! 0) with (Some m). change ([n; r] !! 0) with (Some n).
  cbn [mbind option_bind].
  apply tabulate_spec in He as (Hse & Hwfe & Hgete).
  unfold np_reshape. cbn [mbind option_bind mret option_ret]. rewrite Hse.
  assert (size_of [m; n; r] = r * (m * n)) as Hsz by (cbn; lia).
  rewrite Hsz, fix_unknown_dimension_rows, Nat.div_mul; [|done|done|apply Nat.Div0.mod_mul].
  cbn [mbind option_bind]. eexists. split; [done|]. split; [done|].
  intros i j l Hi Hj Hl. destruct (Hxy i j l Hi Hj Hl) as (x & y & Hx & Hy).
  exists x, y. split; [done|]. split; [done|].
  rewrite get_in_bounds; [|apply in_bounds2; split; [cbn; nia|done]].
  cbn [shape data].
  replace (ravel [m * n; r] [i * n + j; l]) with (ravel [m; n; r] [i; j; l]) by (cbn; lia).
  rewrite <- Hse, <- get_in_bounds by (rewrite Hse; by apply in_bounds3_intro).
  rewrite Hgete by by apply in_bounds3_intro.
  rewrite bidx_same by by apply in_bounds1. by rewrite Hx, Hy.
Qed.

(** X6. [kr_prod] raises when one of its operands has no rows: the [-1] of
    [reshape(0, -1)] cannot be inferred. *)
Theorem kr_prod_no_rows a b m n r r' :
  shape a = [m; r] → shape b = [n; r'] → m * n = 0 → kr_prod a b = None.
Proof.
  intros Hsa Hsb Hmn. unfold kr_prod.
  destruct (np_einsum_ir_jr_ijr a b) as [e|]; [|done]. cbn [mbind option_bind].
  rewrite Hsa, Hsb. cbn [lookup list_lookup mbind option_bind].
  unfold np_reshape, fix_unknown_dimension. rewrite Hmn. done.
Qed.

Lemma np_zip_with_same {B C D} (f : B → C → D) (u : ndarray B) (v : ndarray C)
    (r : ndarray D) s :
  shape u = s → shape v = s → np_zip_with f u v = Some r →
  shape r = s ∧ wf r ∧
  ∀ idx, in_bounds s idx = true →
         get r idx = (x ← get u idx; y ← get v idx; Some (f x y)).
Proof.
  intros Hu Hv. unfold np_zip_with. rewrite Hu, Hv, broadcast_shapes_same.
  cbn [mbind option_bind]. intros (Hs & Hwf & Hget)%tabulate_spec.
  split; [done|]. split; [done|]. intros idx Hidx.
  rewrite Hget by done. by rewrite bidx_same.
Qed.

Lemma mapM_pointwise {B C} (f : B → option C) (g : B → C) (l : list B) :
  (∀ x, x ∈ l → f x = Some (g x)) → mapM f l = Some (g <$> l).
Proof.
  intros Hf. apply mapM_Some, Forall2_fmap_r, Forall_Forall2_diag, Forall_forall. done.
Qed.

Lemma np_zeros_get s idx : in_bounds s idx = true → get (np_zeros s) idx = Some (of_Z 0).
Proof.
  intros Hb. rewrite get_in_bounds by done. cbn.
  apply lookup_replicate_2. by apply ravel_lt.
Qed.

Section Scatter.
Variables (mat : ndarray R) (dim1 dim2 : nat) (X : nat → nat → R).
Hypothesis Hshape : shape mat = [dim1; dim2].
Hypothesis Hmat : ∀ i j, i < dim1 → j < dim2 → get mat [i; j] = Some (X i j).

Lemma np_mean_axis0_entries bar :
  np_mean_axis0 mat = Some bar →
  shape bar = [dim2] ∧
  ∀ j, j < dim2 →
       get bar [j] = Some (fdiv (fsum ((λ i, X i j) <$> seq 0 dim1)) (of_nat dim1)).
Proof using Hshape Hmat.
  unfold np_mean_axis0. rewrite Hshape. intros (Hs & _ & Hget)%tabulate_spec.
  split; [done|]. intros j Hj. rewrite Hget by by apply in_bounds1.
  rewrite (mapM_pointwise _ (λ i, X i j)); [done|].
  intros i Hi%elem_of_seq. apply Hmat; lia.
Qed.

Lemma row_entries i row :
  i < dim1 → np_index 2 0 mat (Z.of_nat i) = Some row →
  shape row = [dim2] ∧ ∀ j, j < dim2 → get row [j] = Some (X i j).
Proof using Hshape Hmat.
  intros Hi. unfold np_index. rewrite Hshape. case_guard; [|done].
  cbn [mbind option_bind mret option_ret lookup list_lookup].
  rewrite norm_index_nat by done. cbn [mbind option_bind].
  intros (Hs & _ & Hget)%tabulate_spec. split; [done|]. intros j Hj.
  rewrite Hget by by apply in_bounds1. cbn. by apply Hmat.
Qed.

Lemma cov_loop mat_bar (bar : nat → R) l acc c (E : nat → nat → R) :
  shape mat_bar = [dim2] → (∀ j, j < dim2 → get mat_bar [j] = Some (bar j)) →
  (∀ i, i ∈ l → i < dim1) →
  shape acc = [dim2; dim2] →
  (∀ j k, j < dim2 → k < dim2 → get acc [j; k] = Some (E j k)) →
  foldlM (λ new_mat i,
            row ← np_index 2 0 mat (Z.of_nat i);
            c1 ← np_sub row mat_bar;
            c2 ← np_sub row mat_bar;
            o ← np_einsum_i_j_ij c1 c2;
            np_iadd new_mat o) acc l = Some c →
  shape c = [dim2; dim2] ∧
  ∀ j k, j < dim2 → k < dim2 →
    get c [j; k] =
    Some (foldl (λ s i, fadd s (fmul (fsub (X i j) (bar j)) (fsub (X i k) (bar k))))
                (E j k) l).
Proof using Hshape Hmat.
  intros Hsb Hbar. revert acc E.
  induction l as [|i l IH]; intros acc E Hl Hsa Hacc; cbn [foldlM foldl].
  { intros [= <-]. done. }
  intros (acc' & Hstep & Hrest)%bind_Some.
  apply bind_Some in Hstep as (row & Hrow & Hstep).
  apply bind_Some in Hstep as (c1 & Hc1 & Hstep).
  apply bind_Some in Hstep as (c2 & Hc2 & Hstep).
  apply bind_Some in Hstep as (o & Ho & Hstep).
  rewrite Hc1 in Hc2. injection Hc2 as <-.
  assert (i < dim1) as Hi by (apply Hl; left).
  apply row_entries in Hrow as [Hsr Hrow]; [|done].
  apply (np_zip_with_same _ _ _ _ [dim2]) in Hc1 as (Hsc & Hwfc & Hc1); [|done..].
  assert (length (data c1) = dim2) as Hlc.
  { rewrite Hwfc, Hsc. cbn. lia. }
  unfold np_einsum_i_j_ij in Ho. rewrite Hsc in Ho. unfold np_outer in Ho.
  rewrite Hlc in Ho. apply tabulate_spec in Ho as (Hso & _ & Ho).
  unfold np_iadd in Hstep. case_guard; [|done].
  cbn [mbind option_bind mret option_ret] in Hstep.
  apply (np_zip_with_same _ _ _ _ [dim2; dim2]) in Hstep as (Hsa' & _ & Hacc'); [|done..].
  eapply (IH acc' (λ j k, fadd (E j k) (fmul (fsub (X i j) (bar j)) (fsub (X i k) (bar k)))));
    [|done| |done].
  - intros i' Hi'. apply Hl. by right.
  - intros j k Hj Hk. rewrite Hacc' by by apply in_bounds2.
    rewrite Hacc, Ho by first [done|by apply in_bounds2]. cbn [mbind option_bind].
    assert (∀ x, x < dim2 → data c1 !! x = Some (fsub (X i x) (bar x))) as Hd.
    { intros x Hx. specialize (Hc1 [x]). rewrite get_in_bounds in Hc1
        by (rewrite Hsc; by apply in_bounds1).
      rewrite Hsc in Hc1. cbn [ravel size_of foldr] in Hc1.
      replace (x * 1 + 0) with x in Hc1 by lia.
      rewrite Hc1 by by apply in_bounds1. by rewrite Hrow, Hbar. }
    by rewrite !Hd.
Qed.

(** X7. When [cov_mat(mat)] returns for a matrix of shape [dim1 x dim2], the
    result has shape [dim2 x dim2] and its entry [(j, k)] is the sum over the
    rows [i], taken from the left and from [0.0], of
    [(mat[i, j] - bar[j]) * (mat[i, k] - bar[k])], where [bar] holds the column
    means: the scatter matrix, not divided by the number of rows. *)
Theorem cov_mat_entries c :
  cov_mat mat = Some c →
  let bar j := fdiv (fsum ((λ i, X i j) <$> seq 0 dim1)) (of_nat dim1) in
  shape c = [dim2; dim2] ∧
  ∀ j k, j < dim2 → k < dim2 →
    get c [j; k] =
    Some (foldl (λ s i, fadd s (fmul (fsub (X i j) (bar j)) (fsub (X i k) (bar k))))
                (of_Z 0) (seq 0 dim1)).
Proof using Hshape Hmat.
  intros Hc bar. unfold cov_mat in Hc. rewrite Hshape in Hc.
  apply bind_Some in Hc as (mat_bar & Hbar & Hloop).
  apply np_mean_axis0_entries in Hbar as [Hsb Hbar].
  apply (cov_loop mat_bar bar (seq 0 dim1) (np_zeros [dim2; dim2]) c (λ _ _, of_Z 0)).
  - done.
  - exact Hbar.
  - intros i Hi%elem_of_seq. lia.
  - done.
  - intros j k Hj Hk. apply np_zeros_get. by apply in_bounds2.
  - exact Hloop.
Qed.

End Scatter.

End Products.

(** ** The stacked lagged rows *)

Section Lagged.
Context `{Float R}.
Variables (rank : nat) (time_lags : list Z).

(** X8. The stacked vector [X[t - time_lags, :].reshape([rank * d])] of an
    [X] with [n] rows has [rank * d] entries, and its entry [k * rank + j] is
    [X[t - time_lags[k], j]], the row index being read as Python reads it: a
    negative [t - time_lags[k] >= -n] counts from the end of [X]. *)
Theorem lagged_rows_entries (Xv v : ndarray R) (n : nat) (t : Z) :
  shape Xv = [n; rank] → lagged_rows rank time_lags Xv t = Some v →
  shape v = [rank * length time_lags] ∧
  ∀ k lag j, time_lags !! k = Some lag → j < rank →
    ∃ r, norm_index n (t - lag) = Some r ∧ get v [k * rank + j] = get Xv [r; j].
Proof.
  intros HsX Hv. unfold lagged_rows in Hv.
  apply bind_Some in Hv as (rows & Hrows & Hv).
  unfold np_take_rows in Hrows. rewrite HsX in Hrows.
  apply bind_Some in Hrows as (rs & Hrs & Hrows).
  apply tabulate_spec in Hrows as (Hsr & Hwfr & Hget).
  rewrite length_fmap in Hsr, Hget.
  unfold np_reshape in Hv. apply bind_Some in Hv as (s' & Hfix & [= <-]).
  apply (fix_unknown_dimension_known_inv [_]) in Hfix as [-> _]. cbn [shape].
  split; [done|]. intros k lag j Hk Hj.
  apply mapM_Some_1 in Hrs.
  destruct (Forall2_lookup_l _ _ _ k (t - lag)%Z Hrs) as (r & Hr & Hnorm).
  { by rewrite list_lookup_fmap, Hk. }
  exists r. split; [done|].
  assert (k < length time_lags) as Hkd by by eapply lookup_lt_Some.
  rewrite get_in_bounds by (apply in_bounds1; cbn; nia). cbn [shape data].
  replace (ravel [rank * length time_lags] [k * rank + j])
    with (ravel [length time_lags; rank] [k; j]) by (cbn; lia).
  rewrite <- Hsr, <- get_in_bounds by (rewrite Hsr; by apply in_bounds2).
  rewrite Hget by by apply in_bounds2. by rewrite Hr.
Qed.

End Lagged.

(** ** Counting the calls of a run *)

Section Counting.
Context `{Float R} (lib : nat → call R → option (ndarray R)).
Variable P : call R → bool.
Implicit Types w : world R.

Lemma adds_ret {X} (x : X) : adds P 0 (mret x : M X).
Proof. intros w y w' [= <- <-]. exists []. by rewrite app_nil_r. Qed.

Lemma adds_lift {X} (o : option X) : adds P 0 (lift o).
Proof. intros w y w' [= _ <-]. exists []. by rewrite app_nil_r. Qed.

Lemma adds_load r : adds P 0 (load r).
Proof. intros w y w' [= _ <-]. exists []. by rewrite app_nil_r. Qed.

Lemma adds_store r (a : ndarray R) : adds P 0 (store r a).
Proof.
  intros w [] w' Hrun. apply store_Some in Hrun as [_ ->]. exists []. simpl.
  by rewrite app_nil_r.
Qed.

Lemma adds_alloc (a : ndarray R) : adds P 0 (alloc a).
Proof. intros w y w' [= <- <-]. exists []. simpl. by rewrite app_nil_r. Qed.

Lemma adds_call (c : call R) : adds P (if P c then 1 else 0) (call_lib lib c).
Proof.
  intros w y w' [= _ <-]. exists [c]. split; [done|]. simpl. by destruct (P c).
Qed.

Lemma adds_emit (c : call R) : adds P (if P c then 1 else 0) (emit c).
Proof.
  intros w [] w' [= <-]. exists [c]. split; [done|]. simpl. by destruct (P c).
Qed.

Lemma adds_bind {X Y} j k (m : @M R X) (f : X → M Y) :
  adds P j m → (∀ x, adds P k (f x)) → adds P (j + k) (m ≫= f).
Proof.
  intros Hm Hf w y w' Hrun. apply M_bind_Some in Hrun as (x & w1 & Hmx & Hfx).
  destruct (Hm _ _ _ Hmx) as (l1 & Hl1 & Hc1). destruct (Hf _ _ _ _ Hfx) as (l2 & Hl2 & Hc2).
  exists (l1 ++ l2). split; [by rewrite Hl2, Hl1, app_assoc|].
  rewrite List.filter_app, length_app. lia.
Qed.

Lemma adds_for {X} k (l : list X) (body : X → M unit) :
  (∀ x, adds P k (body x)) → adds P (length l * k) (for_ l body).
Proof.
  intros Hb. induction l as [|x l IH]; simpl.
  - apply adds_ret.
  - apply (adds_bind k (length l * k)); [apply Hb|]. intros _. apply IH.
Qed.

Lemma adds_pure {X} (c : @M R X) : pure c → adds P 0 c.
Proof.
  intros Hc w y w' Hrun. rewrite <- (Hc _ _ _ Hrun). exists []. by rewrite app_nil_r.
Qed.

Lemma adds_eq {X} k k' (c : @M R X) : adds P k c → k = k' → adds P k' c.
Proof. by intros ? <-. Qed.

Lemma adds_if {X} k (b : bool) (c1 c2 : @M R X) :
  adds P k c1 → adds P k c2 → adds P k (if b then c1 else c2).
Proof. by destruct b. Qed.

Lemma adds_fail {X} k : adds P k (lift None : M X).
Proof. by intros w y w'. Qed.

Lemma adds_iadd_ref acc (v : ndarray R) : adds P 0 (iadd_ref acc v).
Proof.
  unfold iadd_ref.
  apply (adds_bind 0 0); [apply adds_load|]. intros a.
  apply (adds_bind 0 0); [apply adds_lift|]. intros a'. apply adds_store.
Qed.

End Counting.

Section CountingSamplers.
Context `{Float R} (lib : nat → call R → option (ndarray R)).
Implicit Types w : world R.

Lemma adds_call_eq (P : call R → bool) k (c : call R) :
  (if P c then 1 else 0) = k → adds P k (call_lib lib c).
Proof. intros <-. apply adds_call. Qed.

Lemma adds_bind0 {X Y} (P : call R → bool) (m : @M R X) (f : X → M Y) :
  adds P 0 m → (∀ x, adds P 0 (f x)) → adds P 0 (m ≫= f).
Proof. apply (adds_bind P 0 0). Qed.

Lemma adds_emit_eq (P : call R → bool) k (c : call R) :
  (if P c then 1 else 0) = k → adds P k (emit c).
Proof. intros <-. apply adds_emit. Qed.

Lemma adds_if_emit (P : call R → bool) k (b : bool) (c : call R) :
  (if P c then 1 else 0) = k →
  adds P (if b then k else 0) (if b then emit c else mret ()).
Proof. intros <-. destruct b; [apply adds_emit|apply adds_ret]. Qed.

Lemma mnrnd_adds (P : call R → bool) k (M0 U V : ndarray R) :
  (∀ p q, length (List.filter P [Random_rand p q; Linalg_cholesky U; Linalg_cholesky V]) = k) →
  adds P k (mnrnd lib M0 U V).
Proof.
  intros HP w x w' Hrun.
  apply mnrnd_Some in Hrun as (p & q & X0 & Pc & Q & QT & PX & PXQ & _ & _ & _ & _ & _ & _ & _ & _ & ->).
  eexists. split; [reflexivity|]. apply HP.
Qed.

End CountingSamplers.

Ltac adds_step :=
  match goal with
  | |- adds _ ?k (@mbind _ _ _ _ _ _) =>
      tryif is_evar k then (eapply adds_bind; [|intros ?])
      else (apply adds_bind0; [|intros ?])
  | |- adds _ _ (@mret _ _ _ _) => apply adds_ret
  | |- adds _ _ (lift _) => apply adds_lift
  | |- adds _ _ (load _) => apply adds_load
  | |- adds _ _ (store _ _) => apply adds_store
  | |- adds _ _ (alloc _) => apply adds_alloc
  | |- adds _ _ (call_lib _ _) => apply adds_call_eq; cbn; reflexivity
  | |- adds _ _ (inv _ _) => apply adds_call_eq; cbn; reflexivity
  | |- adds _ _ (emit _) => apply adds_emit_eq; cbn; reflexivity
  | |- adds _ _ (iadd_ref _ _) => apply adds_iadd_ref
  | |- adds _ _ (mnrnd _ _ _ _) => apply mnrnd_adds; intros; cbn; reflexivity
  | |- adds _ _ (backward_term _ _ _ _ _ _) => apply adds_pure, backward_term_pure
  | |- adds _ _ (for_fold _ (forward_term _ _ _ _ _ _) _) =>
      apply adds_pure, for_fold_forward_term_pure
  | |- adds _ _ (for_ _ _) => eapply adds_for; intros ?
  | |- adds _ _ (if _ then emit _ else _) => apply adds_if_emit; cbn; reflexivity
  | |- adds _ _ (if _ then _ else _) => apply (adds_if _ 0)
  | |- adds _ _ (let '(_, _) := ?p in _) => destruct p
  | |- adds _ _ (match ?p with (_, _) => _ end) => destruct p
  end.
Ltac adds_tac := repeat adds_step.

Section Passes.
Context `{Float R} (lib : nat → call R → option (ndarray R)).
Variables (dense_mat sparse_mat : ndarray R) (init : init_dict) (rank : nat)
          (time_lags : list Z) (maxiter1 maxiter2 : Z).
Variables (dim1 dim2 : nat) (pos position : list (list nat)) (binary_mat : ndarray R).
Variables (W_plus X_new_plus A_plus mat_hat_plus : ref).
Implicit Types w : world R.

Local Abbreviation iteration' :=
  (iteration lib dense_mat sparse_mat init rank time_lags maxiter1 maxiter2
             dim1 dim2 pos position binary_mat W_plus X_new_plus A_plus mat_hat_plus).

Ltac count_pass :=
  eapply adds_eq;
  [unfold iteration, sample_W, sample_W_hyper, sample_W_row, sample_A, sample_X,
     sample_X_row; adds_tac
  |rewrite !length_seq; cbn; repeat case_match; lia].

Lemma iteration_draws iters tau : adds is_draw (dim1 + dim2 + 5) (iteration' iters tau).
Proof. count_pass. Qed.

Lemma iteration_invs iters tau : adds is_inv (dim1 + dim2 + 9) (iteration' iters tau).
Proof. count_pass. Qed.

Lemma iteration_choleskys iters tau : adds is_cholesky 2 (iteration' iters tau).
Proof. count_pass. Qed.

Lemma iteration_summaries iters tau : adds is_summary 0 (iteration' iters tau).
Proof. count_pass. Qed.

Lemma iteration_progress iters tau :
  adds is_progress
       (if bool_decide ((Z.of_nat iters + 1) `mod` 200 = 0)%Z
           && (Z.of_nat iters <? maxiter1 - maxiter2)%Z then 1 else 0)
       (iteration' iters tau).
Proof. count_pass. Qed.

End Passes.

(** ** What a run prints, and how many calls it makes *)

Section Printing.
Context `{Float R} (lib : nat → call R → option (ndarray R)).
Variables (dense_mat sparse_mat : ndarray R) (init : init_dict) (rank : nat)
          (time_lags : list Z) (maxiter1 maxiter2 : Z).
Implicit Types w : world R.

Local Abbreviation W := (init_W init).
Local Abbreviation X := (init_X init).

Lemma printed_passes_app (l1 l2 : list (call R)) :
  printed_passes (l1 ++ l2) = printed_passes l1 ++ printed_passes l2.
Proof. apply omap_app. Qed.

Lemma printed_passes_nil (l : list (call R)) :
  length (List.filter is_progress l) = 0 → printed_passes l = [].
Proof.
  induction l as [|c l IH]; [done|]. cbn.
  destruct c; cbn; try done; intros; by apply IH.
Qed.

Section Pass.
Variables (dim1 dim2 : nat) (pos position : list (list nat)) (binary_mat : ndarray R).
Variables (W_plus X_new_plus A_plus mat_hat_plus : ref).

Local Abbreviation iteration' :=
  (iteration lib dense_mat sparse_mat init rank time_lags maxiter1 maxiter2
             dim1 dim2 pos position binary_mat W_plus X_new_plus A_plus mat_hat_plus).
Local Abbreviation iterations' :=
  (iterations lib dense_mat sparse_mat init rank time_lags maxiter1 maxiter2
              dim1 dim2 pos position binary_mat W_plus X_new_plus A_plus mat_hat_plus).

Lemma iteration_log_tail iters tau w sw w' :
  iteration' iters tau w = (Some sw, w') →
  ∃ pre a scale rmse,
    log w' = log w ++ pre ++ Random_gamma a scale :: progress_lines maxiter1 maxiter2 iters rmse.
Proof.
  intros Hrun. apply iteration_Some in Hrun
    as (w1 & w2 & w3 & w4 & w5 & w6 & Sigma & Wv & Xv & XT & scale & g & rmse & Hrun).
  destruct Hrun as (HW & HWp & HA & HAp & HX & _ & _ & _ & _ & HXn' & _ & _
                    & _ & _ & _ & Hlog & _ & _).
  apply collect_tail_extends in HXn' as (_ & _ & k6 & Hk6).
  assert (extends [W; X; W_plus; A_plus] w w5) as (_ & _ & k5 & Hk5).
  { eapply extends_trans; [eapply extends_mono, sample_W_extends, HW; solve_incl|].
    eapply extends_trans.
    { destruct (collecting _ _ _); [|subst; apply extends_refl].
      destruct HWp as (Wc & _ & HWp). eapply iadd_ref_extends, HWp. solve_elem. }
    eapply extends_trans; [eapply extends_mono, sample_A_extends, HA; solve_incl|].
    eapply extends_trans.
    { destruct (collecting _ _ _); [|subst; apply extends_refl].
      eapply iadd_ref_extends, HAp. solve_elem. }
    eapply extends_mono, sample_X_extends, HX. solve_incl. }
  exists (k5 ++ k6), (tau_shape position), scale, rmse.
  by rewrite Hlog, Hk6, Hk5, <- !app_assoc.
Qed.

Lemma iteration_prints iters tau w sw w' :
  iteration' iters tau w = (Some sw, w') →
  ∃ l, log w' = log w ++ l ∧
       printed_passes l
         = (if bool_decide ((Z.of_nat iters + 1) `mod` 200 = 0)%Z
               && (Z.of_nat iters <? maxiter1 - maxiter2)%Z
            then [(Z.of_nat iters + 1)%Z] else []) ∧
       List.filter is_summary l = [].
Proof.
  intros Hrun.
  destruct (iteration_log_tail _ _ _ _ _ Hrun) as (pre & a & scale & rmse & Hlog).
  destruct (iteration_progress lib _ _ _ _ _ _ _ _ _ _ _ _ _ _ _ _ _ _ _ _ _ Hrun)
    as (l & Hl & Hcount).
  destruct (iteration_summaries lib _ _ _ _ _ _ _ _ _ _ _ _ _ _ _ _ _ _ _ _ _ Hrun)
    as (l' & Hl' & Hsum).
  rewrite Hl in Hl'. apply app_inv_head in Hl' as <-.
  rewrite Hl in Hlog. apply app_inv_head in Hlog as Hlog.
  exists l. split; [done|]. split; [|by apply nil_length_inv].
  subst l. rewrite List.filter_app, length_app in Hcount. cbn in Hcount.
  rewrite printed_passes_app. unfold progress_lines in *.
  destruct (_ && _); cbn in Hcount |- *;
    rewrite printed_passes_nil by lia; done.
Qed.

Lemma iterations_prints its tau w sws w' :
  iterations' its tau w = (Some sws, w') →
  ∃ l, log w' = log w ++ l ∧
       printed_passes l
         = List.filter (λ k, bool_decide (k `mod` 200 = 0)%Z
                             && (k - 1 <? maxiter1 - maxiter2)%Z)
                       ((λ i, Z.of_nat i + 1)%Z <$> its) ∧
       List.filter is_summary l = [].
Proof.
  revert tau w sws. induction its as [|iters its IH]; intros tau w sws Hrun; cbn in Hrun.
  { apply M_ret_Some in Hrun as [_ ->]. exists []. by rewrite app_nil_r. }
  apply M_bind_Some in Hrun as (sw & w1 & Hit & Hrun).
  apply M_bind_Some in Hrun as (sws' & w2 & Hits & Hrun).
  apply M_ret_Some in Hrun as [_ ->].
  apply iteration_prints in Hit as (l1 & Hl1 & Hp1 & Hs1).
  apply IH in Hits as (l2 & Hl2 & Hp2 & Hs2).
  exists (l1 ++ l2). split; [by rewrite Hl2, Hl1, app_assoc|].
  rewrite printed_passes_app, List.filter_app, Hs1, Hs2, Hp1, Hp2. split; [|done].
  cbn [fmap list_fmap List.filter].
  replace (Z.of_nat iters + 1 - 1)%Z with (Z.of_nat iters) by lia.
  by destruct (_ && _).
Qed.

Lemma iterations_adds P k its tau :
  (∀ iters tau, adds P k (iteration' iters tau)) →
  adds P (length its * k) (iterations' its tau).
Proof.
  intros Hk. revert tau. induction its as [|iters its IH]; intros tau; cbn [iterations].
  - apply adds_ret.
  - eapply adds_eq.
    + eapply adds_bind; [apply Hk|]. intros sw.
      eapply adds_bind; [apply IH|]. intros sws. apply adds_ret.
    + cbn. lia.
Qed.

End Pass.

Lemma finish_prints pos acc w out w' :
  finish dense_mat maxiter1 maxiter2 pos acc w = (Some out, w') →
  ∃ finals, log w' = log w ++ finals ∧
            if (100 <=? maxiter1)%Z then ∃ mape rmse, finals = [Print_final mape rmse]
            else finals = [].
Proof.
  unfold finish. intros Hrun.
  destruct (100 <=? maxiter1)%Z; minv.
  - eexists. split; [done|]. by eexists _, _.
  - exists []. by rewrite app_nil_r.
Qed.

Lemma finish_adds P pos acc :
  (∀ mape rmse, P (Print_final mape rmse) = false) →
  adds P 0 (finish dense_mat maxiter1 maxiter2 pos acc).
Proof.
  intros HP w out w' Hrun. apply finish_prints in Hrun as (finals & Hlog & Hf).
  exists finals. split; [done|].
  destruct (100 <=? maxiter1)%Z; [|by subst].
  destruct Hf as (mape & rmse & ->). cbn. by rewrite HP.
Qed.

Local Abbreviation BTMF_trace' :=
  (BTMF_trace lib dense_mat sparse_mat init rank time_lags maxiter1 maxiter2).

(** X9. What a successful run prints: the progress lines are those of the
    passes [iters + 1] that are multiples of 200 with
    [iters < maxiter1 - maxiter2], in this order, and the summary (MAPE and
    RMSE) comes last, exactly when [maxiter1 >= 100]. *)
Theorem BTMF_prints w out sws w' :
  BTMF_trace' w = (Some (out, sws), w') →
  ∃ calls finals,
    log w' = log w ++ calls ++ finals ∧
    printed_passes calls = printing_passes maxiter1 maxiter2 ∧
    List.filter is_summary calls = [] ∧
    if (100 <=? maxiter1)%Z then ∃ mape rmse, finals = [Print_final mape rmse]
    else finals = [].
Proof.
  intros Hrun. apply BTMF_trace_Some in Hrun
    as (dim1 & dim2 & pos & binary_mat & w2 & _ & _ & _ & Hits & Hfin).
  apply iterations_prints in Hits as (calls & Hlc & Hpc & Hsc).
  apply finish_prints in Hfin as (finals & Hlf & Hf).
  exists calls, finals. cbn in Hlc. by rewrite Hlf, Hlc, <- app_assoc.
Qed.

(** X10. Every successful pass of the main loop makes exactly
    [dim1 + dim2 + 5] random draws, [dim1 + dim2 + 9] matrix inversions and
    two Cholesky factorizations. *)
Theorem pass_library_calls dim1 dim2 pos position binary_mat Wp Xp Ap mp iters tau :
  let pass := iteration lib dense_mat sparse_mat init rank time_lags maxiter1 maxiter2
                        dim1 dim2 pos position binary_mat Wp Xp Ap mp iters tau in
  adds is_draw (dim1 + dim2 + 5) pass ∧
  adds is_inv (dim1 + dim2 + 9) pass ∧
  adds is_cholesky 2 pass.
Proof.
  split_and!; [apply iteration_draws|apply iteration_invs|apply iteration_choleskys].
Qed.

(** X11. A successful run of BTMF on a [dim1 x dim2] matrix makes exactly
    [maxiter1 * (dim1 + dim2 + 5)] random draws (none when [maxiter1 <= 0]). *)
Theorem BTMF_draws w out w' dim1 dim2 :
  shape sparse_mat = [dim1; dim2] →
  BTMF lib dense_mat sparse_mat init rank time_lags maxiter1 maxiter2 w = (Some out, w') →
  ∃ l, log w' = log w ++ l ∧
       length (List.filter is_draw l) = Z.to_nat maxiter1 * (dim1 + dim2 + 5).
Proof.
  intros Hshape. revert w out w'.
  change (adds is_draw (Z.to_nat maxiter1 * (dim1 + dim2 + 5))
               (BTMF lib dense_mat sparse_mat init rank time_lags maxiter1 maxiter2)).
  unfold BTMF, fmap, M_fmap, BTMF_trace. rewrite Hshape.
  eapply adds_eq.
  - eapply (adds_bind _ _ 0); [|intros; apply adds_ret].
    eapply adds_bind; [apply adds_lift|]. intros pos.
    eapply adds_bind; [apply adds_lift|]. intros binary_mat.
    eapply adds_bind; [unfold allocate; adds_tac|]. intros acc.
    eapply adds_bind; [apply iterations_adds; intros; apply iteration_draws|]. intros sws.
    eapply adds_bind; [by apply finish_adds|]. intros out. apply adds_ret.
  - rewrite length_seq. lia.
Qed.

End Printing.

(** ** Edge cases of the iteration counts *)

Section Edges.
Context `{Float R} (lib : nat → call R → option (ndarray R)).
Variables (dense_mat sparse_mat : ndarray R) (init : init_dict) (rank : nat)
          (time_lags : list Z) (maxiter1 maxiter2 : Z).
Implicit Types w : world R.

Local Abbreviation W := (init_W init).
Local Abbreviation X := (init_X init).
Local Abbreviation d := (length time_lags).
Local Abbreviation BTMF_trace' :=
  (BTMF_trace lib dense_mat sparse_mat init rank time_lags maxiter1 maxiter2).

Lemma load_app_at (h l : list (ndarray R)) k r a lg :
  r = length h + k → l !! k = Some a →
  load r (World (h ++ l) lg) = (Some a, World (h ++ l) lg).
Proof.
  intros -> Hk. unfold load. cbn.
  by rewrite lookup_app_r, Nat.add_comm, Nat.add_sub, Hk by lia.
Qed.

Lemma allocate_run dim1 dim2 w :
  let n := length (heap w) in
  allocate rank time_lags dim1 dim2 w =
  (Some (Accumulators n (n + 1) (n + 2) (n + 3) (n + 4)),
   World (heap w ++ [np_zeros [dim1; rank]; np_zeros [dim2; rank];
                     np_zeros [dim2 + 1; rank]; np_zeros [rank; rank; d];
                     np_zeros [dim1; dim2 + 1]]) (log w)).
Proof.
  destruct (allocate rank time_lags dim1 dim2 w) as [[acc|] w1] eqn:Hrun.
  - by apply allocate_Some in Hrun as [-> ->].
  - unfold allocate, mbind, M_bind, bind, alloc, mret, M_ret, ret in Hrun. done.
Qed.

Ltac step_load k :=
  erewrite (bind_Some_eq (load _)) by (apply (load_app_at _ _ k); [cbn; lia|reflexivity]).
Ltac step_alloc :=
  erewrite (bind_Some_eq (alloc _)) by reflexivity;
  cbn [heap log]; rewrite <- ?app_assoc; cbn [app].

Lemma finish_run pos (h : list (ndarray R)) a0 a1 a2 a3 a4 lg :
  (maxiter1 < 100)%Z →
  let n := length h in
  finish dense_mat maxiter1 maxiter2 pos (Accumulators n (n + 1) (n + 2) (n + 3) (n + 4))
         (World (h ++ [a0; a1; a2; a3; a4]) lg) =
  (Some (Outputs (n + 8) (n + 5) (n + 6) (n + 7)),
   World (h ++ [a0; a1; a2; a3; a4;
                np_div_scalar a0 (of_Z maxiter2); np_div_scalar a2 (of_Z maxiter2);
                np_div_scalar a3 (of_Z maxiter2); np_div_scalar a4 (of_Z maxiter2)]) lg).
Proof.
  intros Hm n. unfold finish.
  replace (100 <=? maxiter1)%Z with false by (symmetry; apply Z.leb_gt; lia).
  cbn [W_plus X_new_plus A_plus mat_hat_plus].
  step_load 0. step_alloc. step_load 2. step_alloc. step_load 3. step_alloc.
  step_load 4. step_alloc.
  erewrite (bind_Some_eq (mret _)) by reflexivity.
  unfold mret, M_ret, ret. f_equal. f_equal. rewrite !length_app. cbn. subst n.
  f_equal; lia.
Qed.

(** X12. With [maxiter1 <= 0] the main loop is not entered: BTMF returns,
    without any library call and without writing to [init["W"]] or
    [init["X"]], four new arrays that are zeros divided by [maxiter2]. *)
Theorem BTMF_without_passes w dim1 dim2 pos :
  shape sparse_mat = [dim1; dim2] → held_out dense_mat sparse_mat = Some pos →
  (maxiter1 ≤ 0)%Z →
  let n := length (heap w) in
  let zW := np_zeros [dim1; rank] in
  let zX := np_zeros [dim2 + 1; rank] in
  let zA := np_zeros [rank; rank; d] in
  let zM := np_zeros [dim1; dim2 + 1] in
  BTMF lib dense_mat sparse_mat init rank time_lags maxiter1 maxiter2 w =
  (Some (Outputs (n + 8) (n + 5) (n + 6) (n + 7)),
   World (heap w ++ [zW; np_zeros [dim2; rank]; zX; zA; zM;
                     np_div_scalar zW (of_Z maxiter2); np_div_scalar zX (of_Z maxiter2);
                     np_div_scalar zA (of_Z maxiter2); np_div_scalar zM (of_Z maxiter2)])
         (log w)).
Proof.
  intros Hshape Hpos Hm n zW zX zA zM.
  assert (BTMF_trace' w =
          (Some (Outputs (n + 8) (n + 5) (n + 6) (n + 7), []),
           World (heap w ++ [zW; np_zeros [dim2; rank]; zX; zA; zM;
                     np_div_scalar zW (of_Z maxiter2); np_div_scalar zX (of_Z maxiter2);
                     np_div_scalar zA (of_Z maxiter2); np_div_scalar zM (of_Z maxiter2)])
                 (log w))) as Htrace.
  { unfold BTMF_trace. rewrite Hshape, Hpos.
    destruct (binary_mat_total dim1 dim2 (observed sparse_mat)) as [bm Hbm]. rewrite Hbm.
    replace (Z.to_nat maxiter1) with 0 by lia.
    erewrite (bind_Some_eq (lift _)) by reflexivity.
    erewrite (bind_Some_eq (lift _)) by reflexivity.
    erewrite (bind_Some_eq (allocate _ _ _ _)) by apply allocate_run.
    cbn [seq iterations].
    erewrite (bind_Some_eq (mret _)) by reflexivity.
    erewrite (bind_Some_eq (finish _ _ _ _ _)) by (apply finish_run; lia).
    reflexivity. }
  unfold BTMF, fmap, M_fmap, bind. by rewrite Htrace.
Qed.

(** X13. When [maxiter2 >= maxiter1] every pass is a collecting one, and the
    results are the sums over all the passes divided by [maxiter2], not by the
    number of passes. *)
Theorem every_pass_collected w out sws w' dim1 dim2 :
  W < length (heap w) → X < length (heap w) → W ≠ X →
  shape sparse_mat = [dim1; dim2] → (maxiter1 ≤ maxiter2)%Z →
  BTMF_trace' w = (Some (out, sws), w') →
  ∃ Wsum Asum Xsum Msum,
    accumulate (λ sw, Some (sw_W sw)) (np_zeros [dim1; rank]) sws = Some Wsum ∧
    accumulate (λ sw, Some (sw_A sw)) (np_zeros [rank; rank; d]) sws = Some Asum ∧
    accumulate (λ sw, Some (sw_X_new sw)) (np_zeros [dim2 + 1; rank]) sws = Some Xsum ∧
    accumulate sw_recon (np_zeros [dim1; dim2 + 1]) sws = Some Msum ∧
    heap w' !! out_W out = Some (np_div_scalar Wsum (of_Z maxiter2)) ∧
    heap w' !! out_A out = Some (np_div_scalar Asum (of_Z maxiter2)) ∧
    heap w' !! out_X_new out = Some (np_div_scalar Xsum (of_Z maxiter2)) ∧
    heap w' !! out_mat_hat out = Some (np_div_scalar Msum (of_Z maxiter2)).
Proof.
  intros HvW HvX Hne Hshape Hm Hrun.
  destruct (BTMF_trace_end _ _ _ _ _ _ _ _ _ _ _ _ _ _ HvW HvX Hne Hshape Hrun)
    as (_ & Hsums & _).
  replace (Z.to_nat (maxiter1 - maxiter2)) with 0 in Hsums by lia. by rewrite drop_0 in Hsums.
Qed.

(** X14. When [maxiter2 <= 0] no pass is collected: the four results are
    zeros divided by [maxiter2]. *)
Theorem no_pass_collected w out sws w' dim1 dim2 :
  W < length (heap w) → X < length (heap w) → W ≠ X →
  shape sparse_mat = [dim1; dim2] → (maxiter2 ≤ 0)%Z →
  BTMF_trace' w = (Some (out, sws), w') →
  heap w' !! out_W out = Some (np_div_scalar (np_zeros [dim1; rank]) (of_Z maxiter2)) ∧
  heap w' !! out_A out = Some (np_div_scalar (np_zeros [rank; rank; d]) (of_Z maxiter2)) ∧
  heap w' !! out_X_new out
    = Some (np_div_scalar (np_zeros [dim2 + 1; rank]) (of_Z maxiter2)) ∧
  heap w' !! out_mat_hat out
    = Some (np_div_scalar (np_zeros [dim1; dim2 + 1]) (of_Z maxiter2)).
Proof.
  intros HvW HvX Hne Hshape Hm Hrun.
  destruct (BTMF_trace_end _ _ _ _ _ _ _ _ _ _ _ _ _ _ HvW HvX Hne Hshape Hrun)
    as (Hlen & (Wsum & Asum & Xsum & Msum & HW & HA & HX & HM & HoW & HoA & HoX & HoM) & _).
  rewrite drop_ge in HW, HA, HX, HM by lia. cbn in HW, HA, HX, HM.
  by simplify_eq.
Qed.

(** X15. The array [X_plus] allocated at line 300 is never written and not
    returned: after a successful run it still is [np.zeros((dim2, rank))], and
    none of the four results is that array. *)
Theorem X_plus_never_written w out sws w' dim1 dim2 :
  W < length (heap w) → X < length (heap w) → W ≠ X →
  shape sparse_mat = [dim1; dim2] →
  BTMF_trace' w = (Some (out, sws), w') →
  heap w' !! (length (heap w) + 1) = Some (np_zeros [dim2; rank]) ∧
  length (heap w) + 1 ∉ [out_mat_hat out; out_W out; out_X_new out; out_A out].
Proof.
  intros HvW HvX Hne Hshape Hrun.
  destruct (BTMF_trace_end _ _ _ _ _ _ _ _ _ _ _ _ _ _ HvW HvX Hne Hshape Hrun)
    as (_ & _ & _ & Hout & _).
  apply BTMF_trace_Some in Hrun
    as (dim1' & dim2' & pos & binary_mat & w2 & Hs & _ & _ & Hits & Hfin).
  rewrite Hshape in Hs. injection Hs as <- <-.
  set (n := length (heap w)) in *.
  assert (NoDup [W; X; n; n + 2; n + 3; n + 4]) as Hnd.
  { repeat (apply NoDup_cons; split; [notin_lia|]). apply NoDup_nil_2. }
  apply iterations_accumulate in Hits as (_ & (Hhl & Hframe & _) & _); [|done].
  cbn [heap] in Hhl, Hframe. rewrite length_app in Hhl. cbn in Hhl. fold n in Hhl.
  apply finish_Some in Hfin as (Wp & Xp & Ap & mp & _ & _ & _ & _ & _ & Hheap & _);
    cbn [W_plus X_new_plus A_plus mat_hat_plus]; [|lia..].
  split.
  - rewrite Hheap, lookup_app_l, Hframe by first [lia|notin_lia].
    rewrite lookup_app_r by (fold n; lia). fold n.
    by replace (n + 1 - n) with 1 by lia.
  - subst out. cbn. notin_lia.
Qed.

End Edges.

(** ** What a run leaves alone, however it ends *)

Section Kept.
Context `{Float R} (lib : nat → call R → option (ndarray R)).
Variables (dense_mat sparse_mat : ndarray R) (init : init_dict) (rank : nat)
          (time_lags : list Z) (maxiter1 maxiter2 : Z).
Variables (N : nat) (rs : list ref).
Implicit Types w : world R.

Local Abbreviation W := (init_W init).
Local Abbreviation X := (init_X init).

Lemma keeps_refl w : keeps N rs w w.
Proof. intros HN. split; [done|]. split; [done|]. exists []. by rewrite app_nil_r. Qed.

Lemma keeps_trans w1 w2 w3 : keeps N rs w1 w2 → keeps N rs w2 w3 → keeps N rs w1 w3.
Proof.
  intros H1 H2 HN. destruct (H1 HN) as (Hl1 & Hh1 & l1 & Hlog1).
  destruct (H2 Hl1) as (Hl2 & Hh2 & l2 & Hlog2).
  split; [done|]. split.
  - intros r Hr Hrs. rewrite Hh2, Hh1; done.
  - exists (l1 ++ l2). by rewrite Hlog2, Hlog1, app_assoc.
Qed.

Lemma extends_keeps {Y} rs' (c : @M R Y) :
  (∀ r, r ∈ rs' → r ∈ rs ∨ N ≤ r) →
  respects (extends rs') c → respects (keeps N rs) c.
Proof.
  intros Hrs Hc w y w' Hrun HN. destruct (Hc _ _ _ Hrun) as (Hl & Hh & Hlog).
  split; [lia|]. split; [|done]. intros r Hr Hnot. apply Hh.
  intros [?|?]%Hrs; [done|lia].
Qed.

Lemma alloc_keeps (a : ndarray R) : respects (keeps N rs) (alloc a).
Proof.
  intros w y w' [= _ <-] HN. cbn. split; [rewrite length_app; lia|]. split.
  - intros r Hr Hnot. apply lookup_app_l. lia.
  - exists []. by rewrite app_nil_r.
Qed.

Lemma emit_keeps (c : call R) : respects (keeps N rs) (emit c).
Proof.
  intros w r w' Hrun HN. unfold emit in Hrun. injection Hrun as _ <-.
  split; [exact HN|]. split; [done|]. by eexists.
Qed.

Ltac keeps_step :=
  match goal with
  | |- respects _ (@mbind _ _ _ _ _ _) =>
      apply respects_bind; [exact keeps_trans| |intros ?]
  | |- respects _ (@mret _ _ _ _) => apply respects_ret; exact keeps_refl
  | |- respects _ (lift _) => apply respects_lift; exact keeps_refl
  | |- respects _ (load _) => apply respects_load; exact keeps_refl
  | |- respects _ (alloc _) => apply alloc_keeps
  | |- respects _ (emit _) => apply emit_keeps
  | |- respects _ (if _ then _ else _) => apply respects_if
  end.

Lemma finish_keeps pos acc :
  respects (keeps N rs) (finish dense_mat maxiter1 maxiter2 pos acc).
Proof. unfold finish. repeat keeps_step. Qed.

Lemma iterations_keeps dim1 dim2 pos position binary_mat Wp Xp Ap mp its tau :
  W ∈ rs → X ∈ rs → N ≤ Wp → N ≤ Xp → N ≤ Ap → N ≤ mp →
  respects (keeps N rs)
    (iterations lib dense_mat sparse_mat init rank time_lags maxiter1 maxiter2
                dim1 dim2 pos position binary_mat Wp Xp Ap mp its tau).
Proof.
  intros HW HX HWp HXp HAp Hmp.
  revert tau. induction its as [|iters its IH]; intros tau; simpl; repeat keeps_step.
  - eapply extends_keeps, iteration_extends.
    intros r Hr. repeat (apply elem_of_cons in Hr as [->|Hr]; [by auto|]).
    by apply elem_of_nil in Hr.
  - apply IH.
Qed.

End Kept.

Section KeptRun.
Context `{Float R} (lib : nat → call R → option (ndarray R)).
Variables (dense_mat sparse_mat : ndarray R) (init : init_dict) (rank : nat)
          (time_lags : list Z) (maxiter1 maxiter2 : Z).
Implicit Types w : world R.

Lemma bind_run {Y Z} (m : @M R Y) (f : Y → M Z) w o w' :
  (m ≫= f) w = (o, w') →
  (∃ y w1, m w = (Some y, w1) ∧ f y w1 = (o, w')) ∨ (m w = (None, w') ∧ o = None).
Proof.
  unfold mbind, M_bind, bind. destruct (m w) as [[y|] w1].
  - intros Hf. left. by exists y, w1.
  - intros [= <- <-]. by right.
Qed.

Lemma BTMF_trace_keeps w o w' :
  BTMF_trace lib dense_mat sparse_mat init rank time_lags maxiter1 maxiter2 w = (o, w') →
  keeps (length (heap w)) [init_W init; init_X init] w w'.
Proof.
  unfold BTMF_trace. intros Hrun.
  destruct (shape sparse_mat) as [|dim1 [|dim2 [|]]];
    try (unfold lift in Hrun; simplify_eq; apply keeps_refl).
  apply bind_run in Hrun as [(pos & w0 & Hl & Hrun)|[Hl _]];
    unfold lift in Hl; injection Hl as _ Hw; subst; [|apply keeps_refl].
  apply bind_run in Hrun as [(bm & w1 & Hl & Hrun)|[Hl _]];
    unfold lift in Hl; injection Hl as _ Hw; subst; [|apply keeps_refl].
  match type of Hrun with _ ?w = _ =>
    rewrite (bind_Some_eq _ _ _ _ _ (allocate_run rank time_lags dim1 dim2 w)) in Hrun;
    set (N := length (heap w)); set (rs := [init_W init; init_X init]) end.
  cbn [W_plus X_new_plus A_plus mat_hat_plus] in Hrun.
  eapply keeps_trans; cycle 1.
  - eapply (respects_bind _ (keeps_trans N rs)), Hrun.
    + apply iterations_keeps; subst N rs; first [lia|by repeat constructor].
    + intros sws. apply respects_bind; [exact (keeps_trans N rs)|apply finish_keeps|].
      intros. apply respects_ret, keeps_refl.
  - intros HN. cbn. split; [rewrite length_app; lia|].
    split; [|exists []; by rewrite app_nil_r].
    intros r Hr _. apply lookup_app_l. subst N. lia.
Qed.

(** X16. However a run of BTMF ends, with its results or with an error, no
    array of the caller other than [init["W"]] and [init["X"]] has changed,
    the heap has not shrunk and the log of calls has only grown. *)
Theorem caller_arrays_kept w o w' :
  BTMF lib dense_mat sparse_mat init rank time_lags maxiter1 maxiter2 w = (o, w') →
  length (heap w) ≤ length (heap w') ∧
  (∀ r, r < length (heap w) → r ≠ init_W init → r ≠ init_X init →
        heap w' !! r = heap w !! r) ∧
  ∃ l, log w' = log w ++ l.
Proof.
  intros Hrun.
  cut (keeps (length (heap w)) [init_W init; init_X init] w w').
  { intros Hk. destruct (Hk (Nat.le_refl _)) as (Hl & Hh & Hlog).
    split; [done|]. split; [|done]. intros r Hr HrW HrX. apply Hh; [done|].
    rewrite !not_elem_of_cons. split_and!; [done|done|apply not_elem_of_nil]. }
  unfold BTMF, fmap, M_fmap in Hrun. change (bind ?m ?f) with (m ≫= f) in Hrun.
  apply bind_run in Hrun as [(out & w3 & Hrun & Hret)|[Hrun _]].
  - unfold ret in Hret. simplify_eq. by eapply BTMF_trace_keeps.
  - by eapply BTMF_trace_keeps.
Qed.

End KeptRun.

(** ** The entries that are scored *)

Section Scored.
Context `{Float R}.
Variables (dense_mat sparse_mat : ndarray R).

Lemma elem_of_np_where (mask : ndarray bool) idx :
  idx ∈ np_where mask ↔ in_bounds (shape mask) idx = true ∧ get mask idx = Some true.
Proof.
  unfold np_where. rewrite list_elem_of_In, List.filter_In, <- list_elem_of_In, elem_of_indices.
  split; intros [Hb Hg]; (split; [done|]).
  - by destruct (get mask idx) as [[]|].
  - by rewrite Hg.
Qed.

Lemma get_np_map {B C} (f : B → C) (a : ndarray B) idx :
  get (np_map f a) idx = f <$> get a idx.
Proof. unfold get, np_map. cbn. destruct (in_bounds _ _); [|done]. apply list_lookup_fmap. Qed.

(** X17. The entries [pos] on which RMSE and MAPE are computed (non-zero in
    [dense_mat], zero in [sparse_mat]) and the observed entries [position]
    (non-zero in [sparse_mat]) have no index in common. *)
Theorem scored_entries_unobserved pos idx :
  held_out dense_mat sparse_mat = Some pos → idx ∈ pos → idx ∉ observed sparse_mat.
Proof.
  unfold held_out, observed. intros Hpos Hidx Hobs.
  apply fmap_Some in Hpos as (mask & Hmask & ->).
  apply elem_of_np_where in Hidx as [_ Hm]. apply elem_of_np_where in Hobs as [Hb Ho].
  rewrite get_np_map in Ho. cbn in Hb.
  unfold np_zip_with in Hmask. apply bind_Some in Hmask as (s & Hs & Hmask).
  apply tabulate_spec in Hmask as (Hsm & _ & Hget).
  destruct (decide (in_bounds s idx = true)) as [Hin|Hout].
  - rewrite Hget in Hm by done. rewrite (bidx_same (shape sparse_mat)) in Hm by done.
    destruct (get sparse_mat idx) as [y|]; [|done]. cbn in Ho. injection Ho as Ho.
    destruct (get dense_mat _) as [x|]; [|done]. cbn in Hm. injection Hm as Hm.
    rewrite Ho in Hm. by destruct (fne0 x).
  - unfold get in Hm. rewrite Hsm in Hm. by destruct (in_bounds s idx).
Qed.

End Scored.

(** ** What each sampler writes *)

Section Writes.
Context `{Float R} (lib : nat → call R → option (ndarray R)).
Variables (sparse_mat : ndarray R) (init : init_dict) (rank : nat) (time_lags : list Z).
Variables (dim1 dim2 : nat) (binary_mat : ndarray R).

(** X18. Whatever its outcome, the loading sampler writes no array but
    [init["W"]], the temporal sampler none but [init["X"]] and the coefficient
    sampler none at all; none of them allocates. *)
Theorem samplers_write_their_factor tau A Sigma :
  respects (extends [init_W init]) (sample_W lib sparse_mat init rank dim1 binary_mat tau) ∧
  respects (extends []) (sample_A lib init rank time_lags dim2) ∧
  respects (extends [init_X init])
           (sample_X lib sparse_mat init rank time_lags dim2 binary_mat A Sigma tau).
Proof.
  split_and!; [apply sample_W_extends|apply sample_A_extends|apply sample_X_extends].
Qed.

End Writes.

(** ** Runs of the small data set *)

Import Sym Ints.

(** C2, at [mnrnd(np.zeros((1, 1)), np.eye(1), np.eye(1))].  The result is
    [M + (P X0) Q^T] with [P], [Q] the answers of the two Cholesky calls, but
    [X0] is the answer of [np.random.rand(1, 1)], numpy's uniform sampler on
    [0, 1): the only draw of the call, and not a standard-normal one. *)
Theorem mnrnd_draws_with_rand :
  mnrnd sym_lib zero11 eye1 eye1 (World [] []) =
    (Some (NDArray [1; 1]
       [Add (Const 0) (Add (Const 0)
          (Mul (Add (Const 0) (Mul (Out 1 0) (Out 0 0))) (Out 2 0)))]),
     World [] [Random_rand 1 1; Linalg_cholesky eye1; Linalg_cholesky eye1]).
Proof. vm_compute. reflexivity. Qed.

(** [ten2mat] raises on a tensor whose unfolded axis is empty: numpy
    cannot infer the [-1] of [reshape((0, -1))]. *)
Lemma ten2mat_empty_mode :
  wf empty_mode ∧ length (shape empty_mode) = 3 ∧
  (M ← ten2mat empty_mode 0; mat2ten M (shape empty_mode) 0) ≠ Some empty_mode.
Proof. split; [reflexivity|]. split; [reflexivity|]. vm_compute. discriminate. Qed.

Lemma mat2ten_ten2mat_witness :
  ∃ M, ten2mat demo_tensor 1 = Some M ∧ shape M = [2; 12] ∧
       mat2ten M (shape demo_tensor) 1 = Some demo_tensor.
Proof.
  apply (mat2ten_ten2mat demo_tensor 1 2); [reflexivity|reflexivity|reflexivity|lia].
Defined.

(** In the run of the small data set, call number 16 is the Cholesky
    factorization of [var_Psi], which is the answer of call number 10
    ([inv]) as it came: not a matrix of the form [(M + M^T)/2]. *)
Lemma cholesky_input_not_symmetrized : ¬ spec_factorizations_symmetrized (log demo_end).
Proof.
  intros Hc. destruct (Hc 16 (answer 10 [2; 2])) as [m Hm]; [left; reflexivity|].
  unfold spec_symmetrize in Hm.
  destruct (np_T m) as [mT|]; simpl in Hm; [|discriminate].
  destruct (np_add m mT) as [s|]; simpl in Hm; [|discriminate].
  injection Hm as _ Hd. destruct (data s); discriminate.
Qed.

Lemma cholesky_inputs_as_returned_witness :
  ∃ var_Psi, List.filter is_cholesky (log demo_A_end)
             = [Linalg_cholesky var_Psi; Linalg_cholesky demo_Sigma].
Proof.
  destruct (cholesky_inputs_as_returned sym_lib init 2 [1%Z] 3 start demo_Sigma demo_coef
              demo_A_end) as (n1 & n2 & sPsi & var_Psi & var_S & df & _ & _ & _ & _ & Hc);
    [vm_compute; reflexivity|].
  by exists var_Psi.
Defined.

(** With an [init["X"]] of three columns where [rank = 2], BTMF fails, but
    only after draws have been made; with [time_lags = [3]] and [dim2 = 3]
    it does not fail at all. *)
Lemma no_validation_at_entry :
  ¬ spec_rejected_at_entry start_wide
      (BTMF sym_lib dense sparse init 2 [1%Z] 2 1 start_wide) ∧
  ¬ spec_rejected_at_entry start (BTMF sym_lib dense sparse init 2 [3%Z] 2 1 start).
Proof.
  split; intros [Hf Hd].
  - clear Hf. vm_compute in Hd. discriminate Hd.
  - clear Hd. vm_compute in Hf. discriminate Hf.
Qed.

Lemma sampling_starts_unchecked_witness :
  ∃ rest, log (snd (BTMF sym_lib dense sparse init 2 [1%Z] 2 1 start_wide))
          = log hyper_wide_end ++ rest.
Proof.
  destruct (sampling_starts_unchecked sym_lib dense sparse init 2 [1%Z] 2 1 start_wide 2 3
              hyper_wide_result hyper_wide_end)
    as (df & Sc & mu & cov & rest & _ & Hrest);
    [reflexivity|by eexists|lia|vm_compute; reflexivity|].
  by exists rest.
Defined.

Lemma averages_over_collection_window_witness :
  length demo_sweeps = 2 ∧
  ∃ Wsum, accumulate (λ sw, Some (sw_W sw)) (np_zeros [2; 2]) (drop 1 demo_sweeps)
            = Some Wsum ∧
          heap demo_end !! out_W demo_out = Some (np_div_scalar Wsum (Const 1)).
Proof.
  destruct (averages_over_collection_window sym_lib dense sparse init 2 [1%Z] 2 1
              start demo_out demo_sweeps demo_end 2 3)
    as (Hlen & _ & Wsum & _ & _ & _ & HW & _ & _ & _ & HoW & _);
    [simpl; lia|simpl; lia|discriminate|reflexivity|lia|vm_compute; reflexivity|].
  split; [exact Hlen|]. exists Wsum. split; [exact HW|exact HoW].
Defined.

Lemma forward_terms_follow_rule_witness :
  ∃ wt P iP mean post,
    log demo_pass_end = log wt ++ [Linalg_inv P; Random_multivariate_normal mean iP] ++ post.
Proof.
  destruct (forward_terms_follow_rule sym_lib dense sparse init 2 [1%Z] 2 1 2 3 held
              (observed sparse) binary 2 4 5 6 1 (Const 1) 1%Z allocated demo_sweep
              demo_pass_end)
    as (w2 & w3 & w4 & pre & Sigma & Lambda_x & var3 & var4 & _ & _ & _ & Hrows).
  - intros l Hl. apply elem_of_cons in Hl as [->|Hl]; [lia|]. by apply elem_of_nil in Hl.
  - reflexivity.
  - vm_compute; reflexivity.
  - pose proof (Hrows 0) as Hrow. cbv zeta in Hrow.
    destruct Hrow
      as (wt & mid & post & Xv & Mt & Nt & Qt & v3 & c & s & var_mu & P & iP & mean & Hrow);
      [lia|].
    exists wt, P, iP, mean, post. apply Hrow.
Defined.

Lemma temporal_conditional_cases_witness :
  ∃ Sigma Lambda_x w4 pre,
    log w4 = log allocated ++ pre ∧
    sym_lib (length (log w4)) (Linalg_inv Sigma) = Some Lambda_x.
Proof.
  destruct (temporal_conditional_cases sym_lib dense sparse init 2 [1%Z] 2 1 2 3 held
              (observed sparse) binary 2 4 5 6 1 (Const 1) 1%Z allocated demo_sweep
              demo_pass_end)
    as (w2 & w3 & w4 & pre & Sigma & Lambda_x & Wv & var1 & var2 & m3 & r3 & ds3 & var3 & m4
        & _ & Hpre & HL & _);
    [reflexivity|vm_compute; reflexivity|].
  exists Sigma, Lambda_x, w4, pre. split; [exact Hpre|exact HL].
Defined.

Lemma tau_redrawn_each_pass_witness :
  length demo_sweeps = 2 ∧
  ∃ first second g, demo_sweeps !! 0 = Some first ∧ demo_sweeps !! 1 = Some second ∧
                    item g = Some (sw_tau second).
Proof.
  destruct (tau_redrawn_each_pass sym_lib dense sparse init 2 [1%Z] 2 1 2 3
              start demo_out demo_sweeps demo_end)
    as (Hlen & binary_mat & _ & Hpass);
    [simpl; lia|simpl; lia|reflexivity|vm_compute; reflexivity|].
  split; [exact Hlen|].
  assert (∃ sw, demo_sweeps !! 1 = Some sw) as [second Hsecond] by (eexists; reflexivity).
  destruct (Hpass 1 second Hsecond)
    as (tau_in & wk & w1 & Sigma & w4 & w5 & before & pre & XT & diff & sel & g & rmse & after
        & (first & Hfirst & _) & _ & _ & _ & _ & _ & _ & _ & _ & _ & Hitem).
  exists first, second, g. split; [exact Hfirst|]. split; [exact Hsecond|exact Hitem].
Defined.


Lemma inputs_overwritten_outputs_fresh_witness :
  row_drawn sym_lib 0 0 demo_end 0 ∧
  NoDup [out_mat_hat demo_out; out_W demo_out; out_X_new demo_out; out_A demo_out].
Proof.
  destruct (inputs_overwritten_outputs_fresh sym_lib dense sparse init 2 [1%Z] 2 1
              start demo_out demo_sweeps demo_end 2 3)
    as (HW & _ & _ & _ & Hnd & _);
    [simpl; lia|simpl; lia|discriminate|reflexivity|lia|vm_compute; reflexivity|].
  split; [apply (HW 0); lia|exact Hnd].
Defined.

(** ** The same properties on the small data set *)

(** The passes of the notebook's runs ([maxiter1 = 1100], [maxiter2 = 100])
    that print a progress line, as the recorded outputs show them. *)
Example printing_passes_notebook : printing_passes 1100 100 = [200; 400; 600; 800; 1000]%Z.
Proof. vm_compute. reflexivity. Qed.

Lemma ten2mat_entries_witness :
  get demo_unfolding [1; 2 + 3 * 3] = get demo_tensor [2; 1; 3].
Proof.
  apply (ten2mat_entries demo_tensor 1 demo_unfolding 3 2 4); [reflexivity|reflexivity|lia..].
Defined.

Lemma ten2mat_int_returns_iff_witness : is_Some (ten2mat_int demo_tensor (-1)).
Proof.
  apply (ten2mat_int_returns_iff demo_tensor (-1)); [reflexivity|reflexivity|].
  split; [lia|]. exists 4. split; [reflexivity|lia].
Defined.

Lemma ten2mat_mat2ten_witness :
  ∃ T, mat2ten demo_unfolding [3; 2; 4] 1 = Some T ∧ shape T = [3; 2; 4] ∧
       ten2mat T 1 = Some demo_unfolding.
Proof.
  apply (ten2mat_mat2ten demo_unfolding [3; 2; 4] 1 2);
    [reflexivity|reflexivity|reflexivity|lia|reflexivity].
Defined.

Lemma mat2ten_int_returns_iff_witness :
  ∃ T, mat2ten_int six [3; 2; 1] (-1) = Some T ∧ length (shape T) = 4.
Proof.
  destruct (mat2ten_int_returns_iff six [3; 2; 1] (-1)) as [_ Hneg];
    [reflexivity|reflexivity|].
  destruct Hneg as [Hiff Haxes]; [lia|].
  destruct (proj2 Hiff) as [T HT].
  - split; [lia|]. exists 1. split; [reflexivity|reflexivity].
  - exists T. split; [exact HT|exact (Haxes T HT)].
Defined.

Lemma kr_prod_entries_witness :
  ∃ c, kr_prod kr_A kr_B = Some c ∧ shape c = [6; 2].
Proof.
  destruct (kr_prod_entries kr_A kr_B 2 3 2) as (c & Hc & Hs & _);
    [reflexivity|reflexivity|reflexivity|reflexivity|lia|].
  exists c. split; [exact Hc|exact Hs].
Defined.

Lemma kr_prod_no_rows_witness : kr_prod no_rows kr_B = None.
Proof. apply (kr_prod_no_rows no_rows kr_B 0 3 2 2); reflexivity. Defined.

Lemma cov_mat_entries_witness : shape scatter_W = [2; 2].
Proof.
  apply (cov_mat_entries W_init 2 2 (λ _ _, Const 1)); [reflexivity| |reflexivity].
  intros [|[|i]] [|[|j]] Hi Hj; try lia; reflexivity.
Defined.

Lemma lagged_rows_entries_witness :
  ∃ r, norm_index 3 (0 - 1) = Some r ∧ get stacked_rows [0 * 2 + 1] = get X_init [r; 1].
Proof.
  destruct (lagged_rows_entries 2 [1%Z] X_init stacked_rows 3 0) as [_ Hv];
    [reflexivity|reflexivity|].
  apply (Hv 0 1%Z 1); [reflexivity|lia].
Defined.

Lemma BTMF_draws_witness :
  ∃ l, log demo_end = l ∧ length (List.filter is_draw l) = 2 * (2 + 3 + 5).
Proof.
  destruct (BTMF_draws sym_lib dense sparse init 2 [1%Z] 2 1 start demo_out demo_end 2 3)
    as (l & Hl & Hc); [reflexivity|vm_compute; reflexivity|].
  exists l. split; [exact Hl|exact Hc].
Defined.

Lemma BTMF_prints_witness :
  ∃ calls mape rmse,
    log long_end = calls ++ [Print_final mape rmse] ∧ printed_passes calls = [200%Z].
Proof.
  destruct (BTMF_prints int_lib int_dense int_sparse (Init 0 1) 2 [1%Z] 250 50 int_start
              long_out long_sweeps long_end) as (calls & finals & Hl & Hp & _ & Hf);
    [vm_compute; reflexivity|].
  cbn in Hf. destruct Hf as (mape & rmse & ->).
  exists calls, mape, rmse. split; [exact Hl|]. rewrite Hp. reflexivity.
Defined.

Lemma BTMF_without_passes_witness :
  fst (BTMF sym_lib dense sparse init 2 [1%Z] 0 1 start) = Some (Outputs 10 7 8 9).
Proof.
  rewrite (BTMF_without_passes sym_lib dense sparse init 2 [1%Z] 0 1 start 2 3 held);
    [reflexivity|reflexivity|vm_compute; reflexivity|lia].
Defined.

Lemma every_pass_collected_witness :
  ∃ Wsum, accumulate (λ sw, Some (sw_W sw)) (np_zeros [2; 2]) greedy_sweeps = Some Wsum ∧
          heap greedy_end !! out_W greedy_out = Some (np_div_scalar Wsum (Const 2)).
Proof.
  destruct (every_pass_collected sym_lib dense sparse init 2 [1%Z] 1 2
              start greedy_out greedy_sweeps greedy_end 2 3)
    as (Wsum & _ & _ & _ & HW & _ & _ & _ & HoW & _);
    [simpl; lia|simpl; lia|discriminate|reflexivity|lia|vm_compute; reflexivity|].
  exists Wsum. split; [exact HW|exact HoW].
Defined.

Lemma no_pass_collected_witness :
  heap idle_end !! out_W idle_out = Some (np_div_scalar (np_zeros [2; 2]) (Const 0)).
Proof.
  destruct (no_pass_collected sym_lib dense sparse init 2 [1%Z] 1 0
              start idle_out idle_sweeps idle_end 2 3) as [HoW _];
    [simpl; lia|simpl; lia|discriminate|reflexivity|lia|vm_compute; reflexivity|].
  exact HoW.
Defined.

Lemma X_plus_never_written_witness : heap demo_end !! 3 = Some (np_zeros [3; 2]).
Proof.
  destruct (X_plus_never_written sym_lib dense sparse init 2 [1%Z] 2 1
              start demo_out demo_sweeps demo_end 2 3) as [Hz _];
    [simpl; lia|simpl; lia|discriminate|reflexivity|vm_compute; reflexivity|].
  exact Hz.
Defined.

Lemma caller_arrays_kept_witness : 2 ≤ length (heap wide_end).
Proof.
  destruct (caller_arrays_kept sym_lib dense sparse init 2 [1%Z] 2 1 start_wide None
              wide_end) as [Hl _]; [vm_compute; reflexivity|].
  exact Hl.
Defined.

Lemma scored_entries_unobserved_witness : [0; 1] ∉ observed sparse.
Proof.
  apply (scored_entries_unobserved dense sparse held);
    [vm_compute; reflexivity|repeat constructor].
Defined.
